(** * Subtitle fusion: a shallow embedding of [src/logic.ts] and
      [src/inline-translation.ts], and the properties of the overlap
      predicate, the overlap merger, the vocabulary classifier and the
      fusion engine.

    Conventions of the embedding.

    - A JavaScript string is a [string]: a sequence of 8-bit characters.
      The character classes of the regular expressions ([\s], [\d],
      [\p{L}], [\p{N}], [\p{P}], [\w]) and the case conversions are the
      ASCII ones; a character above 127 counts as a caseless letter.
      On ASCII text these are the classes and conversions of the code;
      a property that rests on them is stated for ASCII text.
    - A JavaScript number is a [Z].  Every number the code computes is an
      integer built from parsed decimal fields, which a double holds
      exactly below 2^53; above, the code rounds and the embedding does
      not, and a property that rests on a value is stated below 2^53.
      [NaN] is [None].
    - [Set<string>] is a [gset string], [Set<number>] a [gset nat],
      [Map<string, number>] a [gmap string nat].
    - A thrown [TypeError] that no handler of the function catches is the
      result [None] of an [option]-valued function.
    - Console output is not modelled. *)

From Stdlib Require Import ZArith Ascii String List Lia Bool.
From stdpp Require Import base relations gmap sets list strings pretty.

Open Scope string_scope.
Open Scope Z_scope.

(** ** Data model *)

(** [interface Subtitle] *)
Record Subtitle : Type := mkSubtitle {
  index : string;
  start : string;
  end_ : string;
  text : string
}.

#[global] Instance Subtitle_eq_dec : EqDecision Subtitle.
Proof. solve_decision. Defined.

(** ** Characters and strings *)

Module Js.

Definition code (c : ascii) : nat := nat_of_ascii c.

Definition between (lo hi : nat) (c : ascii) : bool :=
  (lo <=? code c)%nat && (code c <=? hi)%nat.

(** [\s], restricted to ASCII: tab, line feed, vertical tab, form feed,
    carriage return, space. *)
Definition isSpace (c : ascii) : bool :=
  between 9 13 c || (code c =? 32)%nat.

(** [\d] *)
Definition isDigit (c : ascii) : bool := between 48 57 c.

Definition isUpper (c : ascii) : bool := between 65 90 c.
Definition isLower (c : ascii) : bool := between 97 122 c.

(** [\p{L}] *)
Definition isLetter (c : ascii) : bool :=
  isUpper c || isLower c || (128 <=? code c)%nat.

(** [\w] *)
Definition isWordChar (c : ascii) : bool :=
  isUpper c || isLower c || isDigit c || (code c =? 95)%nat.

(** [\p{P}], restricted to ASCII: the characters of the general
    categories Pc, Pd, Ps, Pe and Po, listed by code (the symbols
    dollar, plus, less, equal, greater, caret, backquote, bar and tilde
    are not punctuation). *)
Definition isPunct (c : ascii) : bool :=
  existsb (Nat.eqb (code c))
    [33; 34; 35; 37; 38; 39; 40; 41; 42; 44; 45; 46; 47; 58; 59; 63; 64;
     91; 92; 93; 95; 123; 125]%nat.

Definition lowerChar (c : ascii) : ascii :=
  if isUpper c then ascii_of_nat (code c + 32) else c.

Definition upperChar (c : ascii) : ascii :=
  if isLower c then ascii_of_nat (code c - 32) else c.

(** [s.toLowerCase()], [s.toUpperCase()] *)
Fixpoint toLowerCase (s : string) : string :=
  match s with
  | EmptyString => EmptyString
  | String c r => String (lowerChar c) (toLowerCase r)
  end.

Fixpoint toUpperCase (s : string) : string :=
  match s with
  | EmptyString => EmptyString
  | String c r => String (upperChar c) (toUpperCase r)
  end.

Fixpoint dropWhile (p : ascii -> bool) (s : string) : string :=
  match s with
  | EmptyString => EmptyString
  | String c r => if p c then dropWhile p r else s
  end.

Fixpoint takeWhile (p : ascii -> bool) (s : string) : string :=
  match s with
  | EmptyString => EmptyString
  | String c r => if p c then String c (takeWhile p r) else EmptyString
  end.

Fixpoint allChars (p : ascii -> bool) (s : string) : bool :=
  match s with
  | EmptyString => true
  | String c r => p c && allChars p r
  end.

(** Removes the longest suffix of characters satisfying [p]. *)
Fixpoint dropWhileEnd (p : ascii -> bool) (s : string) : string :=
  match s with
  | EmptyString => EmptyString
  | String c r => if p c && allChars p r then EmptyString
                  else String c (dropWhileEnd p r)
  end.

(** [s.trim()] *)
Definition trim (s : string) : string :=
  dropWhileEnd isSpace (dropWhile isSpace s).

Definition isEmpty (s : string) : bool :=
  match s with EmptyString => true | _ => false end.

(** [xs.join(sep)] *)
Fixpoint join (sep : string) (xs : list string) : string :=
  match xs with
  | [] => EmptyString
  | [x] => x
  | x :: r => x +:+ sep +:+ join sep r
  end.

(** [s.split(re)] for a regular expression [re] matching exactly one
    character of the class [sep]. *)
Fixpoint splitOn (sep : ascii -> bool) (s : string) : list string :=
  match s with
  | EmptyString => [EmptyString]
  | String c r =>
      if sep c then EmptyString :: splitOn sep r
      else match splitOn sep r with
           | w :: ws => String c w :: ws
           | [] => [String c EmptyString]
           end
  end.

Definition startsWith (p : ascii -> bool) (s : string) : bool :=
  match s with String c _ => p c | EmptyString => false end.

(** [s.split(/\s+/)]: a separator is a maximal run of white space; a
    leading or trailing run leaves an empty first or last piece. *)
Fixpoint splitSpaces (s : string) : list string :=
  match s with
  | EmptyString => [EmptyString]
  | String c r =>
      if isSpace c then
        if startsWith isSpace r then splitSpaces r
        else EmptyString :: splitSpaces r
      else match splitSpaces r with
           | w :: ws => String c w :: ws
           | [] => [String c EmptyString]
           end
  end.

(** [xs.filter(Boolean)] on strings: the empty string is falsy. *)
Definition filterTruthy (xs : list string) : list string :=
  List.filter (fun x => negb (isEmpty x)) xs.

(** The value of a run of decimal digits, most significant first. *)
Fixpoint digitsValue (acc : Z) (s : string) : Z :=
  match s with
  | EmptyString => acc
  | String c r => digitsValue (acc * 10 + Z.of_nat (code c - 48)) r
  end.

(** [parseInt(s, 10)] on a string: leading white space is skipped, one
    sign is accepted, then the longest run of digits is read; no digit
    gives [NaN].  The value is the integer the digits denote, which is
    the double of the code when it is below 2^53. *)
Definition parseIntString (s : string) : option Z :=
  let t := dropWhile isSpace s in
  let '(neg, u) :=
    match t with
    | String "-" r => (true, r)
    | String "+" r => (false, r)
    | _ => (false, t)
    end in
  let ds := takeWhile isDigit u in
  if isEmpty ds then None
  else Some (if neg then - digitsValue 0 ds else digitsValue 0 ds).

(** [parseInt(parts[k], 10)]: a missing element is [undefined], whose
    string form has no digit. *)
Definition parseInt (part : option string) : option Z :=
  match part with
  | Some s => parseIntString s
  | None => None
  end.

(** [String(n)] for a natural number. *)
Definition ofNat (n : nat) : string := pretty n.

End Js.

(** ** Interval utilities *)

Definition isTimeSep (c : ascii) : bool :=
  (Js.code c =? 58)%nat || (Js.code c =? 44)%nat.

(** [srtTimeToMs]: the fields are split on [:] and [,]; a field that does
    not parse makes the whole time 0. *)
Definition srtTimeToMs (time : string) : Z :=
  let parts := Js.splitOn isTimeSep time in
  match Js.parseInt (parts !! 0%nat), Js.parseInt (parts !! 1%nat),
        Js.parseInt (parts !! 2%nat), Js.parseInt (parts !! 3%nat) with
  | Some h, Some m, Some s, Some ms =>
      h * 3600000 + m * 60000 + s * 1000 + ms
  | _, _, _, _ => 0
  end.

(** [hasIntersection] *)
Definition hasIntersection (start1 end1 start2 end2 : string) : bool :=
  let start1Ms := srtTimeToMs start1 in
  let end1Ms := srtTimeToMs end1 in
  let start2Ms := srtTimeToMs start2 in
  let end2Ms := srtTimeToMs end2 in
  let intersectionStart := Z.max start1Ms start2Ms in
  let intersectionEnd := Z.min end1Ms end2Ms in
  500 <? intersectionEnd - intersectionStart.

(** ** Overlap merger *)

(** An element of [subtitlesWithMs].  [pos] is its position in the array,
    which the code uses as the key of [processed]. *)
Record SubMs : Type := mkSubMs {
  pos : nat;
  sub : Subtitle;
  startMs : Z;
  endMs : Z
}.

Definition withMs (subtitles : list Subtitle) : list SubMs :=
  imap (fun i s => mkSubMs i s (srtTimeToMs (start s)) (srtTimeToMs (end_ s)))
       subtitles.

(** The test of the merger:
    [(groupSub.startMs < other.endMs) && (other.startMs < groupSub.endMs)]. *)
Definition overlapsMs (groupSub other : SubMs) : bool :=
  (startMs groupSub <? endMs other) && (startMs other <? endMs groupSub).

(** One run of the inner [for] loop over [j]: [others] is the part of
    [subtitlesWithMs] still to visit. *)
Fixpoint scanPass (others : list SubMs) (overlappingGroup : list SubMs)
    (processed : gset nat) (foundNewOverlap : bool)
    : list SubMs * gset nat * bool :=
  match others with
  | [] => (overlappingGroup, processed, foundNewOverlap)
  | other :: rest =>
      if bool_decide (pos other ∈ processed)
      then scanPass rest overlappingGroup processed foundNewOverlap
      else if existsb (fun groupSub => overlapsMs groupSub other)
                      overlappingGroup
      then scanPass rest (overlappingGroup ++ [other])
                    ({[pos other]} ∪ processed) true
      else scanPass rest overlappingGroup processed foundNewOverlap
  end.

(** The [while (foundNewOverlap)] loop.  [fuel] bounds the number of
    passes; [None] means the bound was too small. *)
Fixpoint growGroup (fuel : nat) (subtitlesWithMs : list SubMs)
    (overlappingGroup : list SubMs) (processed : gset nat)
    : option (list SubMs * gset nat) :=
  match fuel with
  | O => None
  | S fuel' =>
      let '(group, processed', foundNewOverlap) :=
        scanPass subtitlesWithMs overlappingGroup processed false in
      if foundNewOverlap
      then growGroup fuel' subtitlesWithMs group processed'
      else Some (group, processed')
  end.

(** [overlappingGroup.sort((a, b) => a.startMs - b.startMs)]: the sort
    of an array is stable, so the result is the insertion sort that
    keeps equal keys in their order. *)
Fixpoint insertByStart (x : SubMs) (l : list SubMs) : list SubMs :=
  match l with
  | [] => [x]
  | y :: r => if startMs x <=? startMs y then x :: y :: r
              else y :: insertByStart x r
  end.

Fixpoint sortByStart (l : list SubMs) : list SubMs :=
  match l with
  | [] => []
  | x :: r => insertByStart x (sortByStart r)
  end.

Definition newline : string := String (ascii_of_nat 10) EmptyString.

(** The merged cue of a sorted group.  The group holds [current], which
    stands in for the first and last element of an empty array. *)
Definition mergedSubtitle (current : SubMs) (overlappingGroup : list SubMs)
    : Subtitle :=
  {| index := index (sub (List.hd current overlappingGroup));
     start := start (sub (List.hd current overlappingGroup));
     end_ := end_ (sub (List.last overlappingGroup current));
     text := Js.join newline (map (fun s => text (sub s)) overlappingGroup) |}.

(** State of the outer loop.  [groups] records the sorted
    [overlappingGroup] of every iteration that built one; the code does
    not keep it, the properties of the merger are stated on it. *)
Record MergeState : Type := mkMergeState {
  merged : list Subtitle;
  groups : list (list SubMs);
  processed : gset nat
}.

(** The outer [for] loop over [i]; [rest] is the part of
    [subtitlesWithMs] still to visit. *)
Fixpoint mergeLoop (subtitlesWithMs rest : list SubMs) (st : MergeState)
    : option MergeState :=
  match rest with
  | [] => Some st
  | current :: rest' =>
      if bool_decide (pos current ∈ processed st)
      then mergeLoop subtitlesWithMs rest' st
      else
        match growGroup (S (length subtitlesWithMs)) subtitlesWithMs
                        [current] ({[pos current]} ∪ processed st) with
        | None => None
        | Some (overlappingGroup, processed') =>
            let sorted := sortByStart overlappingGroup in
            mergeLoop subtitlesWithMs rest'
              {| merged := merged st ++ [mergedSubtitle current sorted];
                 groups := groups st ++ [sorted];
                 processed := processed' |}
        end
  end.

Definition mergeRun (subtitles : list Subtitle) : option MergeState :=
  mergeLoop (withMs subtitles) (withMs subtitles)
            {| merged := []; groups := []; processed := ∅ |}.

(** [mergeOverlappingSubtitles] *)
Definition mergeOverlappingSubtitles (subtitles : list Subtitle)
    : option (list Subtitle) :=
  if (length subtitles =? 0)%nat then Some subtitles
  else merged <$> mergeRun subtitles.

(** ** Vocabulary classifier *)

(** [str.replace(/<[^>]*>/g, '')]: a tag runs from [<] to the next [>];
    [pending] holds an opened tag, which stays in the text when no [>]
    follows. *)
Fixpoint stripTags (pending : string) (inTag : bool) (s : string) : string :=
  match s with
  | EmptyString => pending
  | String c r =>
      if inTag then
        if (Js.code c =? 62)%nat then stripTags EmptyString false r
        else stripTags (pending +:+ String c EmptyString) true r
      else if (Js.code c =? 60)%nat
      then stripTags (String c EmptyString) true r
      else String c (stripTags EmptyString false r)
  end.

Definition stripHtml (str : string) : string := stripTags EmptyString false str.

(** The class [[\p{L}\p{N}'-]] of the first-word pattern. *)
Definition isFirstWordChar (c : ascii) : bool :=
  Js.isLetter c || Js.isDigit c || (Js.code c =? 39)%nat
  || (Js.code c =? 45)%nat.

(** [cleanedWord] of [isProperNoun]: the word without tags and without
    its leading and trailing punctuation. *)
Definition cleanWord (word : string) : string :=
  Js.dropWhileEnd Js.isPunct (Js.dropWhile Js.isPunct (stripHtml word)).

(** The negation of the test
    [cleanedWord[0] !== cleanedWord[0].toUpperCase()
     || cleanedWord.toLowerCase() === cleanedWord], with the case
    conversions of ASCII letters. *)
Definition capitalized (cleanedWord : string) : bool :=
  match cleanedWord with
  | EmptyString => false
  | String c0 _ =>
      Ascii.eqb c0 (Js.upperChar c0)
      && negb (String.eqb (Js.toLowerCase cleanedWord) cleanedWord)
  end.

(** [firstWord] of [isProperNoun]. *)
Definition firstWordOf (sentence : string) : string :=
  Js.takeWhile isFirstWordChar (Js.trim sentence).

(** [isProperNoun] *)
Definition isProperNoun (word sentence : string) (frequencyList : gset string)
    : bool :=
  let cleanedWord := cleanWord word in
  if Js.isEmpty cleanedWord then false
  else if negb (capitalized cleanedWord) then false
  else
    let firstWord := firstWordOf sentence in
    if String.eqb cleanedWord firstWord then
      if bool_decide (Js.toLowerCase cleanedWord ∈ frequencyList)
      then false else true
    else true.

(** [ENGLISH_CONTRACTIONS], in the order of the source. *)
Definition ENGLISH_CONTRACTIONS : list (string * list string) :=
  [ ("you're", ["you"; "are"]); ("you'll", ["you"; "will"]);
    ("you've", ["you"; "have"]); ("you'd", ["you"; "would"]);
    ("I'm", ["I"; "am"]); ("I'll", ["I"; "will"]);
    ("I've", ["I"; "have"]); ("I'd", ["I"; "would"]);
    ("we're", ["we"; "are"]); ("we'll", ["we"; "will"]);
    ("we've", ["we"; "have"]); ("we'd", ["we"; "would"]);
    ("they're", ["they"; "are"]); ("they'll", ["they"; "will"]);
    ("they've", ["they"; "have"]); ("they'd", ["they"; "would"]);
    ("he's", ["he"; "is"]); ("he'll", ["he"; "will"]);
    ("he'd", ["he"; "would"]);
    ("she's", ["she"; "is"]); ("she'll", ["she"; "will"]);
    ("she'd", ["she"; "would"]);
    ("it's", ["it"; "is"]); ("it'll", ["it"; "will"]);
    ("it'd", ["it"; "would"]);
    ("don't", ["do"; "not"]); ("doesn't", ["does"; "not"]);
    ("didn't", ["did"; "not"]); ("can't", ["can"; "not"]);
    ("couldn't", ["could"; "not"]); ("won't", ["will"; "not"]);
    ("wouldn't", ["would"; "not"]); ("shouldn't", ["should"; "not"]);
    ("mustn't", ["must"; "not"]); ("haven't", ["have"; "not"]);
    ("hasn't", ["has"; "not"]); ("hadn't", ["had"; "not"]);
    ("isn't", ["is"; "not"]); ("aren't", ["are"; "not"]);
    ("wasn't", ["was"; "not"]); ("weren't", ["were"; "not"]);
    ("that's", ["that"; "is"]); ("that'll", ["that"; "will"]);
    ("that'd", ["that"; "would"]);
    ("there's", ["there"; "is"]); ("there'll", ["there"; "will"]);
    ("there'd", ["there"; "would"]);
    ("here's", ["here"; "is"]); ("here'll", ["here"; "will"]);
    ("here'd", ["here"; "would"]);
    ("who's", ["who"; "is"]); ("who'll", ["who"; "will"]);
    ("who'd", ["who"; "would"]);
    ("what's", ["what"; "is"]); ("what'll", ["what"; "will"]);
    ("what'd", ["what"; "would"]);
    ("where's", ["where"; "is"]); ("where'll", ["where"; "will"]);
    ("where'd", ["where"; "would"]);
    ("when's", ["when"; "is"]); ("when'll", ["when"; "will"]);
    ("when'd", ["when"; "would"]);
    ("why's", ["why"; "is"]); ("why'll", ["why"; "will"]);
    ("why'd", ["why"; "would"]);
    ("how's", ["how"; "is"]); ("how'll", ["how"; "will"]);
    ("how'd", ["how"; "would"]);
    ("let's", ["let"; "us"]); ("ma'am", ["madam"]);
    ("o'clock", ["of"; "the"; "clock"]); ("y'all", ["you"; "all"]);
    ("gonna", ["going"; "to"]); ("wanna", ["want"; "to"]);
    ("gotta", ["got"; "to"]); ("lemme", ["let"; "me"]);
    ("gimme", ["give"; "me"]); ("outta", ["out"; "of"]);
    ("kinda", ["kind"; "of"]); ("sorta", ["sort"; "of"]);
    ("lotta", ["lot"; "of"]); ("lotsa", ["lots"; "of"]);
    ("cuppa", ["cup"; "of"]); ("ain't", ["am"; "not"]) ].

(** The names every object literal inherits from [Object.prototype]:
    reading one of them on [ENGLISH_CONTRACTIONS] yields a function (or,
    for [__proto__], the prototype object), which is truthy and is not an
    array. *)
Definition OBJECT_PROTOTYPE_NAMES : list string :=
  [ "constructor"; "hasOwnProperty"; "isPrototypeOf";
    "propertyIsEnumerable"; "toLocaleString"; "toString"; "valueOf";
    "__defineGetter__"; "__defineSetter__"; "__lookupGetter__";
    "__lookupSetter__"; "__proto__" ].

(** The value of a property read [ENGLISH_CONTRACTIONS[key]], and of
    [getContractionExpansion]. *)
Inductive Expansion : Type :=
  | Words (ws : list string)   (* an array of the table *)
  | NotAnArray                 (* an inherited member *)
  | Missing.                   (* undefined, or null *)

Fixpoint ownEntry (key : string) (table : list (string * list string))
    : option (list string) :=
  match table with
  | [] => None
  | (k, v) :: r => if String.eqb k key then Some v else ownEntry key r
  end.

Definition readContraction (key : string) : Expansion :=
  match ownEntry key ENGLISH_CONTRACTIONS with
  | Some v => Words v
  | None => if existsb (String.eqb key) OBJECT_PROTOTYPE_NAMES
            then NotAnArray else Missing
  end.

(** [w.charAt(0).toUpperCase() + w.slice(1)] *)
Definition capitalizeFirst (w : string) : string :=
  match w with
  | EmptyString => EmptyString
  | String c r => String (Js.upperChar c) r
  end.

(** [word[0] === word[0].toUpperCase()], for a word that is not empty. *)
Definition firstIsUpper (word : string) : bool :=
  match word with
  | EmptyString => true
  | String c _ => Ascii.eqb c (Js.upperChar c)
  end.

(** [getContractionExpansion].  [None]: the call [expansion.map] on an
    inherited member throws. *)
Definition getContractionExpansion (word : string) : option Expansion :=
  let wordLower := Js.toLowerCase word in
  match readContraction wordLower with
  | Words expansion =>
      if firstIsUpper word
      then Some (Words (imap (fun i w => if (i =? 0)%nat
                                         then capitalizeFirst w else w)
                             expansion))
      else Some (Words expansion)
  | NotAnArray =>
      if firstIsUpper word then None else Some NotAnArray
  | Missing => Some Missing
  end.

Definition has (knownWords : gset string) (w : string) : bool :=
  bool_decide (w ∈ knownWords).

(** [isWordKnown].  [None]: the call [expansion.every] on an inherited
    member throws, or [getContractionExpansion] threw. *)
Definition isWordKnown (word : string) (knownWords : gset string)
    (language : string) : option bool :=
  let wordLower := Js.toLowerCase word in
  if has knownWords wordLower then Some true
  else if String.eqb language "en" then
    match getContractionExpansion word with
    | None => None
    | Some (Words expansion) =>
        Some (forallb (fun expandedWord =>
                         has knownWords (Js.toLowerCase expandedWord))
                      expansion)
    | Some NotAnArray => None
    | Some Missing => Some false
    end
  else Some false.

(** ** Inline translation service ([src/inline-translation.ts]) *)

(** [InlineTranslationResult] *)
Record InlineTranslationResult : Type := mkResult {
  resultText : string;
  translationApplied : bool;
  error : option string
}.

(** The translation collaborator: the outcome of the one call
    [deeplAPI.translateWithContext(word, sourceLang, targetLang,
    contextLines)] made while target cue number [i] is processed, for the
    two languages of the run.  [inl] is the translation, [inr] the message
    of the error thrown. *)
Definition DeepLAPI : Type := nat -> string -> list string -> string + string.

Definition wordCharAt (c : option ascii) : bool :=
  match c with Some c => Js.isWordChar c | None => false end.

(** [\b] between two neighbouring characters. *)
Definition isBoundary (prev next : option ascii) : bool :=
  xorb (wordCharAt prev) (wordCharAt next).

Definition headChar (s : string) : option ascii :=
  match s with String c _ => Some c | EmptyString => None end.

Fixpoint lastChar (prev : option ascii) (s : string) : option ascii :=
  match s with
  | EmptyString => prev
  | String c r => lastChar (Some c) r
  end.

(** The literal [w] at the start of [s], compared without case (the
    case of ASCII letters): the matched text and what follows it. *)
Fixpoint matchPrefix (w s : string) : option (string * string) :=
  match w, s with
  | EmptyString, _ => Some (EmptyString, s)
  | String _ _, EmptyString => None
  | String a w', String b s' =>
      if Ascii.eqb (Js.upperChar a) (Js.upperChar b) then
        match matchPrefix w' s' with
        | Some (m, r) => Some (String b m, r)
        | None => None
        end
      else None
  end.

Definition matchHere (w : string) (prev : option ascii) (s : string)
    : option (string * string) :=
  if isBoundary prev (headChar s) then
    match matchPrefix w s with
    | Some (m, r) =>
        if isBoundary (lastChar prev m) (headChar r) then Some (m, r)
        else None
    | None => None
    end
  else None.

(** [wordRegex.exec(originalText)] for the pattern [\b<word>\b] with the
    flags [gi]: the text before the first match, the match, the text
    after it. *)
Fixpoint findWord (w : string) (prev : option ascii) (s : string)
    : option (string * string * string) :=
  match matchHere w prev s with
  | Some (m, r) => Some (EmptyString, m, r)
  | None =>
      match s with
      | EmptyString => None
      | String c r =>
          match findWord w (Some c) r with
          | Some (b, m, a) => Some (String c b, m, a)
          | None => None
          end
      end
  end.

(** [formatInlineTranslation] *)
Definition formatInlineTranslation (originalText unknownWord translation
    : string) : string :=
  match findWord unknownWord None originalText with
  | None => originalText
  | Some (before, matched, after) =>
      before +:+ matched +:+ " (" +:+ translation +:+ ")" +:+ after
  end.

(** [subtitles.findIndex(sub => sub.index === idx)] *)
Fixpoint findIndex (idx : string) (subtitles : list Subtitle) (k : Z) : Z :=
  match subtitles with
  | [] => -1
  | s :: r => if String.eqb (index s) idx then k else findIndex idx r (k + 1)
  end.

(** [arr.slice(from, to)]: a negative bound counts from the end of the
    array, and both bounds are clamped to the array. *)
Definition slice {A} (l : list A) (from to : Z) : list A :=
  let len := Z.of_nat (length l) in
  let k := if from <? 0 then Z.max (len + from) 0 else Z.min from len in
  let final := if to <? 0 then Z.max (len + to) 0 else Z.min to len in
  take (Z.to_nat (final - k)) (drop (Z.to_nat k) l).

(** [getContextLines] *)
Definition getContextLines (subtitles : list Subtitle) (currentIndex : Z)
    (windowSize : Z) : list string :=
  let start := Z.max 0 (currentIndex - windowSize) in
  let end' := Z.min (Z.of_nat (length subtitles))
                    (currentIndex + windowSize + 1) in
  Js.filterTruthy (map text (slice subtitles start end')).

(** [/^\d+$/.test(word)] *)
Definition isNumber (word : string) : bool :=
  negb (Js.isEmpty word) && Js.allChars Js.isDigit word.

(** [processSubtitleWithInlineTranslation], called while target cue
    number [i] is processed, with a context window of 2. *)
Definition processSubtitleWithInlineTranslation (deeplAPI : DeepLAPI)
    (i : nat) (subtitle : Subtitle) (subtitles : list Subtitle)
    (unknownWords : list string) (knownWords : gset string)
    : InlineTranslationResult :=
  match unknownWords with
  | [unknownWord] =>
      if isProperNoun unknownWord (text subtitle) knownWords
         || isNumber unknownWord
      then mkResult (text subtitle) false None
      else
        let subtitleIndex := findIndex (index subtitle) subtitles 0 in
        let contextLines := getContextLines subtitles subtitleIndex 2 in
        match deeplAPI i unknownWord contextLines with
        | inl translation =>
            mkResult (formatInlineTranslation (text subtitle) unknownWord
                                              translation)
                     true None
        | inr message => mkResult (text subtitle) false (Some message)
        end
  | _ => mkResult (text subtitle) false None
  end.

(** ** Fusion engine *)

Definition isWordOrSpace (c : ascii) : bool :=
  Js.isLetter c || Js.isDigit c || Js.isSpace c || (Js.code c =? 39)%nat.

Fixpoint mapChars (f : ascii -> ascii) (s : string) : string :=
  match s with
  | EmptyString => EmptyString
  | String c r => String (f c) (mapChars f r)
  end.

(** [normalizeWords], with the classes and the lower case of ASCII. *)
Definition normalizeWords (txt : string) : list string :=
  Js.filterTruthy
    (Js.splitSpaces
       (Js.toLowerCase
          (mapChars (fun c => if isWordOrSpace c then c else " "%char) txt))).

(** The lemmatizer process: for a language and the text written to it,
    what it printed, or [None] when it could not be started or wrote to
    its error stream. *)
Definition Lemmatizer : Type := string -> string -> option string.

(** [lemmatizeSingleLine] *)
Definition lemmatizeSingleLine (lemmatizer : Lemmatizer) (line lang : string)
    : list string :=
  match lemmatizer lang line with
  | None => []
  | Some stdout => Js.filterTruthy (Js.splitSpaces (Js.trim stdout))
  end.

(** The state of the loop of [fuseSubtitles]; [debugShown] only drives
    the console output and is left out. *)
Record FuseState : Type := mkFuseState {
  finalSubtitles : list Subtitle;
  processedTargetIndices : gset string;
  replacedCount : nat;
  replacedWithOneUnknown : nat;
  inlineTranslationCount : nat;
  errorCount : nat;
  translatedWords : gmap string nat
}.

Definition initialState : FuseState :=
  mkFuseState [] ∅ 0 0 0 0 ∅.

(** [finalSubtitles.push(s)] *)
Definition push (s : Subtitle) (st : FuseState) : FuseState :=
  mkFuseState (finalSubtitles st ++ [s]) (processedTargetIndices st)
    (replacedCount st) (replacedWithOneUnknown st)
    (inlineTranslationCount st) (errorCount st) (translatedWords st).

(** [processedTargetIndices.add(idx)] *)
Definition markProcessed (idx : string) (st : FuseState) : FuseState :=
  mkFuseState (finalSubtitles st) ({[idx]} ∪ processedTargetIndices st)
    (replacedCount st) (replacedWithOneUnknown st)
    (inlineTranslationCount st) (errorCount st) (translatedWords st).

(** [subs.forEach(sub => processedTargetIndices.add(sub.index))] *)
Definition markAllProcessed (subs : list Subtitle) (st : FuseState)
    : FuseState :=
  mkFuseState (finalSubtitles st)
    (list_to_set (map index subs) ∪ processedTargetIndices st)
    (replacedCount st) (replacedWithOneUnknown st)
    (inlineTranslationCount st) (errorCount st) (translatedWords st).

Definition addReplaced (n one : nat) (st : FuseState) : FuseState :=
  mkFuseState (finalSubtitles st) (processedTargetIndices st)
    (replacedCount st + n) (replacedWithOneUnknown st + one)
    (inlineTranslationCount st) (errorCount st) (translatedWords st).

Definition addError (st : FuseState) : FuseState :=
  mkFuseState (finalSubtitles st) (processedTargetIndices st)
    (replacedCount st) (replacedWithOneUnknown st)
    (inlineTranslationCount st) (errorCount st + 1) (translatedWords st).

(** [inlineTranslationCount++] and
    [translatedWords.set(w, (translatedWords.get(w) || 0) + 1)] *)
Definition addTranslated (w : string) (st : FuseState) : FuseState :=
  mkFuseState (finalSubtitles st) (processedTargetIndices st)
    (replacedCount st) (replacedWithOneUnknown st)
    (inlineTranslationCount st + 1) (errorCount st)
    (<[w := (default 0%nat (translatedWords st !! w) + 1)%nat]>
       (translatedWords st)).

(** The cue is emitted as it is and marked processed. *)
Definition keep (currentTargetSub : Subtitle) (st : FuseState) : FuseState :=
  markProcessed (index currentTargetSub) (push currentTargetSub st).

(** The callback of [lemmatizedWords.filter], applied from position [j]
    on.  [None]: [isWordKnown] threw. *)
Fixpoint unknownWordsFrom (knownWords : gset string) (language : string)
    (sentence : string) (originalWords : list string) (j : nat)
    (lemmatizedWords : list string) : option (list string) :=
  match lemmatizedWords with
  | [] => Some []
  | word :: rest =>
      let origWord :=
        match originalWords !! j with
        | Some w => if Js.isEmpty w then word else w
        | None => word
        end in
      match isWordKnown word knownWords language with
      | None => None
      | Some isKnown =>
          let isProper := isProperNoun origWord sentence knownWords in
          match unknownWordsFrom knownWords language sentence originalWords
                                 (S j) rest with
          | None => None
          | Some unknownRest =>
              Some (if negb isKnown && negb isProper && negb (isNumber word)
                    then word :: unknownRest else unknownRest)
          end
      end
  end.

(** [nativeSubs.filter(nativeSub => hasIntersection(currentTargetSub.start,
    currentTargetSub.end, nativeSub.start, nativeSub.end))] *)
Definition intersectingNativeSubs (nativeSubs : list Subtitle)
    (currentTargetSub : Subtitle) : list Subtitle :=
  List.filter (fun nativeSub =>
                 hasIntersection (start currentTargetSub)
                   (end_ currentTargetSub) (start nativeSub) (end_ nativeSub))
              nativeSubs.

(** [combinedNativeSub], for the overlapping native cues [first :: more]:
    its text, start and end. *)
Definition combinedNativeSub (first : Subtitle) (more : list Subtitle)
    : string * string * string :=
  (Js.join newline (map text (first :: more)),
   start first,
   end_ (List.last more first)).

(** [targetSubs.filter(sub => !processedTargetIndices.has(sub.index) &&
    hasIntersection(combinedNativeSub.start, combinedNativeSub.end,
    sub.start, sub.end))] *)
Definition overlappingTargetSubs (targetSubs : list Subtitle)
    (processedIndices : gset string) (combinedStart combinedEnd : string)
    : list Subtitle :=
  List.filter (fun sub =>
                 negb (has processedIndices (index sub))
                 && hasIntersection combinedStart combinedEnd
                                    (start sub) (end_ sub))
              targetSubs.

Section Fusion.

Variable lemmatizer : Lemmatizer.
Variables targetSubs nativeSubs : list Subtitle.
Variable knownWords : gset string.
Variable language : string.
(** [inlineTranslationService]: present when inline translation is
    enabled and a DeepL handle is given. *)
Variable inlineTranslationService : option DeepLAPI.

(** [unknownWords] of the iteration on [currentTargetSub]. *)
Definition unknownWordsOf (currentTargetSub : Subtitle)
    : option (list string) :=
  let currentLine :=
    Js.join " " (normalizeWords (stripHtml (text currentTargetSub))) in
  let lemmatizedWords := lemmatizeSingleLine lemmatizer currentLine language in
  let originalWords := Js.splitSpaces (stripHtml (text currentTargetSub)) in
  unknownWordsFrom knownWords language (text currentTargetSub) originalWords
                   0 lemmatizedWords.

(** The replacement of the single cue after a failed translation; the
    caller marks the cue processed. *)
Definition singleCueFallback (currentTargetSub : Subtitle) (st : FuseState)
    : FuseState :=
  match intersectingNativeSubs nativeSubs currentTargetSub with
  | first :: more =>
      let '(combinedText, _, _) := combinedNativeSub first more in
      addReplaced 1 1
        (push {| index := EmptyString;
                 start := start currentTargetSub;
                 end_ := end_ currentTargetSub;
                 text := combinedText |} st)
  | [] => push currentTargetSub st
  end.

(** The branch [unknownWords.length === 1 && inlineTranslationService].
    The service returns a result in every case, so the [catch] of the
    source is never entered. *)
Definition inlineTranslation (deeplAPI : DeepLAPI) (i : nat)
    (currentTargetSub : Subtitle) (unknownWord : string) (st : FuseState)
    : FuseState :=
  let result :=
    processSubtitleWithInlineTranslation deeplAPI i currentTargetSub
      targetSubs [unknownWord] knownWords in
  let st' :=
    if translationApplied result then
      push {| index := index currentTargetSub;
              start := start currentTargetSub;
              end_ := end_ currentTargetSub;
              text := resultText result |}
           (addTranslated unknownWord st)
    else
      match error result with
      | Some message =>
          if Js.isEmpty message then push currentTargetSub st
          else singleCueFallback currentTargetSub (addError st)
      | None => push currentTargetSub st
      end in
  markProcessed (index currentTargetSub) st'.

(** The rest of the loop body: replacement by the native cues. *)
Definition multiCueReplace (currentTargetSub : Subtitle) (st : FuseState)
    : FuseState :=
  match intersectingNativeSubs nativeSubs currentTargetSub with
  | [] => keep currentTargetSub st
  | first :: more =>
      let '(combinedText, combinedStart, combinedEnd) :=
        combinedNativeSub first more in
      match overlappingTargetSubs targetSubs (processedTargetIndices st)
                                  combinedStart combinedEnd with
      | [] => keep currentTargetSub st
      | firstTarget :: moreTargets =>
          let replacementSub :=
            {| index := EmptyString;
               start := start firstTarget;
               end_ := end_ (List.last moreTargets firstTarget);
               text := combinedText |} in
          markAllProcessed (firstTarget :: moreTargets)
            (addReplaced (length (firstTarget :: moreTargets)) 0
               (push replacementSub st))
      end
  end.

(** The body of the [for] loop for [targetSubs[i]].  [None]: the
    iteration threw. *)
Definition fuseStep (i : nat) (currentTargetSub : Subtitle) (st : FuseState)
    : option FuseState :=
  if has (processedTargetIndices st) (index currentTargetSub) then Some st
  else
    match unknownWordsOf currentTargetSub with
    | None => None
    | Some [] => Some (keep currentTargetSub st)
    | Some [unknownWord] =>
        match inlineTranslationService with
        | Some deeplAPI =>
            Some (inlineTranslation deeplAPI i currentTargetSub unknownWord st)
        | None => Some (multiCueReplace currentTargetSub st)
        end
    | Some _ => Some (multiCueReplace currentTargetSub st)
    end.

(** The [for] loop from position [i] on. *)
Fixpoint fuseLoop (i : nat) (rest : list Subtitle) (st : FuseState)
    : option FuseState :=
  match rest with
  | [] => Some st
  | currentTargetSub :: rest' =>
      match fuseStep i currentTargetSub st with
      | None => None
      | Some st' => fuseLoop (S i) rest' st'
      end
  end.

End Fusion.

(** The value [fuseSubtitles] resolves to. *)
Record FuseResult : Type := mkFuseResult {
  hybrid : list Subtitle;
  resReplacedCount : nat;
  resReplacedWithOneUnknown : nat;
  resInlineTranslationCount : nat;
  resErrorCount : nat;
  resTranslatedWords : gmap string nat
}.

(** [finalSubtitles.map((s, i) => ({ ...s, index: String(i + 1) }))] *)
Definition reIndex (subs : list Subtitle) : list Subtitle :=
  imap (fun i s => {| index := Js.ofNat (i + 1); start := start s;
                      end_ := end_ s; text := text s |}) subs.

(** [fuseSubtitles].  [None]: the promise is rejected.  The argument
    [nativeLang] only selects the language the collaborator translates
    to. *)
Definition fuseSubtitles (lemmatizer : Lemmatizer)
    (targetSubs nativeSubs : list Subtitle) (knownWords : gset string)
    (language : string) (enableInlineTranslation : bool)
    (deeplAPI : option DeepLAPI) : option FuseResult :=
  let inlineTranslationService :=
    if enableInlineTranslation then deeplAPI else None in
  match fuseLoop lemmatizer targetSubs nativeSubs knownWords language
                 inlineTranslationService 0 targetSubs initialState with
  | None => None
  | Some st =>
      Some {| hybrid := reIndex (finalSubtitles st);
              resReplacedCount := replacedCount st;
              resReplacedWithOneUnknown := replacedWithOneUnknown st;
              resInlineTranslationCount := inlineTranslationCount st;
              resErrorCount := errorCount st;
              resTranslatedWords := translatedWords st |}
  end.

(** ** SRT files *)

Definition isCR (c : ascii) : bool := (Js.code c =? 13)%nat.
Definition isLF (c : ascii) : bool := (Js.code c =? 10)%nat.

(** The length of the match of [/\r?\n/] at the start of [s]. *)
Definition lineBreakAt (s : string) : option nat :=
  match s with
  | String c r =>
      if isLF c then Some 1%nat
      else if isCR c then
        match r with
        | String c2 _ => if isLF c2 then Some 2%nat else None
        | EmptyString => None
        end
      else None
  | EmptyString => None
  end.

Fixpoint dropChars (n : nat) (s : string) : string :=
  match n, s with
  | S k, String _ r => dropChars k r
  | _, _ => s
  end.

(** The length of the match of [/\r?\n\r?\n/] at the start of [s]. *)
Definition blankLineAt (s : string) : option nat :=
  match lineBreakAt s with
  | Some n =>
      match lineBreakAt (dropChars n s) with
      | Some m => Some (n + m)%nat
      | None => None
      end
  | None => None
  end.

(** The length of the separator [sep], when [s] starts with it. *)
Definition literalAt (sep s : string) : option nat :=
  if String.prefix sep s then Some (String.length sep) else None.

(** [s.split(separator)]: the text is cut at every match of the
    separator, found from left to right; [matchAt] gives the length of
    the match at the start of a text and [skip] counts the characters of
    a match still to pass. *)
Fixpoint splitBy (matchAt : string -> option nat) (skip : nat) (s : string)
    : list string :=
  match s with
  | EmptyString => [EmptyString]
  | String c r =>
      match skip with
      | S k => splitBy matchAt k r
      | O =>
          match matchAt s with
          | Some (S k) => EmptyString :: splitBy matchAt k r
          | _ =>
              match splitBy matchAt 0 r with
              | w :: ws => String c w :: ws
              | [] => [String c EmptyString]
              end
          end
      end
  end.

(** The object built from a block by [parseSRT], before the filter:
    [start] and [end] are missing when the block has one line, [end] is
    missing when the second line has no arrow. *)
Definition parseBlock (block : string)
    : string * option string * option string * string :=
  let lines := splitBy lineBreakAt 0 block in
  let times :=
    match lines !! 1%nat with
    | Some line => splitBy (literalAt " --> ") 0 line
    | None => []
    end in
  (List.hd EmptyString lines, times !! 0%nat, times !! 1%nat,
   Js.join newline (drop 2 lines)).

(** [parseSRT]: the blocks with an index, a start and an end that are
    not empty. *)
Definition parseSRT (srt : string) : list Subtitle :=
  flat_map
    (fun block =>
       match parseBlock block with
       | (idx, Some from, Some to, txt) =>
           if negb (Js.isEmpty idx) && negb (Js.isEmpty from)
              && negb (Js.isEmpty to)
           then [mkSubtitle idx from to txt] else []
       | _ => []
       end)
    (splitBy blankLineAt 0 srt).

(** [generateSRT] *)
Definition generateSRT (subs : list Subtitle) : string :=
  Js.join newline
    (map (fun s => index s +:+ newline +:+ start s +:+ " --> " +:+ end_ s
                   +:+ newline +:+ text s +:+ newline)
         subs).

(** [mergeOverlappingSubtitlesInSRT] *)
Definition mergeOverlappingSubtitlesInSRT (srtContent : string)
    : option string :=
  generateSRT <$> mergeOverlappingSubtitles (parseSRT srtContent).

(** ** Vocabulary of the properties *)

Open Scope list_scope.

(** A lemmatizer that echoes its input: every word is its own lemma. *)
Definition echoLemmatizer : Lemmatizer := fun _ line => Some line.

(** A cue, for the examples. *)
Definition cue (idx from to txt : string) : Subtitle :=
  {| index := idx; start := from; end_ := to; text := txt |}.

(** The test [overlappingGroup.some(...)] of the inner loop. *)
Definition overlapsAny (group : list SubMs) (other : SubMs) : bool :=
  existsb (fun groupSub => overlapsMs groupSub other) group.

(** The positions of a list of cues, as a set. *)
Definition positions (all : list SubMs) : gset nat :=
  list_to_set (map pos all).

(** Two cues of the track that the test of the merger links. *)
Definition linked (all : list SubMs) (a b : SubMs) : Prop :=
  a ∈ all /\ b ∈ all /\ overlapsMs a b = true.

(** The invariant of the outer loop of the merger, after the cues [done]
    of the track [all]: the processed positions are those of the members
    of the groups and cover [done]; the groups hold cues of the track,
    each once; a group is closed and connected under the test of the
    merger; its first member starts the earliest; the merged cues are
    those of the groups. *)
Record MergeInv (all done : list SubMs) (st : MergeState) : Prop := {
  inv_processed : processed st = positions (concat (groups st));
  inv_done : forall x, x ∈ done -> pos x ∈ processed st;
  inv_members : forall x, x ∈ concat (groups st) -> x ∈ all;
  inv_nodup : NoDup (map pos (concat (groups st)));
  inv_closed : forall g x y, g ∈ groups st -> x ∈ g -> y ∈ all ->
                             overlapsMs x y = true -> y ∈ g;
  inv_connected : forall g x y, g ∈ groups st -> x ∈ g -> y ∈ g ->
                                rtc (linked all) x y;
  inv_sorted : forall g, g ∈ groups st ->
                 g <> [] /\
                 forall c x, x ∈ g -> startMs (List.hd c g) <= startMs x;
  inv_merged : Forall2 (fun m g => forall c, m = mergedSubtitle c g)
                       (merged st) (groups st)
}.

(** Positions name the cues of the track. *)
Definition positioned (all : list SubMs) : Prop :=
  forall i x, all !! i = Some x -> pos x = i.

(** The invariant of the growth of the group of [cur]. *)
Definition GroupInv (all : list SubMs) (st : MergeState) (cur : SubMs)
    (g : list SubMs) (p : gset nat) : Prop :=
  p = positions g ∪ processed st /\
  NoDup (map pos g) /\
  cur ∈ g /\
  forall x, x ∈ g ->
            x ∈ all /\ pos x ∉ processed st /\ rtc (linked all) cur x.

(** The cues at positions [i] and [j] of a track share a positive
    duration: the test of the merger, on the times of the cues. *)
Definition overlapAt (subtitles : list Subtitle) (i j : nat) : Prop :=
  exists a b, subtitles !! i = Some a /\ subtitles !! j = Some b /\
              srtTimeToMs (start a) < srtTimeToMs (end_ b) /\
              srtTimeToMs (start b) < srtTimeToMs (end_ a).

(** The cues at positions [i] and [j] satisfy [hasIntersection]: they
    share more than 500 ms. *)
Definition thresholdOverlapAt (subtitles : list Subtitle) (i j : nat) : Prop :=
  exists a b, subtitles !! i = Some a /\ subtitles !! j = Some b /\
              hasIntersection (start a) (end_ a) (start b) (end_ b) = true.

(** The cues at positions [i] and [j] are members of one group. *)
Definition sameGroup (gs : list (list SubMs)) (i j : nat) : Prop :=
  exists g, g ∈ gs /\ i ∈ map pos g /\ j ∈ map pos g.

(** *** Vocabulary of the further properties *)

Definition isNumeral (s : string) : Prop :=
  s <> EmptyString /\ Js.allChars Js.isDigit s = true.

(** The states an iteration can reach from [st], on a cue [cur] that is
    not processed: the cue is kept; its unknown word is translated in
    place; the translation failed and the cue is kept; the translation
    failed and the cue alone is replaced; a group of target cues is
    replaced. *)
Inductive Outcome (targetSubs nativeSubs : list Subtitle)
    (service : option DeepLAPI) (cur : Subtitle) (st : FuseState)
    : FuseState -> Prop :=
  | Kept : Outcome targetSubs nativeSubs service cur st (keep cur st)
  | Translated w t :
      is_Some service ->
      Outcome targetSubs nativeSubs service cur st
        (markProcessed (index cur)
           (push {| index := index cur; start := start cur;
                    end_ := end_ cur; text := t |}
                 (addTranslated w st)))
  | FailedKept :
      is_Some service ->
      Outcome targetSubs nativeSubs service cur st
        (markProcessed (index cur) (push cur (addError st)))
  | FailedReplaced first more :
      is_Some service ->
      intersectingNativeSubs nativeSubs cur = first :: more ->
      Outcome targetSubs nativeSubs service cur st
        (markProcessed (index cur)
           (addReplaced 1 1
              (push {| index := EmptyString; start := start cur;
                       end_ := end_ cur;
                       text := Js.join newline (map text (first :: more)) |}
                    (addError st))))
  | Replaced first more firstTarget moreTargets :
      intersectingNativeSubs nativeSubs cur = first :: more ->
      overlappingTargetSubs targetSubs (processedTargetIndices st)
        (start first) (end_ (List.last more first))
        = firstTarget :: moreTargets ->
      cur ∈ firstTarget :: moreTargets ->
      Outcome targetSubs nativeSubs service cur st
        (markAllProcessed (firstTarget :: moreTargets)
           (addReplaced (length (firstTarget :: moreTargets)) 0
              (push {| index := EmptyString; start := start firstTarget;
                       end_ := end_ (List.last moreTargets firstTarget);
                       text := Js.join newline (map text (first :: more)) |}
                    st))).

(** The number of target cues whose index string is processed. *)
Definition processedCount (targetSubs : list Subtitle) (st : FuseState)
    : nat :=
  length (List.filter (fun c => has (processedTargetIndices st) (index c))
                      targetSubs).

Definition CounterInv (targetSubs : list Subtitle) (st : FuseState) : Prop :=
  (replacedWithOneUnknown st <= replacedCount st)%nat /\
  (replacedWithOneUnknown st <= errorCount st)%nat /\
  (replacedCount st + inlineTranslationCount st
   <= processedCount targetSubs st)%nat /\
  (size (translatedWords st) <= inlineTranslationCount st)%nat.

(** The characters on which the character classes and the case
    conversions of the embedding are those of the code. *)
Definition isAscii (c : ascii) : bool := (Js.code c <? 128)%nat.

(** The characters of a normalized word of an ASCII text: a lower-case
    letter, a digit or an apostrophe. *)
Definition isNormalChar (c : ascii) : bool :=
  Js.isLower c || Js.isDigit c || (Js.code c =? 39)%nat.

Definition isLt (c : ascii) : bool := (Js.code c =? 60)%nat.
Definition isGt (c : ascii) : bool := (Js.code c =? 62)%nat.

Definition LF : ascii := ascii_of_nat 10.

(** A text without carriage return that has no empty line and does not
    end with a line feed. *)
Fixpoint noBlankLine (s : string) : bool :=
  match s with
  | EmptyString => true
  | String c r =>
      negb (isCR c)
      && (if isLF c
          then match r with
               | String c2 _ => negb (isLF c2)
               | EmptyString => false
               end
          else true)
      && noBlankLine r
  end.

Definition isPlain (c : ascii) : bool := negb (isCR c) && negb (isLF c).

(** A cue that [generateSRT] writes in a form that [parseSRT] reads
    back: the index is one line and is not empty; the times are not empty
    and hold no white space; the text is not empty, holds no carriage
    return and no empty line, and neither starts nor ends with a line
    feed. *)
Definition writable (s : Subtitle) : Prop :=
  index s <> EmptyString /\ Js.allChars isPlain (index s) = true /\
  start s <> EmptyString /\
  Js.allChars (fun c => negb (Js.isSpace c)) (start s) = true /\
  end_ s <> EmptyString /\
  Js.allChars (fun c => negb (Js.isSpace c)) (end_ s) = true /\
  text s <> EmptyString /\ Js.startsWith isLF (text s) = false /\
  noBlankLine (text s) = true.

(** What [parseSRT] reads back from the output of [generateSRT]: the
    text of the last cue has one more line feed. *)
Fixpoint reparsed (subs : list Subtitle) : list Subtitle :=
  match subs with
  | [] => []
  | [s] => [mkSubtitle (index s) (start s) (end_ s) (text s +:+ newline)]
  | s :: r => s :: reparsed r
  end.

(** The lines of a cue, as [generateSRT] writes them, without the final
    line feed. *)
Definition body (s : Subtitle) : string :=
  index s +:+ String LF (start s +:+ " --> " +:+ end_ s
                         +:+ String LF (text s)).

(** What [parseBlock] makes of a block once its first two lines are
    known. *)
Definition parseBlock_of (idx times : string) (rest : list string)
    : string * option string * option string * string :=
  (idx, splitBy (literalAt " --> ") 0 times !! 0%nat,
   splitBy (literalAt " --> ") 0 times !! 1%nat, Js.join newline rest).

(** * Properties *)

Example srtTimeToMs_sample : srtTimeToMs "01:02:03,004" = 3723004.
Proof. reflexivity. Qed.

Example srtTimeToMs_malformed : srtTimeToMs "00:xx:03,004" = 0.
Proof. reflexivity. Qed.

Example srtTimeToMs_short : srtTimeToMs "00:00:03" = 0.
Proof. reflexivity. Qed.

(** ** The overlap predicate *)

(** C5. [hasIntersection] holds exactly when the shared duration
    [min(aEnd, bEnd) - max(aStart, bStart)] of the two intervals, in
    milliseconds, is strictly greater than 500; the intervals
    (0, 1000) and (999, 2000) share 1 ms and do not intersect, the
    intervals (0, 1000) and (400, 1600) share 600 ms and do. *)
Theorem hasIntersection_threshold :
  (forall aStart aEnd bStart bEnd : string,
      hasIntersection aStart aEnd bStart bEnd = true <->
      Z.min (srtTimeToMs aEnd) (srtTimeToMs bEnd)
        - Z.max (srtTimeToMs aStart) (srtTimeToMs bStart) > 500)
  /\ srtTimeToMs "00:00:00,000" = 0
  /\ srtTimeToMs "00:00:01,000" = 1000
  /\ srtTimeToMs "00:00:00,999" = 999
  /\ srtTimeToMs "00:00:02,000" = 2000
  /\ srtTimeToMs "00:00:00,400" = 400
  /\ srtTimeToMs "00:00:01,600" = 1600
  /\ hasIntersection "00:00:00,000" "00:00:01,000"
                     "00:00:00,999" "00:00:02,000" = false
  /\ hasIntersection "00:00:00,000" "00:00:01,000"
                     "00:00:00,400" "00:00:01,600" = true.
Proof.
  split; [| repeat split; reflexivity].
  intros aStart aEnd bStart bEnd. unfold hasIntersection.
  rewrite Z.ltb_lt. lia.
Qed.

(** ** The overlap merger: loop invariants *)

Lemma overlapsMs_sym a b : overlapsMs a b = overlapsMs b a.
Proof. unfold overlapsMs. apply andb_comm. Qed.

Lemma overlapsMs_true a b :
  overlapsMs a b = true <-> startMs a < endMs b /\ startMs b < endMs a.
Proof. unfold overlapsMs. rewrite andb_true_iff, !Z.ltb_lt. tauto. Qed.

Lemma overlapsAny_true group other :
  overlapsAny group other = true <->
  exists x, x ∈ group /\ overlapsMs x other = true.
Proof.
  unfold overlapsAny. rewrite existsb_exists.
  split; intros (x & Hx & Ho); exists x; split; auto;
    by apply list_elem_of_In.
Qed.

Lemma overlapsAny_false group other :
  overlapsAny group other = false <->
  forall x, x ∈ group -> overlapsMs x other = false.
Proof.
  split.
  - intros H x Hx. destruct (overlapsMs x other) eqn:E; [|done].
    assert (overlapsAny group other = true) by (apply overlapsAny_true; eauto).
    congruence.
  - intros H. destruct (overlapsAny group other) eqn:E; [|done].
    apply overlapsAny_true in E as (x & Hx & Ho). rewrite H in Ho; done.
Qed.

(** A property of the group and of the processed set that every addition
    of the inner loop preserves holds after the pass. *)
Lemma scanPass_inv (Inv : list SubMs -> gset nat -> Prop) others :
  forall g p f,
    (forall g p y, Inv g p -> y ∈ others -> pos y ∉ p ->
                   overlapsAny g y = true ->
                   Inv (g ++ [y]) ({[pos y]} ∪ p)) ->
    Inv g p ->
    Inv (scanPass others g p f).1.1 (scanPass others g p f).1.2.
Proof.
  induction others as [|o rest IH]; intros g p f Hstep Hinv; simpl; [done|].
  case_bool_decide as Hp.
  - apply IH; [|done]. intros g0 p0 y H0 Hy. apply Hstep; [done|].
    by apply elem_of_cons; right.
  - fold (overlapsAny g o). destruct (overlapsAny g o) eqn:Ho.
    + apply IH.
      * intros g0 p0 y H0 Hy. apply Hstep; [done|]. by apply elem_of_cons; right.
      * apply Hstep; auto. by apply elem_of_cons; left.
    + apply IH; [|done]. intros g0 p0 y H0 Hy. apply Hstep; [done|].
      by apply elem_of_cons; right.
Qed.

Lemma scanPass_found_true others :
  forall g p, (scanPass others g p true).2 = true.
Proof.
  induction others as [|o rest IH]; intros g p; simpl; [done|].
  case_bool_decide; [apply IH|]. destruct (existsb _ g); apply IH.
Qed.

(** A pass that finds nothing changes nothing, and then no unprocessed
    cue overlaps a member of the group. *)
Lemma scanPass_found_false others :
  forall g p,
    (scanPass others g p false).2 = false ->
    scanPass others g p false = (g, p, false) /\
    forall y, y ∈ others -> pos y ∉ p -> overlapsAny g y = false.
Proof.
  induction others as [|o rest IH]; intros g p H; simpl in *.
  - split; [done|]. intros y Hy. by apply elem_of_nil in Hy.
  - case_bool_decide as Hp.
    + destruct (IH g p H) as [E Hn]. split; [done|].
      intros y Hy Hyp. apply elem_of_cons in Hy as [->|Hy]; [done|auto].
    + fold (overlapsAny g o) in *. destruct (overlapsAny g o) eqn:Ho.
      * rewrite scanPass_found_true in H. done.
      * destruct (IH g p H) as [E Hn]. split; [done|].
        intros y Hy Hyp. apply elem_of_cons in Hy as [->|Hy]; auto.
Qed.

Lemma growGroup_inv (Inv : list SubMs -> gset nat -> Prop) all fuel :
  forall g p g' p',
    (forall g p y, Inv g p -> y ∈ all -> pos y ∉ p ->
                   overlapsAny g y = true ->
                   Inv (g ++ [y]) ({[pos y]} ∪ p)) ->
    Inv g p ->
    growGroup fuel all g p = Some (g', p') ->
    Inv g' p'.
Proof.
  induction fuel as [|fuel IH]; intros g p g' p' Hstep Hinv H; simpl in H;
    [done|].
  pose proof (scanPass_inv Inv all g p false Hstep Hinv) as Hs.
  destruct (scanPass all g p false) as [[g1 p1] f1]. simpl in Hs.
  destruct f1.
  - eapply IH; eauto.
  - by inversion H; subst.
Qed.

Lemma growGroup_closed all fuel :
  forall g p g' p',
    growGroup fuel all g p = Some (g', p') ->
    forall y, y ∈ all -> pos y ∉ p' -> overlapsAny g' y = false.
Proof.
  induction fuel as [|fuel IH]; intros g p g' p' H; simpl in H; [done|].
  destruct (scanPass all g p false) as [[g1 p1] f1] eqn:E.
  destruct f1.
  - eapply IH; eauto.
  - inversion H; subst.
    destruct (scanPass_found_false all g p) as [E' Hn]; [by rewrite E|].
    rewrite E in E'. by inversion E'; subst.
Qed.

Lemma scanPass_progress all others :
  forall g p f,
    (forall y, y ∈ others -> y ∈ all) ->
    p ⊆ (scanPass others g p f).1.2 /\
    ((scanPass others g p f).2 = true ->
     f = true \/ positions all ∖ (scanPass others g p f).1.2
                 ⊂ positions all ∖ p).
Proof.
  induction others as [|o rest IH]; intros g p f Hall; simpl.
  - split; [done|]. intros ->. by left.
  - assert (Hrest : forall y, y ∈ rest -> y ∈ all)
      by (intros y Hy; apply Hall, elem_of_cons; by right).
    case_bool_decide as Hp; [by apply IH|].
    destruct (existsb _ g); [|by apply IH].
    destruct (IH (g ++ [o]) ({[pos o]} ∪ p) true Hrest) as [Hsub _].
    split; [set_solver|]. intros _. right.
    assert (pos o ∈ positions all).
    { unfold positions. apply elem_of_list_to_set, list_elem_of_fmap.
      exists o. split; [done|]. apply Hall, elem_of_cons. by left. }
    set_solver.
Qed.

(** The loop [while (foundNewOverlap)] ends: a pass that finds a cue
    shrinks the set of unprocessed positions. *)
Lemma growGroup_total all fuel :
  forall g p,
    (size (positions all ∖ p) < fuel)%nat ->
    is_Some (growGroup fuel all g p).
Proof.
  induction fuel as [|fuel IH]; intros g p Hlt; [lia|]. simpl.
  destruct (scanPass_progress all all g p false) as [Hsub Hfound]; [done|].
  destruct (scanPass all g p false) as [[g1 p1] f1]. simpl in *.
  destruct f1; [|by eexists].
  destruct Hfound as [?|Hs]; [done..|].
  apply IH. apply subset_size in Hs. lia.
Qed.

(** *** Sorting a group *)

Lemma insertByStart_perm x l : insertByStart x l ≡ₚ x :: l.
Proof.
  induction l as [|y r IH]; simpl; [done|].
  destruct (startMs x <=? startMs y); [done|].
  rewrite IH. apply Permutation_swap.
Qed.

Lemma sortByStart_perm l : sortByStart l ≡ₚ l.
Proof.
  induction l as [|x r IH]; simpl; [done|].
  by rewrite insertByStart_perm, IH.
Qed.

Lemma sortByStart_elem x l : x ∈ sortByStart l <-> x ∈ l.
Proof. by rewrite sortByStart_perm. Qed.

Lemma insertByStart_hd c x l :
  List.hd c (insertByStart x l) =
  match l with
  | [] => x
  | y :: _ => if startMs x <=? startMs y then x else y
  end.
Proof. destruct l as [|y r]; simpl; [done|]. by destruct (_ <=? _). Qed.

(** The first element of a sorted group starts the earliest. *)
Lemma sortByStart_hd_min l :
  forall c x, x ∈ l -> startMs (List.hd c (sortByStart l)) <= startMs x.
Proof.
  induction l as [|a r IH]; intros c x Hx; [by apply elem_of_nil in Hx|].
  simpl. rewrite insertByStart_hd.
  destruct (sortByStart r) as [|y s] eqn:E.
  - assert (r = []) as ->.
    { destruct r as [|b r']; [done|].
      assert (b ∈ sortByStart (b :: r')) as Hb
        by (apply sortByStart_elem, elem_of_cons; by left).
      rewrite E in Hb. by apply elem_of_nil in Hb. }
    apply elem_of_cons in Hx as [->|Hx]; [lia|by apply elem_of_nil in Hx].
  - apply elem_of_cons in Hx as [->|Hx].
    + destruct (startMs a <=? startMs y) eqn:Hc; [lia|].
      apply Z.leb_gt in Hc. lia.
    + specialize (IH c x Hx). simpl in IH.
      destruct (startMs a <=? startMs y) eqn:Hc; [|done].
      apply Z.leb_le in Hc. lia.
Qed.

Lemma hd_elem (c : SubMs) l : l <> [] -> List.hd c l ∈ l.
Proof. destruct l; [done|]. intros _. apply elem_of_cons. by left. Qed.

Lemma last_elem (c : SubMs) l : l <> [] -> List.last l c ∈ l.
Proof.
  induction l as [|a r IH]; [done|]. intros _.
  destruct r as [|b r']; [apply elem_of_cons; by left|].
  apply elem_of_cons. right. apply IH. done.
Qed.

Lemma hd_indep (c c' : SubMs) l : l <> [] -> List.hd c l = List.hd c' l.
Proof. by destruct l. Qed.

Lemma last_indep (c c' : SubMs) l : l <> [] -> List.last l c = List.last l c'.
Proof.
  induction l as [|a r IH]; [done|]. intros _.
  destruct r as [|b r']; [done|]. apply IH. done.
Qed.

Lemma mergedSubtitle_indep c c' g :
  g <> [] -> mergedSubtitle c g = mergedSubtitle c' g.
Proof.
  intros Hg. unfold mergedSubtitle.
  by rewrite (hd_indep c c' g Hg), (last_indep c c' g Hg).
Qed.

Lemma sortByStart_nonempty l : l <> [] -> sortByStart l <> [].
Proof.
  intros Hl E. destruct l as [|a r]; [done|].
  assert (a ∈ sortByStart (a :: r)) as Ha
    by (apply sortByStart_elem, elem_of_cons; by left).
  rewrite E in Ha. by apply elem_of_nil in Ha.
Qed.

(** *** The invariant of the outer loop *)

Lemma linked_sym all a b : linked all a b -> linked all b a.
Proof. intros (Ha & Hb & Ho). repeat split; auto. by rewrite overlapsMs_sym. Qed.

Lemma rtc_linked_sym all a b : rtc (linked all) a b -> rtc (linked all) b a.
Proof.
  induction 1 as [|a b c Hab _ IH]; [done|].
  eapply rtc_r; [exact IH|]. by apply linked_sym.
Qed.

Lemma positioned_inj all x y :
  positioned all -> x ∈ all -> y ∈ all -> pos x = pos y -> x = y.
Proof.
  intros Hp Hx Hy E.
  apply list_elem_of_lookup in Hx as [i Hi].
  apply list_elem_of_lookup in Hy as [j Hj].
  pose proof (Hp _ _ Hi). pose proof (Hp _ _ Hj). congruence.
Qed.

Lemma withMs_positioned subtitles : positioned (withMs subtitles).
Proof.
  intros i x H. unfold withMs in H. rewrite list_lookup_imap in H.
  destruct (subtitles !! i); simpl in H; [|done]. by inversion H.
Qed.

Lemma positions_elem (l : list SubMs) n :
  n ∈ positions l <-> exists x, x ∈ l /\ pos x = n.
Proof.
  unfold positions. rewrite elem_of_list_to_set, list_elem_of_fmap.
  split; intros (x & H1 & H2); exists x; auto.
Qed.

Lemma positions_app l1 l2 : positions (l1 ++ l2) = positions l1 ∪ positions l2.
Proof. unfold positions. by rewrite map_app, list_to_set_app_L. Qed.

Lemma elem_of_concat (ls : list (list SubMs)) x :
  x ∈ concat ls <-> exists l, l ∈ ls /\ x ∈ l.
Proof.
  rewrite list_elem_of_In, in_concat.
  split; intros (l & H1 & H2); exists l; split; by apply list_elem_of_In.
Qed.

Lemma positions_perm l1 l2 : l1 ≡ₚ l2 -> positions l1 = positions l2.
Proof.
  intros Hp. apply set_eq. intros n. rewrite !positions_elem.
  split; intros (x & Hx & E); exists x; split; auto.
  - by rewrite <- Hp.
  - by rewrite Hp.
Qed.

Lemma positions_size (l : list SubMs) : (size (positions l) <= length l)%nat.
Proof.
  unfold positions. induction l as [|x r IH]; simpl.
  - change (size (∅ : gset nat) <= 0)%nat. by rewrite size_empty.
  - change (size ({[pos x]} ∪ list_to_set (map pos r) : gset nat)
            <= S (length r))%nat.
    rewrite size_union_alt, size_singleton.
    assert (size (list_to_set (map pos r) ∖ {[pos x]} : gset nat)
            <= size (list_to_set (map pos r) : gset nat))%nat
      by (apply subseteq_size; set_solver).
    lia.
Qed.

Section OuterLoop.

Variable all : list SubMs.
Hypothesis Hpos : positioned all.

Lemma GroupInv_init st cur :
  cur ∈ all -> pos cur ∉ processed st ->
  GroupInv all st cur [cur] ({[pos cur]} ∪ processed st).
Proof.
  intros Hc Hn. repeat split.
  - unfold positions. simpl. set_solver.
  - simpl. apply NoDup_singleton.
  - apply elem_of_cons; by left.
  - apply list_elem_of_singleton in H. by subst.
  - apply list_elem_of_singleton in H. by subst.
  - apply list_elem_of_singleton in H. by subst.
Qed.

Lemma GroupInv_step st cur g p y :
  GroupInv all st cur g p -> y ∈ all -> pos y ∉ p ->
  overlapsAny g y = true ->
  GroupInv all st cur (g ++ [y]) ({[pos y]} ∪ p).
Proof.
  intros (Hp & Hnd & Hcur & Hmem) Hy Hny Ho. subst p.
  apply overlapsAny_true in Ho as (x & Hx & Hxy).
  repeat split.
  - rewrite positions_app. unfold positions at 2. simpl. set_solver.
  - rewrite map_app. simpl. apply NoDup_app. repeat split; auto.
    + intros n Hn Hn'. apply list_elem_of_singleton in Hn'. subst n.
      apply Hny. apply elem_of_union; left.
      apply list_elem_of_fmap in Hn as (z & Ez & Hz).
      apply positions_elem. eauto.
    + apply NoDup_singleton.
  - apply elem_of_app; by left.
  - apply elem_of_app in H as [H|H]; [by apply Hmem|].
    apply list_elem_of_singleton in H. by subst.
  - apply elem_of_app in H as [H|H]; [by apply Hmem|].
    apply list_elem_of_singleton in H. subst. set_solver.
  - apply elem_of_app in H as [H|H]; [by apply Hmem|].
    apply list_elem_of_singleton in H. subst.
    eapply rtc_r; [by apply (Hmem x)|].
    repeat split; auto. by apply (Hmem x).
Qed.

Lemma newGroup_inv fuel done st cur g p' :
  MergeInv all done st -> cur ∈ all -> pos cur ∉ processed st ->
  growGroup fuel all [cur] ({[pos cur]} ∪ processed st) = Some (g, p') ->
  MergeInv all (done ++ [cur])
    {| merged := merged st ++ [mergedSubtitle cur (sortByStart g)];
       groups := groups st ++ [sortByStart g];
       processed := p' |}.
Proof.
  intros Inv Hc Hn Hg.
  assert (GroupInv all st cur g p') as (Hp & Hnd & Hcur & Hmem).
  { eapply (growGroup_inv (GroupInv all st cur)); [| |exact Hg].
    - intros. by apply GroupInv_step.
    - by apply GroupInv_init. }
  pose proof (growGroup_closed _ _ _ _ _ _ Hg) as Hclosed.
  assert (Hgne : g <> []) by (intros ->; by apply elem_of_nil in Hcur).
  destruct Inv as [Ip Id Im In Ic Icon Is Ime].
  constructor; simpl.
  - rewrite concat_app, positions_app. simpl. rewrite app_nil_r.
    rewrite (positions_perm _ _ (sortByStart_perm g)). rewrite Hp, Ip.
    set_solver.
  - intros x Hx. rewrite Hp. apply elem_of_app in Hx as [Hx|Hx].
    + apply elem_of_union; right. auto.
    + apply list_elem_of_singleton in Hx. subst x.
      apply elem_of_union; left. apply positions_elem. eauto.
  - intros x Hx. rewrite concat_app in Hx. simpl in Hx.
    rewrite app_nil_r in Hx. apply elem_of_app in Hx as [Hx|Hx]; [auto|].
    rewrite sortByStart_elem in Hx. by destruct (Hmem x Hx).
  - rewrite concat_app, map_app. simpl. rewrite app_nil_r.
    apply NoDup_app. repeat split; auto.
    + intros n H1 H2.
      apply list_elem_of_fmap in H2 as (z & Ez & Hz).
      rewrite sortByStart_elem in Hz.
      destruct (Hmem z Hz) as (_ & Hnz & _). apply Hnz.
      rewrite Ip. apply list_elem_of_fmap in H1 as (w & Ew & Hw).
      apply positions_elem. exists w. split; congruence.
    + by rewrite (sortByStart_perm g).
  - intros g0 x y Hg0 Hx Hy Hxy.
    apply elem_of_app in Hg0 as [Hg0|Hg0]; [eauto|].
    apply list_elem_of_singleton in Hg0. subst g0.
    rewrite sortByStart_elem in Hx. apply sortByStart_elem.
    destruct (decide (pos y ∈ p')) as [Hin|Hnin].
    + rewrite Hp in Hin. apply elem_of_union in Hin as [Hin|Hin].
      * apply positions_elem in Hin as (z & Hz & Ez).
        assert (z = y) as <-; [|done].
        apply (positioned_inj all); auto. by apply Hmem.
      * exfalso. rewrite Ip in Hin.
        apply positions_elem in Hin as (z & Hz & Ez).
        assert (z = y) as ->.
        { apply (positioned_inj all); auto. }
        apply elem_of_concat in Hz as (g0 & Hg0 & Hyg0).
        assert (x ∈ g0) as Hxg0.
        { apply (Ic g0 y x); auto; [by apply Hmem|].
          by rewrite overlapsMs_sym. }
        destruct (Hmem x Hx) as (_ & Hnx & _). apply Hnx.
        rewrite Ip. apply positions_elem. exists x. split; [|done].
        apply elem_of_concat. eauto.
    + exfalso. pose proof (Hclosed y Hy Hnin) as Hf.
      rewrite overlapsAny_false in Hf. rewrite (Hf x Hx) in Hxy. done.
  - intros g0 x y Hg0 Hx Hy.
    apply elem_of_app in Hg0 as [Hg0|Hg0]; [eauto|].
    apply list_elem_of_singleton in Hg0. subst g0.
    rewrite sortByStart_elem in Hx. rewrite sortByStart_elem in Hy.
    eapply rtc_trans; [apply rtc_linked_sym; by apply (Hmem x)|].
    by apply (Hmem y).
  - intros g0 Hg0.
    apply elem_of_app in Hg0 as [Hg0|Hg0]; [eauto|].
    apply list_elem_of_singleton in Hg0. subst g0. split.
    + by apply sortByStart_nonempty.
    + intros c x Hx. apply sortByStart_hd_min. by apply sortByStart_elem.
  - apply Forall2_app; [done|]. constructor; [|constructor].
    intros c. apply mergedSubtitle_indep. by apply sortByStart_nonempty.
Qed.

Lemma MergeInv_skip done st cur :
  MergeInv all done st -> pos cur ∈ processed st ->
  MergeInv all (done ++ [cur]) st.
Proof.
  intros [Ip Id Im In Ic Icon Is Ime] Hin. constructor; auto.
  intros x Hx. apply elem_of_app in Hx as [Hx|Hx]; [auto|].
  apply list_elem_of_singleton in Hx. by subst.
Qed.

(** The outer loop ends and keeps the invariant. *)
Lemma mergeLoop_inv rest :
  forall done st,
    all = done ++ rest ->
    MergeInv all done st ->
    exists st', mergeLoop all rest st = Some st' /\ MergeInv all all st'.
Proof.
  induction rest as [|cur rest IH]; intros done st Hall Inv; cbn [mergeLoop].
  - exists st. split; [done|]. rewrite app_nil_r in Hall. by subst.
  - assert (Hc : cur ∈ all).
    { rewrite Hall. apply elem_of_app; right. apply elem_of_cons; by left. }
    assert (Hall' : all = (done ++ [cur]) ++ rest)
      by (by rewrite <- app_assoc).
    case_bool_decide as Hp.
    + apply (IH (done ++ [cur])); [done|]. by apply MergeInv_skip.
    + destruct (growGroup_total all (S (length all)) [cur]
                  ({[pos cur]} ∪ processed st)) as [[g p'] Hg].
      { assert (size (positions all ∖ ({[pos cur]} ∪ processed st))
                <= size (positions all))%nat
          by (apply subseteq_size; set_solver).
        pose proof (positions_size all). lia. }
      rewrite Hg. apply (IH (done ++ [cur])); [done|].
      by eapply newGroup_inv.
Qed.

End OuterLoop.

(** ** The overlap merger: results *)

Lemma withMs_lookup subtitles i x :
  withMs subtitles !! i = Some x <->
  exists s, subtitles !! i = Some s /\
            x = mkSubMs i s (srtTimeToMs (start s)) (srtTimeToMs (end_ s)).
Proof.
  unfold withMs. rewrite list_lookup_imap.
  destruct (subtitles !! i) as [s|]; simpl.
  - split.
    + intros H. inversion H. eauto.
    + intros (s' & H & ->). by inversion H.
  - split; [done|]. by intros (s' & H & _).
Qed.

Lemma withMs_elem subtitles x :
  x ∈ withMs subtitles ->
  subtitles !! pos x = Some (sub x) /\
  startMs x = srtTimeToMs (start (sub x)) /\
  endMs x = srtTimeToMs (end_ (sub x)).
Proof.
  intros Hx. apply list_elem_of_lookup in Hx as [i Hi].
  apply withMs_lookup in Hi as (s & Hs & ->). by simpl.
Qed.

Lemma withMs_length subtitles : length (withMs subtitles) = length subtitles.
Proof. unfold withMs. apply length_imap. Qed.

Lemma MergeInv_initial all :
  MergeInv all [] {| merged := []; groups := []; processed := ∅ |}.
Proof.
  constructor; simpl; try done.
  - intros x Hx. by apply elem_of_nil in Hx.
  - intros x Hx. by apply elem_of_nil in Hx.
  - apply NoDup_nil. done.
  - intros g x y Hg. by apply elem_of_nil in Hg.
  - intros g x y Hg. by apply elem_of_nil in Hg.
  - intros g Hg. by apply elem_of_nil in Hg.
Qed.

(** The merger returns on every track, and its final state satisfies the
    invariant. *)
Lemma mergeRun_inv subtitles :
  exists st, mergeRun subtitles = Some st /\
             mergeOverlappingSubtitles subtitles = Some (merged st) /\
             MergeInv (withMs subtitles) (withMs subtitles) st.
Proof.
  destruct (mergeLoop_inv (withMs subtitles) (withMs_positioned subtitles)
              (withMs subtitles) []
              {| merged := []; groups := []; processed := ∅ |})
    as (st & Hrun & Hinv); [done|apply MergeInv_initial|].
  exists st. split; [done|]. split; [|done].
  unfold mergeOverlappingSubtitles, mergeRun in *.
  destruct subtitles as [|s r].
  - simpl in *. by inversion Hrun.
  - cbn [length Nat.eqb]. by rewrite Hrun.
Qed.

Lemma merged_position all st n :
  positioned all -> MergeInv all all st -> (n < length all)%nat ->
  exists g x, g ∈ groups st /\ x ∈ g /\ all !! n = Some x /\ pos x = n.
Proof.
  intros Hpos Inv Hn.
  destruct (lookup_lt_is_Some_2 all n Hn) as [x Hx].
  assert (Hxa : x ∈ all) by (apply list_elem_of_lookup; eauto).
  pose proof (inv_done _ _ _ Inv x Hxa) as Hp.
  rewrite (inv_processed _ _ _ Inv) in Hp.
  apply positions_elem in Hp as (z & Hz & Ez).
  assert (z = x) as ->.
  { apply (positioned_inj all); auto. by apply (inv_members _ _ _ Inv). }
  apply elem_of_concat in Hz as (g & Hg & Hxg).
  exists g, x. repeat split; auto.
Qed.

(** C6. The groups of the merger partition the track: the positions of
    the cues of all groups, taken together, are the positions of the
    track, each exactly once; a member of a group is the input cue at its
    position; and the text of every merged cue is made of the texts of
    the members of its group, one line each. *)
Theorem merge_partition (subtitles : list Subtitle) :
  exists st,
    mergeRun subtitles = Some st /\
    mergeOverlappingSubtitles subtitles = Some (merged st) /\
    map pos (concat (groups st)) ≡ₚ seq 0 (length subtitles) /\
    (forall x, x ∈ concat (groups st) ->
               subtitles !! pos x = Some (sub x)) /\
    Forall2 (fun m g => text m = Js.join newline (map (fun x => text (sub x)) g))
            (merged st) (groups st).
Proof.
  destruct (mergeRun_inv subtitles) as (st & Hrun & Hres & Inv).
  exists st. split; [done|]. split; [done|]. split; [|split].
  - apply NoDup_Permutation.
    + apply (inv_nodup _ _ _ Inv).
    + apply NoDup_seq.
    + intros n. rewrite elem_of_seq. split.
      * intros Hn. apply list_elem_of_fmap in Hn as (x & -> & Hx).
        apply (inv_members _ _ _ Inv) in Hx.
        apply withMs_elem in Hx as (Hl & _). apply lookup_lt_Some in Hl. lia.
      * intros [_ Hn].
        destruct (merged_position (withMs subtitles) st n) as
          (g & x & Hg & Hx & _ & E); auto.
        { apply withMs_positioned. }
        { rewrite withMs_length. lia. }
        apply list_elem_of_fmap. exists x. split; [done|].
        apply elem_of_concat. eauto.
  - intros x Hx. apply (inv_members _ _ _ Inv) in Hx.
    by apply withMs_elem in Hx as (Hl & _).
  - eapply Forall2_impl; [apply (inv_merged _ _ _ Inv)|].
    intros m g H. simpl in H.
    rewrite (H (mkSubMs 0 m 0 0)). done.
Qed.

Lemma linked_overlapAt subtitles a b :
  linked (withMs subtitles) a b -> overlapAt subtitles (pos a) (pos b).
Proof.
  intros (Ha & Hb & Ho). apply overlapsMs_true in Ho.
  apply withMs_elem in Ha as (Hla & Hsa & Hea).
  apply withMs_elem in Hb as (Hlb & Hsb & Heb).
  exists (sub a), (sub b). repeat split; auto; lia.
Qed.

(** C2, amended. The merger puts two cues of a track in the same group
    exactly when a chain of cues leads from one to the other in which each
    cue shares a positive duration with the next
    ([a.start < b.end] and [b.start < a.end]); the merger does not use
    the 500 ms threshold of [hasIntersection]. *)
Theorem merge_groups_are_components (subtitles : list Subtitle) :
  exists st,
    mergeRun subtitles = Some st /\
    mergeOverlappingSubtitles subtitles = Some (merged st) /\
    forall i j, (i < length subtitles)%nat -> (j < length subtitles)%nat ->
                (sameGroup (groups st) i j <-> rtc (overlapAt subtitles) i j).
Proof.
  destruct (mergeRun_inv subtitles) as (st & Hrun & Hres & Inv).
  pose proof (withMs_positioned subtitles) as Hpos.
  exists st. split; [done|]. split; [done|].
  intros i j Hi Hj. split.
  - intros (g & Hg & Hig & Hjg).
    apply list_elem_of_fmap in Hig as (x & -> & Hx).
    apply list_elem_of_fmap in Hjg as (y & -> & Hy).
    apply (rtc_congruence pos (overlapAt subtitles) x y
             (linked_overlapAt subtitles)).
    by apply (inv_connected _ _ _ Inv g).
  - intros Hrtc. clear Hj.
    refine (rtc_ind_r (fun j => sameGroup (groups st) i j) i _ _ j Hrtc);
      clear j Hrtc; [|intros j k Hij Hjk IH].
    + destruct (merged_position (withMs subtitles) st i) as
        (g & x & Hg & Hx & _ & E); auto.
      { rewrite withMs_length. lia. }
      exists g. split; [done|]. split; apply list_elem_of_fmap; eauto.
    + destruct Hjk as (a & b & Ha & Hb & Hab1 & Hab2).
      destruct IH as (g & Hg & Hig & Hjg).
      exists g. split; [done|]. split; [done|].
      apply list_elem_of_fmap in Hjg as (y & -> & Hy).
      assert (Hya : y ∈ withMs subtitles).
      { apply (inv_members _ _ _ Inv). apply elem_of_concat. eauto. }
      pose proof (withMs_elem _ _ Hya) as (Hly & Hsy & Hey).
      assert (sub y = a) by congruence. subst a.
      set (z := mkSubMs k b (srtTimeToMs (start b)) (srtTimeToMs (end_ b))).
      assert (Hz : withMs subtitles !! k = Some z)
        by (apply withMs_lookup; eauto).
      apply list_elem_of_fmap. exists z. split; [done|].
      apply (inv_closed _ _ _ Inv g y z); auto.
      * apply list_elem_of_lookup. eauto.
      * apply overlapsMs_true. simpl. lia.
Qed.

(** C2, as stated, fails: two cues that share 1 ms are not linked by
    [hasIntersection], and the merger fuses them into one cue. *)
Lemma merge_ignores_threshold :
  let a := cue "1" "00:00:00,000" "00:00:01,000" "A" in
  let b := cue "2" "00:00:00,999" "00:00:02,000" "B" in
  srtTimeToMs (end_ a) - srtTimeToMs (start b) = 1 /\
  hasIntersection (start a) (end_ a) (start b) (end_ b) = false /\
  ~ rtc (thresholdOverlapAt [a; b]) 0%nat 1%nat /\
  mergeOverlappingSubtitles [a; b] =
    Some [cue "1" "00:00:00,000" "00:00:02,000" ("A" +:+ newline +:+ "B")] /\
  exists st, mergeRun [a; b] = Some st /\ sameGroup (groups st) 0 1.
Proof.
  intros a b. split; [reflexivity|]. split; [reflexivity|]. split; [|split].
  - intros H.
    assert (1%nat = 0%nat); [|done].
    refine (rtc_ind_r (fun j => j = 0%nat) 0%nat _ _ 1%nat H);
      [done|intros j k Hij Hjk IH]. subst j.
    destruct Hjk as (x & y & Hx & Hy & Hxy).
    destruct k as [|[|k]]; [done| |done].
    simpl in Hx, Hy. inversion Hx; inversion Hy; subst. vm_compute in Hxy. done.
  - vm_compute. reflexivity.
  - eexists. split; [vm_compute; reflexivity|].
    eexists. split; [apply elem_of_cons; left; reflexivity|].
    simpl. split; [apply elem_of_cons; by left|].
    apply elem_of_cons; right. apply elem_of_cons; by left.
Qed.

(** ** The overlap merger: a second run *)

(** A group that is closed and connected under the test of the merger
    and has no member sharing a positive duration with the interval
    [(ys, ye)], [ys <= ye], lies on one side of that interval. *)
Lemma group_one_side (all g : list SubMs) (ys ye : Z) :
  ys <= ye ->
  (forall x y, x ∈ g -> y ∈ all -> overlapsMs x y = true -> y ∈ g) ->
  (forall x y, x ∈ g -> y ∈ g -> rtc (linked all) x y) ->
  (forall x, x ∈ g -> ~ (startMs x < ye /\ ys < endMs x)) ->
  (forall x, x ∈ g -> endMs x <= ys) \/ (forall x, x ∈ g -> ye <= startMs x).
Proof.
  intros Hy Hclosed Hconn Hno.
  destruct g as [|x0 g']; [left; intros x Hx; by apply elem_of_nil in Hx|].
  set (g := x0 :: g') in *.
  assert (Hx0 : x0 ∈ g) by (apply elem_of_cons; by left).
  assert (endMs x0 <= ys \/ ye <= startMs x0) as [Hl|Hr]
    by (pose proof (Hno x0 Hx0); lia).
  - left. intros x Hx.
    refine (proj2 (rtc_ind_r (fun z => z ∈ g /\ endMs z <= ys) x0 _ _ x
                     (Hconn x0 x Hx0 Hx))); [done|].
    intros y z _ (Hya & Hza & Hyz) [Hyg Hye].
    assert (Hzg : z ∈ g) by eauto. split; [done|].
    apply overlapsMs_true in Hyz. pose proof (Hno z Hzg). lia.
  - right. intros x Hx.
    refine (proj2 (rtc_ind_r (fun z => z ∈ g /\ ye <= startMs z) x0 _ _ x
                     (Hconn x0 x Hx0 Hx))); [done|].
    intros y z _ (Hya & Hza & Hyz) [Hyg Hye].
    assert (Hzg : z ∈ g) by eauto. split; [done|].
    apply overlapsMs_true in Hyz. pose proof (Hno z Hzg). lia.
Qed.

Lemma concat_disjoint (ls : list (list SubMs)) :
  NoDup (map pos (concat ls)) ->
  forall i j l1 l2 x,
    ls !! i = Some l1 -> ls !! j = Some l2 -> i <> j ->
    x ∈ l1 -> x ∈ l2 -> False.
Proof.
  induction ls as [|l ls IH]; intros Hnd i j l1 l2 x H1 H2 Hij Hx1 Hx2;
    [done|].
  simpl in Hnd. rewrite map_app in Hnd.
  apply NoDup_app in Hnd as (Hl & Hdis & Hrest).
  assert (Hin : forall k l', ls !! k = Some l' -> x ∈ l' ->
                             pos x ∈ map pos (concat ls)).
  { intros k l' Hk Hx. apply list_elem_of_fmap. exists x. split; [done|].
    apply elem_of_concat. exists l'. split; [|done].
    apply list_elem_of_lookup. eauto. }
  destruct i as [|i], j as [|j]; simpl in H1, H2; try done.
  - inversion H1; subst. apply (Hdis (pos x)).
    + apply list_elem_of_fmap. eauto.
    + eauto.
  - inversion H2; subst. apply (Hdis (pos x)).
    + apply list_elem_of_fmap. eauto.
    + eauto.
  - apply (IH Hrest i j l1 l2 x); auto.
Qed.

(** With well-formed cues, the spans of two different groups, each taken
    from the start of its first member to the end of its last member,
    share no positive duration. *)
Lemma merged_spans_disjoint (all : list SubMs) st i j g1 g2 c1 c2 :
  MergeInv all all st ->
  (forall x, x ∈ all -> startMs x <= endMs x) ->
  groups st !! i = Some g1 -> groups st !! j = Some g2 -> i <> j ->
  ~ (startMs (List.hd c1 g1) < endMs (List.last g2 c2) /\
     startMs (List.hd c2 g2) < endMs (List.last g1 c1)).
Proof.
  intros Inv Hwf H1 H2 Hij.
  assert (Hg1 : g1 ∈ groups st) by (apply list_elem_of_lookup; eauto).
  assert (Hg2 : g2 ∈ groups st) by (apply list_elem_of_lookup; eauto).
  destruct (inv_sorted _ _ _ Inv g1 Hg1) as [Hne1 Hmin1].
  destruct (inv_sorted _ _ _ Inv g2 Hg2) as [Hne2 Hmin2].
  assert (Hall : forall g x, g ∈ groups st -> x ∈ g -> x ∈ all).
  { intros g x Hg Hx. apply (inv_members _ _ _ Inv), elem_of_concat. eauto. }
  pose proof (hd_elem c1 g1 Hne1) as Ha1.
  pose proof (last_elem c1 g1 Hne1) as Hb1.
  pose proof (hd_elem c2 g2 Hne2) as Ha2.
  pose proof (last_elem c2 g2 Hne2) as Hb2.
  assert (Hcross : forall x d, x ∈ g1 -> d ∈ g2 ->
                               ~ (startMs x < endMs d /\ startMs d < endMs x)).
  { intros x d Hx Hd Ho. apply overlapsMs_true in Ho.
    apply (concat_disjoint _ (inv_nodup _ _ _ Inv) i j g1 g2 d); auto.
    apply (inv_closed _ _ _ Inv g1 x d); eauto. }
  (* no member of the second group meets the span of the first *)
  assert (Hstep1 : forall d, d ∈ g2 ->
            ~ (startMs d < endMs (List.last g1 c1) /\
               startMs (List.hd c1 g1) < endMs d)).
  { intros d Hd.
    destruct (group_one_side all g1 (startMs d) (endMs d)) as [Hl|Hr].
    - apply Hwf. eauto.
    - intros x y Hx Hy Ho. apply (inv_closed _ _ _ Inv g1 x y); auto.
    - intros x y Hx Hy. apply (inv_connected _ _ _ Inv g1); auto.
    - intros x Hx. pose proof (Hcross x d Hx Hd). lia.
    - pose proof (Hl _ Hb1). lia.
    - pose proof (Hr _ Ha1). lia. }
  destruct (group_one_side all g2 (startMs (List.hd c1 g1))
              (endMs (List.last g1 c1))) as [Hl|Hr].
  - pose proof (Hmin1 c1 _ Hb1). pose proof (Hwf _ (Hall g1 _ Hg1 Hb1)). lia.
  - intros x y Hx Hy Ho. apply (inv_closed _ _ _ Inv g2 x y); auto.
  - intros x y Hx Hy. apply (inv_connected _ _ _ Inv g2); auto.
  - exact Hstep1.
  - pose proof (Hl _ Hb2). lia.
  - pose proof (Hr _ Ha2). lia.
Qed.

Lemma scanPass_none others :
  forall g p f,
    (forall y, y ∈ others -> pos y ∈ p \/ overlapsAny g y = false) ->
    scanPass others g p f = (g, p, f).
Proof.
  induction others as [|o rest IH]; intros g p f H; simpl; [done|].
  assert (Hrest : forall y, y ∈ rest -> pos y ∈ p \/ overlapsAny g y = false)
    by (intros y Hy; apply H, elem_of_cons; by right).
  case_bool_decide as Hp; [by apply IH|].
  fold (overlapsAny g o).
  destruct (H o) as [Hin|Hno]; [apply elem_of_cons; by left|done|].
  rewrite Hno. by apply IH.
Qed.

Lemma sub_withMs subtitles : map sub (withMs subtitles) = subtitles.
Proof.
  apply list_eq. intros i. rewrite list_lookup_fmap.
  destruct (withMs subtitles !! i) as [x|] eqn:E; simpl.
  - apply withMs_lookup in E as (s & Hs & ->). by simpl.
  - destruct (subtitles !! i) as [s|] eqn:Es; [|done].
    assert (withMs subtitles !! i = Some
              (mkSubMs i s (srtTimeToMs (start s)) (srtTimeToMs (end_ s))))
      by (apply withMs_lookup; eauto).
    congruence.
Qed.

Lemma mergedSubtitle_single cur : mergedSubtitle cur [cur] = sub cur.
Proof. unfold mergedSubtitle. simpl. by destruct (sub cur). Qed.

(** On a track in which no two cues share a positive duration, every
    group is a single cue and the merger returns the track. *)
Lemma mergeLoop_noop (all : list SubMs) :
  positioned all ->
  (forall i j a b, i <> j -> all !! i = Some a -> all !! j = Some b ->
                   overlapsMs a b = false) ->
  forall rest done st,
    all = done ++ rest ->
    processed st = positions done ->
    merged st = map sub done ->
    exists st', mergeLoop all rest st = Some st' /\ merged st' = map sub all.
Proof.
  intros Hpos Hfree.
  induction rest as [|cur rest IH]; intros done st Hall Hp Hm;
    cbn [mergeLoop].
  - exists st. split; [done|]. rewrite app_nil_r in Hall. by subst.
  - assert (Hcur : all !! length done = Some cur).
    { rewrite Hall. by rewrite list_lookup_middle. }
    assert (Hpc : pos cur = length done) by (by apply Hpos).
    assert (Hnp : pos cur ∉ processed st).
    { rewrite Hp. intros Hin. apply positions_elem in Hin as (x & Hx & E).
      apply list_elem_of_lookup in Hx as [k Hk].
      assert (all !! k = Some x)
        by (rewrite Hall; by apply lookup_app_l_Some).
      apply lookup_lt_Some in Hk. pose proof (Hpos _ _ H). lia. }
    rewrite bool_decide_eq_false_2 by done.
    cbn [growGroup].
    rewrite scanPass_none.
    + simpl sortByStart. rewrite mergedSubtitle_single.
      apply (IH (done ++ [cur])).
      * by rewrite <- app_assoc.
      * simpl. rewrite positions_app, Hp. unfold positions at 3. simpl.
        set_solver.
      * simpl. by rewrite map_app, Hm.
    + intros y Hy. apply list_elem_of_lookup in Hy as [k Hk].
      destruct (decide (k = length done)) as [->|Hne].
      * left. assert (y = cur) by congruence. subst. set_solver.
      * right. unfold overlapsAny. simpl. rewrite orb_false_r.
        apply (Hfree (length done) k); auto.
Qed.

Lemma merge_noop (subtitles : list Subtitle) :
  (forall i j a b, i <> j -> withMs subtitles !! i = Some a ->
                   withMs subtitles !! j = Some b ->
                   overlapsMs a b = false) ->
  mergeOverlappingSubtitles subtitles = Some subtitles.
Proof.
  intros Hfree. unfold mergeOverlappingSubtitles.
  destruct (length subtitles =? 0)%nat; [done|].
  destruct (mergeLoop_noop (withMs subtitles) (withMs_positioned _) Hfree
              (withMs subtitles) []
              {| merged := []; groups := []; processed := ∅ |})
    as (st' & Hrun & Hm); [done..|].
  unfold mergeRun. rewrite Hrun. simpl. by rewrite Hm, sub_withMs.
Qed.

(** C7, amended. On a track whose cues all have a start that is not
    later than their end, the merger is idempotent: it returns a track
    that a second run returns unchanged. *)
Theorem merge_idempotent_wellformed (subtitles : list Subtitle) :
  Forall (fun s => srtTimeToMs (start s) <= srtTimeToMs (end_ s)) subtitles ->
  exists out,
    mergeOverlappingSubtitles subtitles = Some out /\
    mergeOverlappingSubtitles out = Some out.
Proof.
  intros Hwf.
  destruct (mergeRun_inv subtitles) as (st & Hrun & Hres & Inv).
  exists (merged st). split; [done|].
  assert (Hwf' : forall x, x ∈ withMs subtitles -> startMs x <= endMs x).
  { intros x Hx. apply withMs_elem in Hx as (Hl & -> & ->).
    rewrite Forall_forall in Hwf. apply Hwf.
    apply list_elem_of_lookup. eauto. }
  assert (Hspan : forall i m a, merged st !! i = Some m ->
            withMs (merged st) !! i = Some a ->
            exists g, groups st !! i = Some g /\
                      startMs a = startMs (List.hd a g) /\
                      endMs a = endMs (List.last g a)).
  { intros i m a Hm Ha.
    destruct (Forall2_lookup_l _ _ _ _ _ (inv_merged _ _ _ Inv) Hm)
      as (g & Hg & Hmg).
    exists g. split; [done|].
    apply withMs_lookup in Ha as (m' & Hm' & Ea).
    assert (m' = m) by congruence. subst m'.
    assert (Hgin : g ∈ groups st) by (apply list_elem_of_lookup; eauto).
    destruct (inv_sorted _ _ _ Inv g Hgin) as [Hne _].
    assert (Hall : forall x, x ∈ g -> x ∈ withMs subtitles).
    { intros x Hx. apply (inv_members _ _ _ Inv), elem_of_concat. eauto. }
    destruct (withMs_elem _ _ (Hall _ (hd_elem a g Hne))) as (_ & Hs & _).
    destruct (withMs_elem _ _ (Hall _ (last_elem a g Hne))) as (_ & _ & He).
    rewrite Hs, He. rewrite Ea at 1 3. simpl.
    rewrite (Hmg a). done. }
  apply merge_noop. intros i j a b Hij Ha Hb.
  destruct (overlapsMs a b) eqn:Ho; [|done]. exfalso.
  apply overlapsMs_true in Ho.
  pose proof Ha as Ha'. pose proof Hb as Hb'.
  apply withMs_lookup in Ha' as (ma & Hma & _).
  apply withMs_lookup in Hb' as (mb & Hmb & _).
  destruct (Hspan i ma a Hma Ha) as (g1 & Hg1 & Hs1 & He1).
  destruct (Hspan j mb b Hmb Hb) as (g2 & Hg2 & Hs2 & He2).
  apply (merged_spans_disjoint (withMs subtitles) st i j g1 g2 a b);
    auto. lia.
Qed.

(** C7, as stated, fails on a track with a cue that ends before it
    starts: a second run of the merger fuses what the first run kept
    apart. *)
Lemma merge_not_idempotent :
  let s := [cue "1" "00:00:00,000" "00:00:10,000" "x";
            cue "2" "00:00:05,000" "00:00:20,000" "z";
            cue "3" "00:00:15,000" "00:00:03,000" "y"] in
  exists out out',
    mergeOverlappingSubtitles s = Some out /\
    mergeOverlappingSubtitles out = Some out' /\
    length out = 2%nat /\ length out' = 1%nat /\ out' <> out.
Proof.
  intros s. eexists. eexists.
  split; [vm_compute; reflexivity|].
  split; [vm_compute; reflexivity|].
  split; [reflexivity|]. split; [reflexivity|]. discriminate.
Qed.

Lemma merge_idempotent_wellformed_witness :
  let s := [cue "1" "00:00:00,000" "00:00:10,000" "x";
            cue "2" "00:00:05,000" "00:00:20,000" "z";
            cue "3" "00:00:30,000" "00:00:31,000" "y"] in
  Forall (fun s => srtTimeToMs (start s) <= srtTimeToMs (end_ s)) s /\
  exists out,
    mergeOverlappingSubtitles s = Some out /\
    mergeOverlappingSubtitles out = Some out.
Proof.
  intros s.
  assert (H : Forall (fun s => srtTimeToMs (start s) <= srtTimeToMs (end_ s)) s).
  { repeat constructor; vm_compute; discriminate. }
  split; [exact H|]. exact (merge_idempotent_wellformed s H).
Defined.

(** ** Spans *)

(** X5. The start of a merged cue is the earliest start of its group. *)
Lemma merge_start_earliest (subtitles : list Subtitle) :
  exists st,
    mergeRun subtitles = Some st /\
    Forall2 (fun m g => forall x, x ∈ g ->
                                  srtTimeToMs (start m) <= startMs x)
            (merged st) (groups st).
Proof.
  destruct (mergeRun_inv subtitles) as (st & Hrun & _ & Inv).
  exists st. split; [done|].
  apply Forall2_same_length_lookup. split.
  - eapply Forall2_length, (inv_merged _ _ _ Inv).
  - intros i m g Hm Hg x Hx.
    destruct (Forall2_lookup_l _ _ _ _ _ (inv_merged _ _ _ Inv) Hm)
      as (g' & Hg' & Hmg).
    assert (g' = g) by congruence. subst g'.
    assert (Hgin : g ∈ groups st) by (apply list_elem_of_lookup; eauto).
    destruct (inv_sorted _ _ _ Inv g Hgin) as [Hne Hmin].
    rewrite (Hmg x). simpl.
    assert (Hh : List.hd x g ∈ withMs subtitles).
    { apply (inv_members _ _ _ Inv), elem_of_concat.
      exists g. split; [done|]. by apply hd_elem. }
    destruct (withMs_elem _ _ Hh) as (_ & <- & _). by apply Hmin.
Qed.

(** C3. The end of a merged cue is the end of the member of its group
    that starts last, and the end of a replacement cue is the end of the
    last cue of the overlapping target group in track order; neither is
    the latest end of the group when an earlier cue outlasts it.  A cue
    from 0 s to 10 s and a cue from 1 s to 2 s merge into a cue that
    ends at 2 s; a target cue from 0 s to 10 s with two unknown words,
    followed by a target cue from 1 s to 2 s, is replaced by a cue that
    ends at 2 s. *)
Theorem span_end_not_latest :
  let a := cue "1" "00:00:00,000" "00:00:10,000" "A" in
  let b := cue "2" "00:00:01,000" "00:00:02,000" "B" in
  let t1 := cue "1" "00:00:00,000" "00:00:10,000" "zorglub schtroumpf" in
  let t2 := cue "2" "00:00:01,000" "00:00:02,000" "the" in
  let n := cue "1" "00:00:00,000" "00:00:10,000" "Bonjour" in
  mergeOverlappingSubtitles [a; b] =
    Some [cue "1" "00:00:00,000" "00:00:02,000" ("A" +:+ newline +:+ "B")] /\
  hybrid <$> fuseSubtitles echoLemmatizer [t1; t2] [n] {["the"]} "fr"
                           false None =
    Some [cue "1" "00:00:00,000" "00:00:02,000" "Bonjour"] /\
  srtTimeToMs "00:00:02,000" = 2000 /\
  Z.max (srtTimeToMs (end_ a)) (srtTimeToMs (end_ b)) = 10000 /\
  Z.max (srtTimeToMs (end_ t1)) (srtTimeToMs (end_ t2)) = 10000.
Proof. vm_compute. repeat split; reflexivity. Qed.

(** ** The vocabulary classifier *)

Lemma lowerChar_upperChar c : Js.lowerChar (Js.upperChar c) = Js.lowerChar c.
Proof. destruct c as [[] [] [] [] [] [] [] []]; vm_compute; reflexivity. Qed.

Lemma toLowerCase_capitalizeFirst w :
  Js.toLowerCase (capitalizeFirst w) = Js.toLowerCase w.
Proof. destruct w as [|c r]; simpl; [done|]. by rewrite lowerChar_upperChar. Qed.

Lemma imap_id_tail {A} (l : list A) (f : nat -> A -> A) :
  (forall i x, f i x = x) -> imap f l = l.
Proof.
  revert f. induction l as [|x r IH]; intros f H; simpl; [done|].
  rewrite H. f_equal. apply IH. intros i y. apply H.
Qed.

Lemma forallb_capitalized (p : string -> bool) expansion :
  forallb (fun w => p (Js.toLowerCase w))
          (imap (fun i w => if (i =? 0)%nat then capitalizeFirst w else w)
                expansion)
  = forallb (fun w => p (Js.toLowerCase w)) expansion.
Proof.
  destruct expansion as [|x r]; simpl; [done|].
  rewrite toLowerCase_capitalizeFirst. f_equal. f_equal.
  apply imap_id_tail. done.
Qed.

(** A word whose lower-case form is known is known. *)
Lemma isWordKnown_direct word knownWords language :
  has knownWords (Js.toLowerCase word) = true ->
  isWordKnown word knownWords language = Some true.
Proof. intros H. unfold isWordKnown. by rewrite H. Qed.

(** Outside English no contraction is expanded. *)
Lemma isWordKnown_no_contractions word knownWords language :
  language <> "en" ->
  isWordKnown word knownWords language =
    Some (has knownWords (Js.toLowerCase word)).
Proof.
  intros H. unfold isWordKnown.
  destruct (has knownWords (Js.toLowerCase word)); [done|].
  destruct (String.eqb_spec language "en"); done.
Qed.

(** X9. In English, a word that is not known and whose lower-case form is a
    key of the table is known exactly when every component of its entry
    is known. *)
Lemma isWordKnown_contraction word knownWords expansion :
  has knownWords (Js.toLowerCase word) = false ->
  ownEntry (Js.toLowerCase word) ENGLISH_CONTRACTIONS = Some expansion ->
  isWordKnown word knownWords "en" =
    Some (forallb (fun w => has knownWords (Js.toLowerCase w)) expansion).
Proof.
  intros Hk He. unfold isWordKnown, getContractionExpansion, readContraction.
  rewrite Hk, He. simpl.
  destruct (firstIsUpper word); [|done].
  by rewrite forallb_capitalized.
Qed.

(** X10. [isWordKnown] throws only in English, on a word whose lower-case
    form names a member inherited from [Object.prototype]. *)
Lemma isWordKnown_throws word knownWords language :
  isWordKnown word knownWords language = None ->
  language = "en" /\ readContraction (Js.toLowerCase word) = NotAnArray.
Proof.
  unfold isWordKnown, getContractionExpansion.
  destruct (has knownWords (Js.toLowerCase word)); [done|].
  destruct (String.eqb_spec language "en") as [->|]; [|done].
  destruct (readContraction (Js.toLowerCase word)); try done.
  destruct (firstIsUpper word); done.
Qed.

(** C8. The entries of the table under the keys [I'm], [I'll], [I've]
    and [I'd] are never found, because the table is read under the
    lower-case form of the word: with [i] and [am] known, [I'm] is not
    known although every component of its entry is.  On [constructor]
    the function throws instead of returning.  The two examples of the
    claim hold. *)
Theorem isWordKnown_misses_capital_keys :
  ownEntry "I'm" ENGLISH_CONTRACTIONS = Some ["I"; "am"] /\
  forallb (fun w => has {["i"; "am"]} (Js.toLowerCase w)) ["I"; "am"] = true /\
  isWordKnown "I'm" {["i"; "am"]} "en" = Some false /\
  isWordKnown "i'm" {["i"; "am"]} "en" = Some false /\
  isWordKnown "constructor" ∅ "en" = None /\
  isWordKnown "don't" {["do"]} "en" = Some false /\
  isWordKnown "don't" {["do"; "not"]} "en" = Some true.
Proof. vm_compute. repeat split; reflexivity. Qed.

Lemma isProperNoun_first word sentence knownWords :
  capitalized (cleanWord word) = true ->
  cleanWord word = firstWordOf sentence ->
  isProperNoun word sentence knownWords =
    negb (has knownWords (Js.toLowerCase (cleanWord word))).
Proof.
  intros H E. unfold isProperNoun.
  destruct (cleanWord word) as [|c r] eqn:Ew; [done|].
  cbn [Js.isEmpty]. rewrite H. cbn [negb]. rewrite <- E, String.eqb_refl.
  unfold has. by destruct (bool_decide _).
Qed.

Lemma isProperNoun_later word sentence knownWords :
  capitalized (cleanWord word) = true ->
  cleanWord word <> firstWordOf sentence ->
  isProperNoun word sentence knownWords = true.
Proof.
  intros H E. unfold isProperNoun.
  destruct (cleanWord word) as [|c r] eqn:Ew; [done|].
  cbn [Js.isEmpty]. rewrite H. cbn [negb].
  by destruct (String.eqb_spec (String c r) (firstWordOf sentence)).
Qed.

(** C9. The word is compared with the leading run of letters, digits,
    apostrophes and hyphens of the sentence, which is not the first
    alphanumeric token of a sentence that starts with a dash or with a
    tag: [Hello], capitalized, known in lower case and first token of
    [- Hello there], of [-Hello there] and of [<i>Hello</i> world], is a
    proper noun there, and is not one in [Hello there]; [hello] and
    [iPhone], which do not start with a capital, are not.  The two examples
    of the claim hold: [Paris] in [Paris is nice.] is a proper noun
    exactly when [paris] is not known, and [Paris] in [I love Paris.] is
    always one. *)
Theorem isProperNoun_misses_sentence_start :
  firstWordOf "- Hello there" = "-" /\
  firstWordOf "-Hello there" = "-Hello" /\
  firstWordOf "<i>Hello</i> world" = "" /\
  cleanWord "Hello" = "Hello" /\ cleanWord "-Hello" = "Hello" /\
  cleanWord "<i>Hello</i>" = "Hello" /\
  isProperNoun "Hello" "- Hello there" {["hello"]} = true /\
  isProperNoun "-Hello" "-Hello there" {["hello"]} = true /\
  isProperNoun "Hello" "<i>Hello</i> world" {["hello"]} = true /\
  isProperNoun "<i>Hello</i>" "<i>Hello</i> world" {["hello"]} = true /\
  isProperNoun "Hello" "Hello there" {["hello"]} = false /\
  isProperNoun "hello" "- hello there" ∅ = false /\
  isProperNoun "iPhone" "I love iPhone" ∅ = false /\
  (forall knownWords,
      isProperNoun "Paris" "Paris is nice." knownWords =
        negb (has knownWords "paris")) /\
  (forall knownWords, isProperNoun "Paris" "I love Paris." knownWords = true).
Proof.
  do 13 (split; [vm_compute; reflexivity|]). split.
  - intros K. by rewrite (isProperNoun_first "Paris" "Paris is nice." K).
  - intros K. by rewrite (isProperNoun_later "Paris" "I love Paris." K).
Qed.

(** ** The fusion engine *)

Lemma hasIntersection_true a b c d :
  hasIntersection a b c d = true <->
  500 < Z.min (srtTimeToMs b) (srtTimeToMs d)
        - Z.max (srtTimeToMs a) (srtTimeToMs c).
Proof. unfold hasIntersection. by rewrite Z.ltb_lt. Qed.

(** When some cue meets the combined native span, the cue that selected
    the native cues meets it too. *)
Lemma combined_span_meets_current cur f l t :
  hasIntersection (start cur) (end_ cur) (start f) (end_ f) = true ->
  hasIntersection (start cur) (end_ cur) (start l) (end_ l) = true ->
  hasIntersection (start f) (end_ l) (start t) (end_ t) = true ->
  hasIntersection (start f) (end_ l) (start cur) (end_ cur) = true.
Proof. rewrite !hasIntersection_true. lia. Qed.

Lemma last_in_cons (first : Subtitle) more :
  List.last more first ∈ first :: more.
Proof.
  induction more as [|m r IH]; simpl.
  - apply elem_of_cons; by left.
  - destruct r as [|m' r'].
    + apply elem_of_cons; right. apply elem_of_cons; by left.
    + apply elem_of_cons in IH as [IH|IH].
      * rewrite IH. apply elem_of_cons; by left.
      * apply elem_of_cons; right. apply elem_of_cons; by right.
Qed.

Lemma last_indep_sub (l : list Subtitle) (c c' : Subtitle) :
  l <> [] -> List.last l c = List.last l c'.
Proof.
  induction l as [|a r IH]; [done|]. intros _.
  destruct r as [|b r']; [done|]. apply IH. done.
Qed.

Lemma elem_of_List_filter {A} (f : A -> bool) (l : list A) x :
  x ∈ List.filter f l <-> x ∈ l /\ f x = true.
Proof. rewrite !list_elem_of_In. apply filter_In. Qed.

Lemma has_true (s : gset string) w : has s w = true <-> w ∈ s.
Proof. unfold has. apply bool_decide_eq_true. Qed.

Lemma has_false (s : gset string) w : has s w = false <-> w ∉ s.
Proof. unfold has. apply bool_decide_eq_false. Qed.

Section FusionTheory.

Variable lemmatizer : Lemmatizer.
Variables targetSubs nativeSubs : list Subtitle.
Variable knownWords : gset string.
Variable language : string.
Variable service : option DeepLAPI.

Notation step := (fuseStep lemmatizer targetSubs nativeSubs knownWords
                           language service).
Notation loop := (fuseLoop lemmatizer targetSubs nativeSubs knownWords
                           language service).

(** A cue whose index string is in the processed set is skipped: the
    state does not change. *)
Lemma fuseStep_skip i cur st :
  index cur ∈ processedTargetIndices st -> step i cur st = Some st.
Proof. intros H. unfold fuseStep. by rewrite (proj2 (has_true _ _) H). Qed.

(** The overlapping target group, when it is not empty, holds the cue that
    triggered the replacement. *)
Lemma current_in_group cur st first more :
  cur ∈ targetSubs ->
  index cur ∉ processedTargetIndices st ->
  intersectingNativeSubs nativeSubs cur = first :: more ->
  overlappingTargetSubs targetSubs (processedTargetIndices st)
    (start first) (end_ (List.last more first)) <> [] ->
  cur ∈ overlappingTargetSubs targetSubs (processedTargetIndices st)
          (start first) (end_ (List.last more first)).
Proof.
  intros Hcur Hnp Hn Hne.
  assert (Hf : first ∈ intersectingNativeSubs nativeSubs cur)
    by (rewrite Hn; apply elem_of_cons; by left).
  assert (Hl : List.last more first ∈ intersectingNativeSubs nativeSubs cur)
    by (rewrite Hn; apply last_in_cons).
  apply elem_of_List_filter in Hf as [_ Hf].
  apply elem_of_List_filter in Hl as [_ Hl].
  destruct (overlappingTargetSubs _ _ _ _) as [|t ts] eqn:E; [done|].
  assert (Ht : t ∈ overlappingTargetSubs targetSubs
                 (processedTargetIndices st) (start first)
                 (end_ (List.last more first)))
    by (rewrite E; apply elem_of_cons; by left).
  apply elem_of_List_filter in Ht as [_ Ht].
  apply andb_true_iff in Ht as [_ Ht].
  rewrite <- E. apply elem_of_List_filter. split; [done|].
  apply andb_true_iff. split.
  - apply negb_true_iff, has_false. done.
  - by apply (combined_span_meets_current cur first _ t).
Qed.

(** Every iteration that returns leaves the index string of its cue in
    the processed set, removes nothing from that set, and emits at most
    one cue. *)
Lemma fuseStep_marks i cur st st' :
  cur ∈ targetSubs ->
  step i cur st = Some st' ->
  index cur ∈ processedTargetIndices st' /\
  processedTargetIndices st ⊆ processedTargetIndices st' /\
  (length (finalSubtitles st') <= S (length (finalSubtitles st)))%nat.
Proof.
  intros Hcur. unfold fuseStep.
  destruct (has (processedTargetIndices st) (index cur)) eqn:Hh.
  { intros H. inversion H; subst. apply has_true in Hh. split; [done|].
    split; [done|lia]. }
  apply has_false in Hh.
  assert (Hkeep : forall s, s = keep cur st ->
            index cur ∈ processedTargetIndices s /\
            processedTargetIndices st ⊆ processedTargetIndices s /\
            (length (finalSubtitles s) <= S (length (finalSubtitles st)))%nat).
  { intros s ->. simpl. rewrite length_app. simpl.
    split; [set_solver|]. split; [set_solver|lia]. }
  assert (Hmulti : forall s, s = multiCueReplace targetSubs nativeSubs cur st ->
            index cur ∈ processedTargetIndices s /\
            processedTargetIndices st ⊆ processedTargetIndices s /\
            (length (finalSubtitles s) <= S (length (finalSubtitles st)))%nat).
  { intros s ->. unfold multiCueReplace.
    destruct (intersectingNativeSubs nativeSubs cur) as [|first more] eqn:En;
      [by apply Hkeep|].
    cbn [combinedNativeSub].
    pose proof (current_in_group cur st first more Hcur Hh En) as Hin.
    destruct (overlappingTargetSubs _ _ _ _) as [|ft mt] eqn:Eo;
      [by apply Hkeep|].
    cbn [markAllProcessed addReplaced push processedTargetIndices
         finalSubtitles].
    rewrite length_app. simpl length.
    split; [|split; [set_solver|lia]].
    apply elem_of_union; left. apply elem_of_list_to_set.
    apply list_elem_of_fmap. exists cur. split; [done|]. by apply Hin. }
  destruct (unknownWordsOf lemmatizer knownWords language cur)
    as [[|w [|w' ws]]|]; [| | |done].
  - intros H. inversion H. by apply Hkeep.
  - destruct service as [api|]; intros H; inversion H; [|by apply Hmulti].
    unfold inlineTranslation.
    destruct (processSubtitleWithInlineTranslation _ _ _ _ _ _)
      as [rt [] err]; cbn [translationApplied error].
    + simpl. rewrite length_app. simpl.
      split; [set_solver|]. split; [set_solver|lia].
    + assert (Hpush : forall s, s = push cur st ->
                index cur ∈ processedTargetIndices
                              (markProcessed (index cur) s) /\
                processedTargetIndices st ⊆
                  processedTargetIndices (markProcessed (index cur) s) /\
                (length (finalSubtitles (markProcessed (index cur) s))
                 <= S (length (finalSubtitles st)))%nat).
      { intros s ->. simpl. rewrite length_app. simpl.
        split; [set_solver|]. split; [set_solver|lia]. }
      destruct err as [message|]; [|by apply Hpush].
      destruct (Js.isEmpty message); [by apply Hpush|].
      unfold singleCueFallback.
      destruct (intersectingNativeSubs nativeSubs cur) as [|first more].
      * simpl. rewrite length_app. simpl.
        split; [set_solver|]. split; [set_solver|lia].
      * simpl. rewrite length_app. simpl.
        split; [set_solver|]. split; [set_solver|lia].
  - intros H. inversion H. by apply Hmulti.
Qed.

Lemma fuseLoop_marks rest :
  forall i st st',
    (forall c, c ∈ rest -> c ∈ targetSubs) ->
    loop i rest st = Some st' ->
    processedTargetIndices st ⊆ processedTargetIndices st' /\
    (forall c, c ∈ rest -> index c ∈ processedTargetIndices st') /\
    (length (finalSubtitles st')
     <= length (finalSubtitles st) + length rest)%nat.
Proof.
  induction rest as [|cur rest IH]; intros i st st' Hin H; simpl in H.
  - inversion H; subst. split; [done|]. split; [|simpl; lia].
    intros c Hc. by apply elem_of_nil in Hc.
  - destruct (step i cur st) as [st1|] eqn:E; [|done].
    destruct (fuseStep_marks i cur st st1) as (H1 & H2 & H3); auto.
    { apply Hin, elem_of_cons; by left. }
    destruct (IH (S i) st1 st') as (H4 & H5 & H6); auto.
    { intros c Hc. apply Hin, elem_of_cons; by right. }
    split; [set_solver|]. split; [|simpl; lia].
    intros c Hc. apply elem_of_cons in Hc as [->|Hc]; [set_solver|auto].
Qed.

Lemma fuseLoop_app pre :
  forall i rest st,
    loop i (pre ++ rest) st =
    match loop i pre st with
    | Some st1 => loop (i + length pre) rest st1
    | None => None
    end.
Proof.
  induction pre as [|c pre IH]; intros i rest st; simpl.
  - by rewrite Nat.add_0_r.
  - destruct (step i c st) as [st1|]; [|done].
    rewrite IH. by rewrite Nat.add_succ_r.
Qed.

End FusionTheory.

(** *** Completion and re-indexing *)

Lemma reIndex_length subs : length (reIndex subs) = length subs.
Proof. unfold reIndex. apply length_imap. Qed.

Lemma reIndex_lookup subs i s :
  reIndex subs !! i = Some s -> index s = Js.ofNat (i + 1).
Proof.
  unfold reIndex. rewrite list_lookup_imap.
  destruct (subs !! i); simpl; [|done]. intros H. by inversion H.
Qed.

(** X12. When [fuseSubtitles] returns, the hybrid track has at most as many
    cues as the target track, numbered from 1 in the order of emission. *)
Lemma fuse_result_shape lemmatizer targetSubs nativeSubs knownWords language
    enableInlineTranslation deeplAPI r :
  fuseSubtitles lemmatizer targetSubs nativeSubs knownWords language
                enableInlineTranslation deeplAPI = Some r ->
  (length (hybrid r) <= length targetSubs)%nat /\
  forall i s, hybrid r !! i = Some s -> index s = Js.ofNat (i + 1).
Proof.
  unfold fuseSubtitles.
  destruct (fuseLoop _ _ _ _ _ _ _ _ _) as [st|] eqn:E; [|done].
  intros H. inversion H; subst; simpl. split.
  - rewrite reIndex_length.
    apply fuseLoop_marks in E as (_ & _ & Hlen); [simpl in Hlen; lia|done].
  - apply reIndex_lookup.
Qed.

Lemma unknownWordsFrom_returns knownWords language sentence originalWords
    lemmas :
  language <> "en" ->
  forall j, is_Some (unknownWordsFrom knownWords language sentence
                                      originalWords j lemmas).
Proof.
  intros Hl. induction lemmas as [|w r IH]; intros j; simpl; [by eexists|].
  rewrite isWordKnown_no_contractions by done.
  destruct (IH (S j)) as [u ->]. by eexists.
Qed.

(** X11. Outside English, [fuseSubtitles] returns on every input. *)
Lemma fuse_returns_outside_english lemmatizer targetSubs nativeSubs
    knownWords language enableInlineTranslation deeplAPI :
  language <> "en" ->
  is_Some (fuseSubtitles lemmatizer targetSubs nativeSubs knownWords language
                         enableInlineTranslation deeplAPI).
Proof.
  intros Hl. unfold fuseSubtitles.
  set (service := if enableInlineTranslation then deeplAPI else None).
  assert (Hloop : forall rest i st,
            is_Some (fuseLoop lemmatizer targetSubs nativeSubs knownWords
                              language service i rest st)).
  { induction rest as [|cur rest IH]; intros i st; simpl; [by eexists|].
    assert (is_Some (fuseStep lemmatizer targetSubs nativeSubs knownWords
                              language service i cur st)) as [st1 ->];
      [|apply IH].
    unfold fuseStep. destruct (has _ _); [by eexists|].
    unfold unknownWordsOf.
    destruct (unknownWordsFrom_returns knownWords language (text cur)
                (Js.splitSpaces (stripHtml (text cur)))
                (lemmatizeSingleLine lemmatizer
                   (Js.join " " (normalizeWords (stripHtml (text cur))))
                   language) Hl 0%nat) as [u ->].
    destruct u as [|w [|w' ws]]; [by eexists| |by eexists].
    destruct service; by eexists. }
  destruct (Hloop targetSubs 0%nat initialState) as [st ->]. by eexists.
Qed.

(** C4. [fuseSubtitles] does not return on every input: in English, on
    a target cue with the word [constructor], not known, the lookup in
    the contraction table finds the member [constructor] that every
    object inherits, the call of [every] on it throws, and nothing
    catches it.  The same input in French returns the cue unchanged. *)
Theorem fuse_aborts_on_inherited_key :
  let t := cue "1" "00:00:01,200" "00:00:02,000" "constructor" in
  unknownWordsOf echoLemmatizer ∅ "en" t = None /\
  fuseSubtitles echoLemmatizer [t] [] ∅ "en" false None = None /\
  hybrid <$> fuseSubtitles echoLemmatizer [t] [] ∅ "fr" false None = Some [t].
Proof. vm_compute. repeat split; reflexivity. Qed.

(** *** Consumption by index string *)

(** C10. The processed set holds index strings.  A cue whose index
    string is in the set is skipped by its own iteration and is left out
    of every re-scan of the target track, whichever cue put the string
    there.  Hence, for two cues of the target track with one index
    string, the iteration of the later one changes nothing: the run is
    the run without that iteration.  Two known cues with the index
    string [1] yield one output cue; the second is lost. *)
Theorem duplicate_index_is_skipped :
  (forall lemmatizer targetSubs nativeSubs knownWords language service
          i c c' st combinedStart combinedEnd,
      index c = index c' ->
      index c ∈ processedTargetIndices st ->
      fuseStep lemmatizer targetSubs nativeSubs knownWords language service
               i c' st = Some st /\
      c' ∉ overlappingTargetSubs targetSubs (processedTargetIndices st)
             combinedStart combinedEnd) /\
  (forall lemmatizer nativeSubs knownWords language service
          pre c1 mid c2 post final,
      let targetSubs := pre ++ c1 :: mid ++ c2 :: post in
      let run := fuseLoop lemmatizer targetSubs nativeSubs knownWords
                          language service in
      index c1 = index c2 ->
      run 0%nat targetSubs initialState = Some final ->
      exists st,
        run 0%nat (pre ++ c1 :: mid) initialState = Some st /\
        index c2 ∈ processedTargetIndices st /\
        fuseStep lemmatizer targetSubs nativeSubs knownWords language service
                 (length (pre ++ c1 :: mid)) c2 st = Some st /\
        run (S (length (pre ++ c1 :: mid))) post st = Some final) /\
  hybrid <$> fuseSubtitles echoLemmatizer
               [cue "1" "00:00:01,000" "00:00:02,000" "the";
                cue "1" "00:00:03,000" "00:00:04,000" "the the"]
               [] {["the"]} "fr" false None
    = Some [cue "1" "00:00:01,000" "00:00:02,000" "the"].
Proof.
  split; [|split].
  - intros lemmatizer targetSubs nativeSubs knownWords language service
           i c c' st cs ce E Hin.
    rewrite E in Hin. split; [by apply fuseStep_skip|].
    intros Hc. apply elem_of_List_filter in Hc as [_ Hc].
    apply andb_true_iff in Hc as [Hc _].
    apply negb_true_iff, has_false in Hc. done.
  - intros lemmatizer nativeSubs knownWords language service
           pre c1 mid c2 post final targetSubs run E Hrun.
    unfold run, targetSubs in Hrun.
    change (pre ++ c1 :: mid ++ c2 :: post)
      with (pre ++ (c1 :: mid) ++ c2 :: post) in Hrun at 2.
    rewrite app_assoc, fuseLoop_app in Hrun.
    fold targetSubs in Hrun. fold run in Hrun.
    destruct (run 0%nat ((pre ++ c1 :: mid)) initialState) as [st|] eqn:Ep;
      [|done].
    exists st. split; [done|].
    assert (Hin : index c2 ∈ processedTargetIndices st).
    { rewrite <- E.
      apply (fuseLoop_marks lemmatizer targetSubs nativeSubs knownWords
               language service (pre ++ c1 :: mid) 0%nat initialState st).
      - intros c Hc. unfold targetSubs.
        apply elem_of_app in Hc as [Hc|Hc];
          [apply elem_of_app; by left|].
        apply elem_of_app; right.
        apply elem_of_cons in Hc as [->|Hc]; [apply elem_of_cons; by left|].
        apply elem_of_cons; right. apply elem_of_app; by left.
      - exact Ep.
      - apply elem_of_app; right. apply elem_of_cons; by left. }
    split; [done|].
    assert (Hs : fuseStep lemmatizer targetSubs nativeSubs knownWords
                   language service (length (pre ++ c1 :: mid)) c2 st
                 = Some st) by (by apply fuseStep_skip).
    split; [done|].
    simpl in Hrun. unfold run in Hrun. cbn [fuseLoop] in Hrun.
    rewrite Hs in Hrun. exact Hrun.
  - vm_compute. reflexivity.
Qed.

Lemma duplicate_index_is_skipped_witness :
  let c1 := cue "1" "00:00:01,000" "00:00:02,000" "the" in
  let c2 := cue "1" "00:00:03,000" "00:00:04,000" "zorglub schtroumpf" in
  let st := keep c1 initialState in
  (index c1 = index c2 /\
   index c1 ∈ processedTargetIndices st /\
   fuseStep echoLemmatizer [c1; c2] [] {["the"]} "fr" None 1 c2 st = Some st /\
   c2 ∉ overlappingTargetSubs [c1; c2] (processedTargetIndices st)
          "00:00:00,000" "00:00:09,000") /\
  (index c1 = index c2 /\
   fuseLoop echoLemmatizer [c1; c2] [] {["the"]} "fr" None 0 [c1; c2]
            initialState = Some st /\
   exists st',
     fuseLoop echoLemmatizer [c1; c2] [] {["the"]} "fr" None 0 [c1]
              initialState = Some st' /\
     index c2 ∈ processedTargetIndices st' /\
     fuseStep echoLemmatizer [c1; c2] [] {["the"]} "fr" None 1 c2 st'
       = Some st' /\
     fuseLoop echoLemmatizer [c1; c2] [] {["the"]} "fr" None 2 [] st'
       = Some st).
Proof.
  intros c1 c2 st.
  assert (E : index c1 = index c2) by reflexivity.
  assert (Hin : index c1 ∈ processedTargetIndices st)
    by (apply has_true; vm_compute; reflexivity).
  assert (Hrun : fuseLoop echoLemmatizer ([] ++ c1 :: [] ++ c2 :: [])
                   [] {["the"]} "fr" None 0 ([] ++ c1 :: [] ++ c2 :: [])
                   initialState = Some st)
    by (vm_compute; reflexivity).
  split.
  - split; [exact E|]. split; [exact Hin|].
    exact (proj1 duplicate_index_is_skipped echoLemmatizer [c1; c2] []
                 {["the"]} "fr" None 1%nat c1 c2 st
                 "00:00:00,000" "00:00:09,000" E Hin).
  - split; [exact E|]. split; [exact Hrun|].
    exact (proj1 (proj2 duplicate_index_is_skipped) echoLemmatizer []
                 {["the"]} "fr" None [] c1 [] c2 [] st E Hrun).
Defined.

(** *** Replacement by the native cues *)

(** The multi-cue branch. For an unprocessed target cue with two or more
    unknown words: when no native cue meets the interval of the cue, or no
    unprocessed target cue meets the combined native span, the cue is
    emitted unchanged and it alone is marked processed; otherwise one
    replacement cue is emitted, its text is the combined native text, its
    start and its end are the start and the end of cues of the
    overlapping target group, its span is from the earliest start to the
    latest end of that group when the first cue of the group starts
    earliest and the last one ends latest, the group holds the cue itself
    and every cue of the group is marked processed.  In the scenario of
    one native cue over two target cues, the second without an unknown
    word, the output is the single cue from the start of the first to the
    end of the second with the native text, and both cues are marked. *)
Theorem multi_cue_replace_rule :
  (forall lemmatizer targetSubs nativeSubs knownWords language service
          i cur st w1 w2 ws first more,
      let group :=
        overlappingTargetSubs targetSubs (processedTargetIndices st)
          (start first) (end_ (List.last more first)) in
      cur ∈ targetSubs ->
      index cur ∉ processedTargetIndices st ->
      unknownWordsOf lemmatizer knownWords language cur
        = Some (w1 :: w2 :: ws) ->
      intersectingNativeSubs nativeSubs cur = first :: more ->
      group <> [] ->
      exists r st',
        fuseStep lemmatizer targetSubs nativeSubs knownWords language service
                 i cur st = Some st' /\
        finalSubtitles st' = finalSubtitles st ++ [r] /\
        text r = Js.join newline (map text (first :: more)) /\
        (exists t1 t2, t1 ∈ group /\ t2 ∈ group /\
                       start r = start t1 /\ end_ r = end_ t2) /\
        ((forall t, t ∈ group ->
                    srtTimeToMs (start (List.hd cur group))
                    <= srtTimeToMs (start t)) ->
         (forall t, t ∈ group ->
                    srtTimeToMs (end_ t)
                    <= srtTimeToMs (end_ (List.last group cur))) ->
         forall t, t ∈ group ->
                   srtTimeToMs (start r) <= srtTimeToMs (start t) /\
                   srtTimeToMs (end_ t) <= srtTimeToMs (end_ r)) /\
        cur ∈ group /\
        processedTargetIndices st' =
          list_to_set (map index group) ∪ processedTargetIndices st /\
        replacedCount st' = (replacedCount st + length group)%nat) /\
  (forall lemmatizer targetSubs nativeSubs knownWords language service
          i cur st w1 w2 ws,
      index cur ∉ processedTargetIndices st ->
      unknownWordsOf lemmatizer knownWords language cur
        = Some (w1 :: w2 :: ws) ->
      (intersectingNativeSubs nativeSubs cur = [] \/
       exists first more,
         intersectingNativeSubs nativeSubs cur = first :: more /\
         overlappingTargetSubs targetSubs (processedTargetIndices st)
           (start first) (end_ (List.last more first)) = []) ->
      fuseStep lemmatizer targetSubs nativeSubs knownWords language service
               i cur st = Some (keep cur st)) /\
  (let t1 := cue "1" "00:00:01,200" "00:00:02,000" "zorglub schtroumpf" in
   let t2 := cue "2" "00:00:02,100" "00:00:03,800" "the" in
   let n := cue "1" "00:00:01,000" "00:00:04,000" "Bonjour" in
   unknownWordsOf echoLemmatizer {["the"]} "fr" t1
     = Some ["zorglub"; "schtroumpf"] /\
   unknownWordsOf echoLemmatizer {["the"]} "fr" t2 = Some [] /\
   (exists st,
      fuseLoop echoLemmatizer [t1; t2] [n] {["the"]} "fr" None 0 [t1; t2]
               initialState = Some st /\
      finalSubtitles st = [cue "" "00:00:01,200" "00:00:03,800" "Bonjour"] /\
      has (processedTargetIndices st) "1" = true /\
      has (processedTargetIndices st) "2" = true) /\
   hybrid <$> fuseSubtitles echoLemmatizer [t1; t2] [n] {["the"]} "fr"
                            false None
     = Some [cue "1" "00:00:01,200" "00:00:03,800" "Bonjour"]).
Proof.
  split; [|split].
  - intros lemmatizer targetSubs nativeSubs knownWords language service
           i cur st w1 w2 ws first more group Hcur Hnp Hu Hn Hne.
    pose proof (current_in_group targetSubs nativeSubs cur st first more
                  Hcur Hnp Hn Hne) as Hin.
    fold group in Hin.
    unfold fuseStep. rewrite (proj2 (has_false _ _) Hnp), Hu.
    unfold multiCueReplace. rewrite Hn. cbn [combinedNativeSub].
    fold group. destruct group as [|ft mt] eqn:Eg; [done|].
    eexists. eexists. split; [reflexivity|].
    cbn [markAllProcessed addReplaced push finalSubtitles
         processedTargetIndices replacedCount text start end_].
    split; [reflexivity|]. split; [reflexivity|]. split; [|split].
    + exists ft, (List.last mt ft). split; [apply elem_of_cons; by left|].
      split; [apply last_in_cons|]. done.
    + intros Hmin Hmax t Ht. split.
      * apply (Hmin t Ht).
      * specialize (Hmax t Ht). cbn [List.last] in Hmax.
        destruct mt as [|m mt']; [exact Hmax|].
        rewrite (last_indep_sub _ cur ft) in Hmax; done.
    + split; [exact Hin|]. split; reflexivity.
  - intros lemmatizer targetSubs nativeSubs knownWords language service
           i cur st w1 w2 ws Hnp Hu Hno.
    unfold fuseStep. rewrite (proj2 (has_false _ _) Hnp), Hu.
    unfold multiCueReplace.
    destruct Hno as [->|(first & more & -> & Ho)]; [done|].
    cbn [combinedNativeSub]. by rewrite Ho.
  - vm_compute. split; [reflexivity|]. split; [reflexivity|].
    split; [|reflexivity].
    eexists. repeat split; reflexivity.
Qed.

(** A target cue with two unknown words that no native cue meets is not
    replaced; it is emitted with its own text. *)
Lemma replace_needs_native_overlap :
  let t := cue "1" "00:00:01,200" "00:00:02,000" "zorglub schtroumpf" in
  let n := cue "1" "00:00:05,000" "00:00:09,000" "Bonjour" in
  unknownWordsOf echoLemmatizer ∅ "fr" t = Some ["zorglub"; "schtroumpf"] /\
  intersectingNativeSubs [n] t = [] /\
  fuseStep echoLemmatizer [t] [n] ∅ "fr" None 0 t initialState
    = Some (keep t initialState) /\
  finalSubtitles (keep t initialState) = [t] /\
  text t <> Js.join newline (map text (intersectingNativeSubs [n] t)) /\
  hybrid <$> fuseSubtitles echoLemmatizer [t] [n] ∅ "fr" false None
    = Some [t].
Proof.
  intros t n. split; [vm_compute; reflexivity|].
  split; [vm_compute; reflexivity|]. split; [vm_compute; reflexivity|].
  split; [reflexivity|]. split; [vm_compute; discriminate|].
  vm_compute. reflexivity.
Qed.

Lemma multi_cue_replace_rule_witness :
  let t1 := cue "1" "00:00:01,200" "00:00:02,000" "zorglub schtroumpf" in
  let t2 := cue "2" "00:00:02,100" "00:00:03,800" "the" in
  let n := cue "1" "00:00:01,000" "00:00:04,000" "Bonjour" in
  let far := cue "1" "00:00:05,000" "00:00:09,000" "Bonjour" in
  let group :=
    overlappingTargetSubs [t1; t2] (processedTargetIndices initialState)
      (start n) (end_ (List.last [] n)) in
  (t1 ∈ [t1; t2] /\
   index t1 ∉ processedTargetIndices initialState /\
   unknownWordsOf echoLemmatizer {["the"]} "fr" t1
     = Some ["zorglub"; "schtroumpf"] /\
   intersectingNativeSubs [n] t1 = [n] /\
   group <> [] /\
   exists r st',
     fuseStep echoLemmatizer [t1; t2] [n] {["the"]} "fr" None 0 t1
              initialState = Some st' /\
     finalSubtitles st' = finalSubtitles initialState ++ [r] /\
     text r = Js.join newline (map text [n]) /\
     (exists u1 u2, u1 ∈ group /\ u2 ∈ group /\
                    start r = start u1 /\ end_ r = end_ u2) /\
     ((forall t, t ∈ group ->
                 srtTimeToMs (start (List.hd t1 group))
                 <= srtTimeToMs (start t)) ->
      (forall t, t ∈ group ->
                 srtTimeToMs (end_ t)
                 <= srtTimeToMs (end_ (List.last group t1))) ->
      forall t, t ∈ group ->
                srtTimeToMs (start r) <= srtTimeToMs (start t) /\
                srtTimeToMs (end_ t) <= srtTimeToMs (end_ r)) /\
     t1 ∈ group /\
     processedTargetIndices st' =
       list_to_set (map index group) ∪ processedTargetIndices initialState /\
     replacedCount st' = (replacedCount initialState + length group)%nat) /\
  (index t1 ∉ processedTargetIndices initialState /\
   intersectingNativeSubs [far] t1 = [] /\
   fuseStep echoLemmatizer [t1; t2] [far] {["the"]} "fr" None 0 t1
            initialState = Some (keep t1 initialState)).
Proof.
  intros t1 t2 n far group.
  assert (Hin : t1 ∈ [t1; t2]) by (apply elem_of_cons; by left).
  assert (Hnp : index t1 ∉ processedTargetIndices initialState)
    by (apply has_false; vm_compute; reflexivity).
  assert (Hu : unknownWordsOf echoLemmatizer {["the"]} "fr" t1
               = Some ["zorglub"; "schtroumpf"]) by (vm_compute; reflexivity).
  assert (Hn : intersectingNativeSubs [n] t1 = [n])
    by (vm_compute; reflexivity).
  assert (Hg : group <> []) by (vm_compute; discriminate).
  assert (Hfar : intersectingNativeSubs [far] t1 = [])
    by (vm_compute; reflexivity).
  split.
  - split; [exact Hin|]. split; [exact Hnp|]. split; [exact Hu|].
    split; [exact Hn|]. split; [exact Hg|].
    exact (proj1 multi_cue_replace_rule echoLemmatizer [t1; t2] [n]
                 {["the"]} "fr" None 0%nat t1 initialState
                 "zorglub" "schtroumpf" [] n [] Hin Hnp Hu Hn Hg).
  - split; [exact Hnp|]. split; [exact Hfar|].
    exact (proj1 (proj2 multi_cue_replace_rule) echoLemmatizer [t1; t2]
                 [far] {["the"]} "fr" None 0%nat t1 initialState
                 "zorglub" "schtroumpf" [] Hnp Hu (or_introl Hfar)).
Defined.

(** C1. The replacement cue ends where the last cue of the overlapping
    target group, in track order, ends; that is not the latest end of
    the group when an earlier cue outlasts it.  A target cue from 1.2 s
    to 8 s with two unknown words, followed by a target cue from 2.1 s
    to 3.8 s without one, under a native cue from 1 s to 9 s: the group
    is the two cues, both are replaced by one cue with the native text,
    and that cue runs from 1.2 s to 3.8 s, not to 8 s.  In the scenario
    of the claim the last cue of the group ends latest, and the output
    is the cue from 1.2 s to 3.8 s. *)
Theorem replacement_span_misses_latest_end :
  let t1 := cue "1" "00:00:01,200" "00:00:08,000" "zorglub schtroumpf" in
  let t2 := cue "2" "00:00:02,100" "00:00:03,800" "the" in
  let n := cue "1" "00:00:01,000" "00:00:09,000" "Bonjour" in
  let s1 := cue "1" "00:00:01,200" "00:00:02,000" "zorglub schtroumpf" in
  let sn := cue "1" "00:00:01,000" "00:00:04,000" "Bonjour" in
  unknownWordsOf echoLemmatizer {["the"]} "fr" t1
    = Some ["zorglub"; "schtroumpf"] /\
  unknownWordsOf echoLemmatizer {["the"]} "fr" t2 = Some [] /\
  intersectingNativeSubs [n] t1 = [n] /\
  overlappingTargetSubs [t1; t2] ∅ (start n) (end_ n) = [t1; t2] /\
  fuseSubtitles echoLemmatizer [t1; t2] [n] {["the"]} "fr" false None
  = Some {| hybrid := [cue "1" "00:00:01,200" "00:00:03,800" "Bonjour"];
            resReplacedCount := 2; resReplacedWithOneUnknown := 0;
            resInlineTranslationCount := 0; resErrorCount := 0;
            resTranslatedWords := ∅ |} /\
  srtTimeToMs "00:00:03,800" = 3800 /\
  Z.max (srtTimeToMs (end_ t1)) (srtTimeToMs (end_ t2)) = 8000 /\
  hybrid <$> fuseSubtitles echoLemmatizer [s1; t2] [sn] {["the"]} "fr"
                           false None
  = Some [cue "1" "00:00:01,200" "00:00:03,800" "Bonjour"].
Proof.
  intros t1 t2 n s1 sn.
  do 7 (split; [vm_compute; reflexivity|]). vm_compute. reflexivity.
Qed.

Lemma merge_groups_are_components_witness :
  let s := [cue "1" "00:00:00,000" "00:00:01,000" "A";
            cue "2" "00:00:00,999" "00:00:02,000" "B";
            cue "3" "00:00:05,000" "00:00:06,000" "C"] in
  (0 < length s)%nat /\ (1 < length s)%nat /\
  exists st,
    mergeRun s = Some st /\
    (sameGroup (groups st) 0 1 <-> rtc (overlapAt s) 0%nat 1%nat).
Proof.
  intros s.
  assert (H0 : (0 < length s)%nat) by (simpl; lia).
  assert (H1 : (1 < length s)%nat) by (simpl; lia).
  split; [exact H0|]. split; [exact H1|].
  destruct (merge_groups_are_components s) as (st & Hrun & _ & H).
  exists st. split; [exact Hrun|]. exact (H 0%nat 1%nat H0 H1).
Defined.

(** * Further properties of the code *)

(** ** Timestamps *)

Lemma takeWhile_all p s : Js.allChars p s = true -> Js.takeWhile p s = s.
Proof.
  induction s as [|c r IH]; simpl; [done|].
  intros H. apply andb_true_iff in H as [Hc Hr]. rewrite Hc. by rewrite IH.
Qed.

Lemma digit_is_plain c :
  Js.isDigit c = true ->
  isTimeSep c = false /\ Js.isSpace c = false.
Proof.
  destruct c as [[] [] [] [] [] [] [] []]; vm_compute; intros H;
    try discriminate H; split; reflexivity.
Qed.

Lemma parseIntString_digits c r :
  Js.isDigit c = true -> Js.allChars Js.isDigit r = true ->
  Js.parseIntString (String c r) = Some (Js.digitsValue 0 (String c r)).
Proof.
  intros Hc Hr. unfold Js.parseIntString.
  destruct (digit_is_plain c Hc) as [_ Hs].
  cbn [Js.dropWhile]. rewrite Hs.
  assert (Hsign : match String c r with
                  | String "-" r0 => (true, r0)
                  | String "+" r0 => (false, r0)
                  | _ => (false, String c r)
                  end = (false, String c r)).
  { destruct c as [[] [] [] [] [] [] [] []]; try reflexivity;
      vm_compute in Hc; discriminate Hc. }
  rewrite Hsign. cbn [Js.takeWhile]. rewrite Hc, (takeWhile_all _ _ Hr).
  reflexivity.
Qed.

Lemma splitOn_digits s :
  Js.allChars Js.isDigit s = true -> Js.splitOn isTimeSep s = [s].
Proof.
  induction s as [|c r IH]; simpl; [done|].
  intros H. apply andb_true_iff in H as [Hc Hr].
  destruct (digit_is_plain c Hc) as [-> _]. by rewrite (IH Hr).
Qed.

Lemma splitOn_digits_sep a c b :
  Js.allChars Js.isDigit a = true -> isTimeSep c = true ->
  Js.splitOn isTimeSep (a +:+ String c b) = a :: Js.splitOn isTimeSep b.
Proof.
  intros Ha Hc. induction a as [|d r IH]; simpl.
  - by rewrite Hc.
  - simpl in Ha. apply andb_true_iff in Ha as [Hd Hr].
    destruct (digit_is_plain d Hd) as [-> _]. by rewrite (IH Hr).
Qed.

(** X1. A time made of four runs of digits, separated by colons or commas,
    is worth hours, minutes, seconds and milliseconds, with no padding
    and no bound on a field, as long as that value is below [2 ^ 53],
    where every number of the computation is held exactly. *)
Theorem srtTimeToMs_numerals (h m s ms : string) (c1 c2 c3 : ascii) :
  isNumeral h -> isNumeral m -> isNumeral s -> isNumeral ms ->
  isTimeSep c1 = true -> isTimeSep c2 = true -> isTimeSep c3 = true ->
  Js.digitsValue 0 h * 3600000 + Js.digitsValue 0 m * 60000
  + Js.digitsValue 0 s * 1000 + Js.digitsValue 0 ms < 2 ^ 53 ->
  srtTimeToMs (h +:+ String c1 (m +:+ String c2 (s +:+ String c3 ms))) =
    Js.digitsValue 0 h * 3600000 + Js.digitsValue 0 m * 60000
    + Js.digitsValue 0 s * 1000 + Js.digitsValue 0 ms.
Proof.
  intros [Hh Hh'] [Hm Hm'] [Hs Hs'] [Hms Hms'] H1 H2 H3 _.
  unfold srtTimeToMs.
  rewrite !splitOn_digits_sep, splitOn_digits by done.
  cbn [lookup list_lookup Js.parseInt].
  destruct h as [|ch rh]; [done|]. destruct m as [|cm rm]; [done|].
  destruct s as [|cs rs]; [done|]. destruct ms as [|cms rms]; [done|].
  simpl in Hh', Hm', Hs', Hms'.
  apply andb_true_iff in Hh' as [? ?]. apply andb_true_iff in Hm' as [? ?].
  apply andb_true_iff in Hs' as [? ?]. apply andb_true_iff in Hms' as [? ?].
  by rewrite !parseIntString_digits.
Qed.

Lemma srtTimeToMs_numerals_witness :
  isNumeral "1" /\ isNumeral "02" /\ isNumeral "3" /\ isNumeral "0045" /\
  isTimeSep ":" = true /\ isTimeSep "," = true /\
  Js.digitsValue 0 "1" * 3600000 + Js.digitsValue 0 "02" * 60000
  + Js.digitsValue 0 "3" * 1000 + Js.digitsValue 0 "0045" < 2 ^ 53 /\
  srtTimeToMs "1:02,3:0045" = 3723045 /\
  srtTimeToMs "1:02,3:0045" =
    Js.digitsValue 0 "1" * 3600000 + Js.digitsValue 0 "02" * 60000
    + Js.digitsValue 0 "3" * 1000 + Js.digitsValue 0 "0045".
Proof.
  assert (N : forall s, s <> EmptyString ->
                        Js.allChars Js.isDigit s = true -> isNumeral s)
    by (intros s H1 H2; split; assumption).
  assert (H1 : isNumeral "1") by (apply N; [discriminate|reflexivity]).
  assert (H2 : isNumeral "02") by (apply N; [discriminate|reflexivity]).
  assert (H3 : isNumeral "3") by (apply N; [discriminate|reflexivity]).
  assert (H4 : isNumeral "0045") by (apply N; [discriminate|reflexivity]).
  split; [exact H1|]. split; [exact H2|]. split; [exact H3|].
  assert (H5 : Js.digitsValue 0 "1" * 3600000 + Js.digitsValue 0 "02" * 60000
               + Js.digitsValue 0 "3" * 1000 + Js.digitsValue 0 "0045"
               < 2 ^ 53) by (vm_compute; reflexivity).
  split; [exact H4|]. split; [reflexivity|]. split; [reflexivity|].
  split; [exact H5|]. split; [reflexivity|].
  exact (srtTimeToMs_numerals "1" "02" "3" "0045" ":" "," ":"
           H1 H2 H3 H4 eq_refl eq_refl eq_refl H5).
Defined.

(** X2. A time with fewer than four fields is worth 0. *)
Theorem srtTimeToMs_missing_field (time : string) :
  (length (Js.splitOn isTimeSep time) < 4)%nat -> srtTimeToMs time = 0.
Proof.
  intros H. unfold srtTimeToMs.
  rewrite (lookup_ge_None_2 (Js.splitOn isTimeSep time) 3) by lia.
  set (parts := Js.splitOn isTimeSep time).
  destruct (Js.parseInt (parts !! 0%nat)); [|done].
  destruct (Js.parseInt (parts !! 1%nat)); [|done].
  destruct (Js.parseInt (parts !! 2%nat)); done.
Qed.

Lemma srtTimeToMs_missing_field_witness :
  (length (Js.splitOn isTimeSep "00:01:03") < 4)%nat /\
  srtTimeToMs "00:01:03" = 0.
Proof.
  assert (H : (length (Js.splitOn isTimeSep "00:01:03") < 4)%nat)
    by (vm_compute; lia).
  split; [exact H|]. exact (srtTimeToMs_missing_field "00:01:03" H).
Defined.

(** ** The overlap predicate *)

(** X3. The predicate does not depend on the order of the two intervals. *)
Theorem hasIntersection_symmetric (start1 end1 start2 end2 : string) :
  hasIntersection start1 end1 start2 end2 =
  hasIntersection start2 end2 start1 end1.
Proof.
  unfold hasIntersection.
  by rewrite (Z.max_comm (srtTimeToMs start1)),
             (Z.min_comm (srtTimeToMs end1)).
Qed.

(** X4. Two intervals that intersect both last more than 500 ms. *)
Theorem hasIntersection_long (start1 end1 start2 end2 : string) :
  hasIntersection start1 end1 start2 end2 = true ->
  500 < srtTimeToMs end1 - srtTimeToMs start1 /\
  500 < srtTimeToMs end2 - srtTimeToMs start2.
Proof. rewrite hasIntersection_true. lia. Qed.

Lemma hasIntersection_long_witness :
  hasIntersection "00:00:00,000" "00:00:01,000"
                  "00:00:00,400" "00:00:01,600" = true /\
  500 < srtTimeToMs "00:00:01,000" - srtTimeToMs "00:00:00,000" /\
  500 < srtTimeToMs "00:00:01,600" - srtTimeToMs "00:00:00,400".
Proof.
  split; [reflexivity|].
  exact (hasIntersection_long "00:00:00,000" "00:00:01,000"
           "00:00:00,400" "00:00:01,600" eq_refl).
Defined.

(** ** The overlap merger *)

Lemma merged_cue_span subtitles st i m :
  MergeInv (withMs subtitles) (withMs subtitles) st ->
  merged st !! i = Some m ->
  exists g, groups st !! i = Some g /\ g <> [] /\
            (forall x, x ∈ g -> x ∈ withMs subtitles) /\
            forall c, srtTimeToMs (start m) = startMs (List.hd c g) /\
                      srtTimeToMs (end_ m) = endMs (List.last g c).
Proof.
  intros Inv Hm.
  destruct (Forall2_lookup_l _ _ _ _ _ (inv_merged _ _ _ Inv) Hm)
    as (g & Hg & Hmg).
  assert (Hgin : g ∈ groups st) by (apply list_elem_of_lookup; eauto).
  destruct (inv_sorted _ _ _ Inv g Hgin) as [Hne _].
  assert (Hall : forall x, x ∈ g -> x ∈ withMs subtitles).
  { intros x Hx. apply (inv_members _ _ _ Inv), elem_of_concat. eauto. }
  exists g. split; [done|]. split; [done|]. split; [done|]. intros c.
  destruct (withMs_elem _ _ (Hall _ (hd_elem c g Hne))) as (_ & Hs & _).
  destruct (withMs_elem _ _ (Hall _ (last_elem c g Hne))) as (_ & _ & He).
  rewrite Hs, He, (Hmg c). done.
Qed.

(** X6. On a track whose cues all have a start that is not later than their
    end, the merged cues have that property too, and no two of them
    share a positive duration. *)
Theorem merge_output_disjoint (subtitles : list Subtitle) :
  Forall (fun s => srtTimeToMs (start s) <= srtTimeToMs (end_ s)) subtitles ->
  exists out,
    mergeOverlappingSubtitles subtitles = Some out /\
    Forall (fun s => srtTimeToMs (start s) <= srtTimeToMs (end_ s)) out /\
    forall i j a b,
      i <> j -> out !! i = Some a -> out !! j = Some b ->
      ~ (srtTimeToMs (start a) < srtTimeToMs (end_ b) /\
         srtTimeToMs (start b) < srtTimeToMs (end_ a)).
Proof.
  intros Hwf.
  destruct (mergeRun_inv subtitles) as (st & Hrun & Hres & Inv).
  exists (merged st). split; [done|].
  assert (Hwf' : forall x, x ∈ withMs subtitles -> startMs x <= endMs x).
  { intros x Hx. apply withMs_elem in Hx as (Hl & -> & ->).
    rewrite Forall_forall in Hwf. apply Hwf.
    apply list_elem_of_lookup. eauto. }
  split.
  - apply Forall_lookup. intros i m Hm.
    destruct (merged_cue_span _ _ _ _ Inv Hm) as (g & Hg & Hne & Hall & Hsp).
    set (c := mkSubMs 0 m 0 0). destruct (Hsp c) as [-> ->].
    assert (Hgin : g ∈ groups st) by (apply list_elem_of_lookup; eauto).
    destruct (inv_sorted _ _ _ Inv g Hgin) as [_ Hmin].
    pose proof (Hmin c _ (last_elem c g Hne)).
    pose proof (Hwf' _ (Hall _ (last_elem c g Hne))). lia.
  - intros i j a b Hij Ha Hb.
    destruct (merged_cue_span _ _ _ _ Inv Ha)
      as (g1 & Hg1 & _ & _ & Hs1).
    destruct (merged_cue_span _ _ _ _ Inv Hb)
      as (g2 & Hg2 & _ & _ & Hs2).
    set (c := mkSubMs 0 a 0 0).
    destruct (Hs1 c) as [-> ->]. destruct (Hs2 c) as [-> ->].
    by apply (merged_spans_disjoint (withMs subtitles) st i j g1 g2 c c).
Qed.

Lemma merge_output_disjoint_witness :
  let s := [cue "1" "00:00:00,000" "00:00:10,000" "x";
            cue "2" "00:00:05,000" "00:00:20,000" "z";
            cue "3" "00:00:30,000" "00:00:31,000" "y"] in
  Forall (fun s => srtTimeToMs (start s) <= srtTimeToMs (end_ s)) s /\
  exists out,
    mergeOverlappingSubtitles s = Some out /\
    Forall (fun s => srtTimeToMs (start s) <= srtTimeToMs (end_ s)) out /\
    forall i j a b,
      i <> j -> out !! i = Some a -> out !! j = Some b ->
      ~ (srtTimeToMs (start a) < srtTimeToMs (end_ b) /\
         srtTimeToMs (start b) < srtTimeToMs (end_ a)).
Proof.
  intros s.
  assert (H : Forall (fun s => srtTimeToMs (start s) <= srtTimeToMs (end_ s))
                     s).
  { repeat constructor; vm_compute; discriminate. }
  split; [exact H|]. exact (merge_output_disjoint s H).
Defined.

(** X7. A track in which no two cues share a positive duration is returned
    as it is. *)
Theorem merge_identity_without_overlap (subtitles : list Subtitle) :
  (forall i j, i <> j -> ~ overlapAt subtitles i j) ->
  mergeOverlappingSubtitles subtitles = Some subtitles.
Proof.
  intros Hfree. apply merge_noop. intros i j a b Hij Ha Hb.
  destruct (overlapsMs a b) eqn:Ho; [|done]. exfalso.
  apply overlapsMs_true in Ho.
  apply withMs_lookup in Ha as (sa & Hsa & ->).
  apply withMs_lookup in Hb as (sb & Hsb & ->). simpl in Ho.
  apply (Hfree i j Hij). exists sa, sb. tauto.
Qed.

Lemma merge_identity_without_overlap_witness :
  let s := [cue "1" "00:00:00,000" "00:00:01,000" "A";
            cue "2" "00:00:01,000" "00:00:02,000" "B"] in
  (forall i j, i <> j -> ~ overlapAt s i j) /\
  mergeOverlappingSubtitles s = Some s.
Proof.
  intros s.
  assert (H : forall i j, i <> j -> ~ overlapAt s i j).
  { intros i j Hij (a & b & Ha & Hb & H1 & H2).
    destruct i as [|[|i]], j as [|[|j]]; try done;
      simpl in Ha, Hb; inversion Ha; inversion Hb; subst;
      vm_compute in H1, H2; congruence. }
  split; [exact H|]. exact (merge_identity_without_overlap s H).
Defined.

(** X8. The merger never returns more cues than it was given. *)
Theorem merge_output_length (subtitles : list Subtitle) :
  exists out,
    mergeOverlappingSubtitles subtitles = Some out /\
    (length out <= length subtitles)%nat.
Proof.
  destruct (mergeRun_inv subtitles) as (st & Hrun & Hres & Inv).
  exists (merged st). split; [done|].
  rewrite (Forall2_length _ _ _ (inv_merged _ _ _ Inv)).
  assert (Hlen : forall gs : list (list SubMs),
             (forall g, g ∈ gs -> g <> []) ->
             (length gs <= length (concat gs))%nat).
  { induction gs as [|g gs IH]; intros Hne; simpl; [lia|].
    rewrite length_app.
    assert (g <> []) by (apply Hne, elem_of_cons; by left).
    assert (length gs <= length (concat gs))%nat
      by (apply IH; intros g' Hg'; apply Hne, elem_of_cons; by right).
    destruct g; [done|]. simpl. lia. }
  etransitivity; [apply Hlen|].
  - intros g Hg. by destruct (inv_sorted _ _ _ Inv g Hg).
  - rewrite <- (length_map pos).
    assert (NoDup (map pos (withMs subtitles))) as Hnd.
    { apply NoDup_alt. intros i j n Hi Hj.
      rewrite list_lookup_fmap in Hi, Hj.
      destruct (withMs subtitles !! i) as [x|] eqn:Ex; [|done].
      destruct (withMs subtitles !! j) as [y|] eqn:Ey; [|done].
      simpl in Hi, Hj. inversion Hi; inversion Hj; subst.
      rewrite <- (withMs_positioned _ _ _ Ex), <- (withMs_positioned _ _ _ Ey).
      done. }
    rewrite <- (withMs_length subtitles), <- (length_map pos (withMs _)).
    apply submseteq_length, NoDup_submseteq; [apply (inv_nodup _ _ _ Inv)|].
    intros n Hn. apply list_elem_of_fmap in Hn as (x & -> & Hx).
    apply list_elem_of_fmap. exists x. split; [done|].
    by apply (inv_members _ _ _ Inv).
Qed.

(** ** The fusion engine: what an iteration does *)

Lemma multiCueReplace_outcome targetSubs nativeSubs service cur st :
  cur ∈ targetSubs -> index cur ∉ processedTargetIndices st ->
  Outcome targetSubs nativeSubs service cur st
          (multiCueReplace targetSubs nativeSubs cur st).
Proof.
  intros Hcur Hnp. unfold multiCueReplace.
  destruct (intersectingNativeSubs nativeSubs cur) as [|first more] eqn:En;
    [constructor|].
  cbn [combinedNativeSub].
  pose proof (current_in_group targetSubs nativeSubs cur st first more
                Hcur Hnp En) as Hin.
  destruct (overlappingTargetSubs _ _ _ _) as [|ft mt] eqn:Eo;
    [constructor|].
  eapply Replaced; eauto.
Qed.

Section Outcomes.

Variable lemmatizer : Lemmatizer.
Variables targetSubs nativeSubs : list Subtitle.
Variable knownWords : gset string.
Variable language : string.
Variable service : option DeepLAPI.

Notation step := (fuseStep lemmatizer targetSubs nativeSubs knownWords
                           language service).
Notation loop := (fuseLoop lemmatizer targetSubs nativeSubs knownWords
                           language service).
Notation outcome := (Outcome targetSubs nativeSubs service).

(** Every iteration on an unprocessed cue that returns reaches one of
    the five outcomes. *)
Lemma fuseStep_outcome i cur st st' :
  cur ∈ targetSubs -> index cur ∉ processedTargetIndices st ->
  step i cur st = Some st' -> outcome cur st st'.
Proof.
  intros Hcur Hnp. unfold fuseStep.
  rewrite (proj2 (has_false _ _) Hnp).
  destruct (unknownWordsOf lemmatizer knownWords language cur)
    as [[|w [|w' ws]]|]; [| | |done].
  - intros H. inversion H. constructor.
  - destruct service as [api|] eqn:Es; intros H; inversion H;
      [|by apply multiCueReplace_outcome].
    unfold inlineTranslation.
    destruct (processSubtitleWithInlineTranslation _ _ _ _ _ _)
      as [rt [] err]; cbn [translationApplied error resultText].
    + apply Translated. by eexists.
    + destruct err as [message|]; [|constructor].
      destruct (Js.isEmpty message); [constructor|].
      unfold singleCueFallback.
      destruct (intersectingNativeSubs nativeSubs cur) as [|first more] eqn:En.
      * apply FailedKept. by eexists.
      * cbn [combinedNativeSub]. eapply FailedReplaced; [by eexists|done].
  - intros H. inversion H. by apply multiCueReplace_outcome.
Qed.

(** A property of the state that every outcome preserves holds after
    the loop. *)
Lemma fuseLoop_invariant (I : FuseState -> Prop) :
  (forall cur st st',
      cur ∈ targetSubs -> index cur ∉ processedTargetIndices st ->
      I st -> outcome cur st st' -> I st') ->
  forall rest i st st',
    (forall c, c ∈ rest -> c ∈ targetSubs) ->
    I st -> loop i rest st = Some st' -> I st'.
Proof.
  intros Hstep. induction rest as [|cur rest IH]; intros i st st' Hin HI H;
    simpl in H.
  - by inversion H; subst.
  - destruct (step i cur st) as [st1|] eqn:E; [|done].
    apply (IH (S i) st1 st'); auto.
    + intros c Hc. apply Hin, elem_of_cons; by right.
    + assert (Hcur : cur ∈ targetSubs) by (apply Hin, elem_of_cons; by left).
      destruct (decide (index cur ∈ processedTargetIndices st)) as [Hp|Hp].
      * rewrite (fuseStep_skip _ _ _ _ _ _ _ _ _ Hp) in E.
        by inversion E; subst.
      * eapply Hstep; eauto. by eapply fuseStep_outcome.
Qed.

End Outcomes.

(** ** The fusion engine: counters *)

Lemma filter_length_sum {A} (P Q R : A -> bool) (l : list A) :
  (forall x, x ∈ l -> P x = true -> R x = true) ->
  (forall x, x ∈ l -> Q x = true -> R x = true) ->
  (forall x, x ∈ l -> P x = true -> Q x = true -> False) ->
  (length (List.filter P l) + length (List.filter Q l)
   <= length (List.filter R l))%nat.
Proof.
  induction l as [|a l IH]; intros HP HQ HPQ; simpl; [lia|].
  assert (Ha : a ∈ a :: l) by (apply elem_of_cons; by left).
  assert (IH' : (length (List.filter P l) + length (List.filter Q l)
                 <= length (List.filter R l))%nat).
  { apply IH; intros x Hx; [apply HP|apply HQ|apply HPQ];
      apply elem_of_cons; by right. }
  pose proof (HP a Ha) as H1. pose proof (HQ a Ha) as H2.
  pose proof (HPQ a Ha) as H3.
  destruct (P a), (Q a), (R a); simpl; try lia; exfalso;
    first [ by apply H3 | by specialize (H1 eq_refl)
          | by specialize (H2 eq_refl) ].
Qed.

Lemma filter_length_mono {A} (P R : A -> bool) (l : list A) :
  (forall x, x ∈ l -> P x = true -> R x = true) ->
  (length (List.filter P l) <= length (List.filter R l))%nat.
Proof.
  intros H.
  pose proof (filter_length_sum P (fun _ => false) R l H) as Hs.
  assert (E : forall k : list A, List.filter (fun _ : A => false) k = [])
    by (induction k; simpl; auto).
  rewrite E in Hs. simpl in Hs. rewrite Nat.add_0_r in Hs. by apply Hs.
Qed.

Lemma filter_length_strict {A} (P R : A -> bool) (l : list A) a :
  a ∈ l -> P a = false -> R a = true ->
  (forall x, x ∈ l -> P x = true -> R x = true) ->
  (length (List.filter P l) < length (List.filter R l))%nat.
Proof.
  induction l as [|b l IH]; intros Ha HPa HRa H;
    [by apply elem_of_nil in Ha|].
  assert (Hmono : (length (List.filter P l) <= length (List.filter R l))%nat).
  { apply filter_length_mono. intros x Hx. apply H, elem_of_cons; by right. }
  assert (Hb : P b = true -> R b = true)
    by (apply H, elem_of_cons; by left).
  apply elem_of_cons in Ha as [->|Ha]; simpl.
  - rewrite HPa, HRa. simpl. lia.
  - assert (length (List.filter P l) < length (List.filter R l))%nat.
    { apply IH; auto. intros x Hx. apply H, elem_of_cons; by right. }
    destruct (P b) eqn:EP, (R b) eqn:ER; simpl; try lia.
Qed.

Lemma filter_length_le {A} (P : A -> bool) (l : list A) :
  (length (List.filter P l) <= length l)%nat.
Proof. induction l as [|a l IH]; simpl; [lia|]. destruct (P a); simpl; lia. Qed.

Lemma processedCount_mono targetSubs st st' :
  processedTargetIndices st ⊆ processedTargetIndices st' ->
  (processedCount targetSubs st <= processedCount targetSubs st')%nat.
Proof.
  intros H. apply filter_length_mono. intros x _ Hx.
  apply has_true. apply has_true in Hx. set_solver.
Qed.

Lemma processedCount_strict targetSubs st st' cur :
  cur ∈ targetSubs ->
  index cur ∉ processedTargetIndices st ->
  index cur ∈ processedTargetIndices st' ->
  processedTargetIndices st ⊆ processedTargetIndices st' ->
  (processedCount targetSubs st < processedCount targetSubs st')%nat.
Proof.
  intros Hcur Hn Hin H. apply (filter_length_strict _ _ _ cur); auto.
  - by apply has_false.
  - by apply has_true.
  - intros x _ Hx. apply has_true. apply has_true in Hx. set_solver.
Qed.

Lemma CounterInv_outcome targetSubs nativeSubs service cur st st' :
  cur ∈ targetSubs -> index cur ∉ processedTargetIndices st ->
  CounterInv targetSubs st ->
  Outcome targetSubs nativeSubs service cur st st' ->
  CounterInv targetSubs st'.
Proof.
  intros Hcur Hnp (H1 & H2 & H3 & H4) Ho. unfold CounterInv.
  destruct Ho as [|w t Hs|Hs|first more Hs En|first more ft mt En Eo Hin].
  - pose proof (processedCount_mono targetSubs st (keep cur st)) as Hm.
    simpl in *. repeat split; try lia. etransitivity; [exact H3|].
    apply Hm. set_solver.
  - match goal with |- context [processedCount _ ?s] =>
      pose proof (processedCount_strict targetSubs st s cur Hcur Hnp) as Hm
    end.
    simpl in *. repeat split; try lia.
    + assert (processedCount targetSubs st < processedCount targetSubs
                (markProcessed (index cur)
                   (push {| index := index cur; start := start cur;
                            end_ := end_ cur; text := t |}
                         (addTranslated w st))))%nat
        by (apply Hm; simpl; set_solver).
      simpl in *. lia.
    + rewrite map_size_insert. destruct (translatedWords st !! w); simpl; lia.
  - pose proof (processedCount_mono targetSubs st
                  (markProcessed (index cur) (push cur (addError st)))) as Hm.
    simpl in *. repeat split; try lia. etransitivity; [exact H3|].
    apply Hm. set_solver.
  - match goal with |- context [processedCount _ ?s] =>
      pose proof (processedCount_strict targetSubs st s cur Hcur Hnp) as Hm
    end.
    simpl in *. repeat split; try lia.
    match type of Hm with _ -> _ -> (_ < ?n)%nat =>
      assert (processedCount targetSubs st < n)%nat
        by (apply Hm; set_solver)
    end. lia.
  - simpl. repeat split; try lia.
    unfold processedCount in *. simpl.
    pose proof (filter_length_sum
                  (fun c => has (processedTargetIndices st) (index c))
                  (fun sub => negb (has (processedTargetIndices st) (index sub))
                              && hasIntersection (start first)
                                   (end_ (List.last more first))
                                   (start sub) (end_ sub))
                  (fun c => has (list_to_set (map index (ft :: mt))
                                 ∪ processedTargetIndices st) (index c))
                  targetSubs) as Hsum.
    unfold overlappingTargetSubs in Eo. rewrite Eo in Hsum.
    simpl in Hsum.
    assert (length (List.filter
              (fun c => has (processedTargetIndices st) (index c)) targetSubs)
            + S (length mt)
            <= length (List.filter
                 (fun c => has ({[index ft]} ∪ list_to_set (map index mt)
                                ∪ processedTargetIndices st) (index c))
                 targetSubs))%nat; [|lia].
    apply Hsum.
    + intros x _ Hx. apply has_true. apply has_true in Hx. set_solver.
    + intros x Hx Hq. apply has_true.
      assert (x ∈ ft :: mt) as Hxg.
      { rewrite <- Eo. by apply elem_of_List_filter. }
      apply elem_of_union; left.
      change ({[index ft]} ∪ list_to_set (map index mt) : gset string)
        with (list_to_set (map index (ft :: mt)) : gset string).
      apply elem_of_list_to_set, list_elem_of_fmap. eauto.
    + intros x _ Hp Hq. apply andb_true_iff in Hq as [Hq _].
      rewrite Hp in Hq. done.
Qed.

Lemma CounterInv_run lemmatizer targetSubs nativeSubs knownWords language
    service st :
  fuseLoop lemmatizer targetSubs nativeSubs knownWords language service
           0 targetSubs initialState = Some st ->
  CounterInv targetSubs st.
Proof.
  apply (fuseLoop_invariant lemmatizer targetSubs nativeSubs knownWords
           language service (CounterInv targetSubs)); [|done|].
  - intros cur st0 st1 Hcur Hnp HI Ho. by eapply CounterInv_outcome.
  - unfold CounterInv, processedCount. simpl. repeat split; try lia.
    change (size (∅ : gmap string nat) <= 0)%nat.
    by rewrite map_size_empty.
Qed.

(** X13. The cues counted as replaced and the cues counted as translated in
    place are different target cues: together they are at most as many as
    the target track has cues, so the number of kept cues that the caller
    computes by subtraction is not negative and bounds the translated
    ones. *)
Theorem fuse_replaced_bound lemmatizer targetSubs nativeSubs knownWords
    language enableInlineTranslation deeplAPI r :
  fuseSubtitles lemmatizer targetSubs nativeSubs knownWords language
                enableInlineTranslation deeplAPI = Some r ->
  (resReplacedCount r + resInlineTranslationCount r
   <= length targetSubs)%nat.
Proof.
  unfold fuseSubtitles.
  destruct (fuseLoop _ _ _ _ _ _ _ _ _) as [st|] eqn:E; [|done].
  intros H. inversion H; subst; simpl.
  destruct (CounterInv_run _ _ _ _ _ _ _ E) as (_ & _ & H3 & _).
  unfold processedCount in H3.
  pose proof (filter_length_le
                (fun c => has (processedTargetIndices st) (index c))
                targetSubs). lia.
Qed.

Lemma fuse_replaced_bound_witness :
  let t1 := cue "1" "00:00:01,200" "00:00:02,000" "zorglub schtroumpf" in
  let t2 := cue "2" "00:00:02,100" "00:00:03,800" "the" in
  let n := cue "1" "00:00:01,000" "00:00:04,000" "Bonjour" in
  exists r,
    fuseSubtitles echoLemmatizer [t1; t2] [n] {["the"]} "fr" false None
      = Some r /\
    (resReplacedCount r + resInlineTranslationCount r
     <= length [t1; t2])%nat.
Proof.
  intros t1 t2 n. eexists.
  assert (H : fuseSubtitles echoLemmatizer [t1; t2] [n] {["the"]} "fr"
                false None = Some _) by (vm_compute; reflexivity).
  split; [exact H|].
  exact (fuse_replaced_bound _ _ _ _ _ _ _ _ H).
Defined.

(** X14. A replacement after a failed translation is counted as a
    replacement and as an error, and a word is counted as translated at
    least once for each entry of the map of translated words. *)
Theorem fuse_counter_order lemmatizer targetSubs nativeSubs knownWords
    language enableInlineTranslation deeplAPI r :
  fuseSubtitles lemmatizer targetSubs nativeSubs knownWords language
                enableInlineTranslation deeplAPI = Some r ->
  (resReplacedWithOneUnknown r <= resReplacedCount r)%nat /\
  (resReplacedWithOneUnknown r <= resErrorCount r)%nat /\
  (size (resTranslatedWords r) <= resInlineTranslationCount r)%nat.
Proof.
  unfold fuseSubtitles.
  destruct (fuseLoop _ _ _ _ _ _ _ _ _) as [st|] eqn:E; [|done].
  intros H. inversion H; subst; simpl.
  destruct (CounterInv_run _ _ _ _ _ _ _ E) as (H1 & H2 & _ & H4). auto.
Qed.

Lemma fuse_counter_order_witness :
  let t1 := cue "1" "00:00:01,200" "00:00:02,000" "the zorglub" in
  let t2 := cue "2" "00:00:02,100" "00:00:03,800" "the schtroumpf" in
  let n := cue "1" "00:00:01,000" "00:00:04,000" "Bonjour" in
  let api : DeepLAPI :=
    fun i _ _ => if (i =? 0)%nat then inl "truc" else inr "timeout" in
  exists r,
    fuseSubtitles echoLemmatizer [t1; t2] [n] {["the"]} "fr" true (Some api)
      = Some r /\
    (resReplacedWithOneUnknown r <= resReplacedCount r)%nat /\
    (resReplacedWithOneUnknown r <= resErrorCount r)%nat /\
    (size (resTranslatedWords r) <= resInlineTranslationCount r)%nat.
Proof.
  intros t1 t2 n api. eexists.
  assert (H : fuseSubtitles echoLemmatizer [t1; t2] [n] {["the"]} "fr"
                true (Some api) = Some _) by (vm_compute; reflexivity).
  split; [exact H|].
  exact (fuse_counter_order _ _ _ _ _ _ _ _ H).
Defined.

(** ** The fusion engine: where the output comes from *)

Lemma reIndex_elem subs h :
  h ∈ reIndex subs ->
  exists c, c ∈ subs /\ start h = start c /\ end_ h = end_ c /\
            text h = text c.
Proof.
  intros Hh. apply list_elem_of_lookup in Hh as [i Hi].
  unfold reIndex in Hi. rewrite list_lookup_imap in Hi.
  destruct (subs !! i) as [c|] eqn:Ec; simpl in Hi; [|done].
  inversion Hi; subst. exists c. simpl. split; [|done].
  apply list_elem_of_lookup. eauto.
Qed.

(** X15. The times of the hybrid track are times of the target track: every
    hybrid cue starts where a target cue starts and ends where a target
    cue ends. *)
Theorem fuse_keeps_target_times lemmatizer targetSubs nativeSubs knownWords
    language enableInlineTranslation deeplAPI r h :
  fuseSubtitles lemmatizer targetSubs nativeSubs knownWords language
                enableInlineTranslation deeplAPI = Some r ->
  h ∈ hybrid r ->
  exists t1 t2, t1 ∈ targetSubs /\ t2 ∈ targetSubs /\
                start h = start t1 /\ end_ h = end_ t2.
Proof.
  unfold fuseSubtitles.
  destruct (fuseLoop _ _ _ _ _ _ _ _ _) as [st|] eqn:E; [|done].
  intros H Hh. inversion H; subst; simpl in Hh.
  apply reIndex_elem in Hh as (c & Hc & -> & -> & _).
  revert c Hc.
  refine (fuseLoop_invariant lemmatizer targetSubs nativeSubs knownWords
            language _
            (fun s => forall c, c ∈ finalSubtitles s ->
               exists t1 t2, t1 ∈ targetSubs /\ t2 ∈ targetSubs /\
                             start c = start t1 /\ end_ c = end_ t2)
            _ targetSubs 0%nat initialState st _ _ E); [|done|].
  - intros cur st0 st1 Hcur Hnp HI Ho c Hc.
    assert (Hself : exists t1 t2, t1 ∈ targetSubs /\ t2 ∈ targetSubs /\
                                  start cur = start t1 /\ end_ cur = end_ t2)
      by (exists cur, cur; auto).
    destruct Ho as [|w t Hs|Hs|first more Hs En|first more ft mt En Eo Hin];
      simpl in Hc; apply elem_of_app in Hc as [Hc|Hc]; auto;
      apply list_elem_of_singleton in Hc; subst c; simpl; auto.
    assert (Hsub : forall x, x ∈ ft :: mt -> x ∈ targetSubs).
    { intros x Hx. rewrite <- Eo in Hx.
      by apply elem_of_List_filter in Hx as [Hx _]. }
    exists ft, (List.last mt ft). split; [|split; [|done]].
    + apply Hsub, elem_of_cons; by left.
    + apply Hsub, last_in_cons.
  - intros c Hc. by apply elem_of_nil in Hc.
Qed.

Lemma fuse_keeps_target_times_witness :
  let t1 := cue "1" "00:00:01,200" "00:00:02,000" "zorglub schtroumpf" in
  let t2 := cue "2" "00:00:02,100" "00:00:03,800" "the" in
  let n := cue "1" "00:00:01,000" "00:00:04,000" "Bonjour" in
  let h := cue "1" "00:00:01,200" "00:00:03,800" "Bonjour" in
  exists r,
    fuseSubtitles echoLemmatizer [t1; t2] [n] {["the"]} "fr" false None
      = Some r /\
    h ∈ hybrid r /\
    exists u1 u2, u1 ∈ [t1; t2] /\ u2 ∈ [t1; t2] /\
                  start h = start u1 /\ end_ h = end_ u2.
Proof.
  intros t1 t2 n h. eexists.
  assert (H : fuseSubtitles echoLemmatizer [t1; t2] [n] {["the"]} "fr"
                false None = Some _) by (vm_compute; reflexivity).
  assert (Hh : h ∈ hybrid
                 {| hybrid := [h]; resReplacedCount := 2;
                    resReplacedWithOneUnknown := 0;
                    resInlineTranslationCount := 0; resErrorCount := 0;
                    resTranslatedWords := ∅ |})
    by (apply elem_of_cons; by left).
  split; [exact H|]. split; [exact Hh|].
  exact (fuse_keeps_target_times _ _ _ _ _ _ _ _ h H Hh).
Defined.

(** X16. Without the translation service (inline translation disabled, or no
    DeepL handle), nothing is translated and no error is counted, and the
    text of every hybrid cue is the text of a target cue or the texts of
    native cues, one line each. *)
Theorem fuse_without_service lemmatizer targetSubs nativeSubs knownWords
    language enableInlineTranslation deeplAPI r :
  enableInlineTranslation = false \/ deeplAPI = None ->
  fuseSubtitles lemmatizer targetSubs nativeSubs knownWords language
                enableInlineTranslation deeplAPI = Some r ->
  resInlineTranslationCount r = 0%nat /\
  resErrorCount r = 0%nat /\
  resReplacedWithOneUnknown r = 0%nat /\
  resTranslatedWords r = ∅ /\
  forall h, h ∈ hybrid r ->
    (exists t, t ∈ targetSubs /\ text h = text t) \/
    (exists ns, ns <> [] /\ (forall n, n ∈ ns -> n ∈ nativeSubs) /\
                text h = Js.join newline (map text ns)).
Proof.
  intros Hno. unfold fuseSubtitles.
  assert ((if enableInlineTranslation then deeplAPI else None) = None) as ->
    by (destruct Hno as [->| ->]; [done|by destruct enableInlineTranslation]).
  destruct (fuseLoop _ _ _ _ _ _ _ _ _) as [st|] eqn:E; [|done].
  intros H. inversion H; subst; simpl. clear H.
  set (I := fun s : FuseState =>
    inlineTranslationCount s = 0%nat /\ errorCount s = 0%nat /\
    replacedWithOneUnknown s = 0%nat /\ translatedWords s = ∅ /\
    forall c, c ∈ finalSubtitles s ->
      (exists t, t ∈ targetSubs /\ text c = text t) \/
      (exists ns, ns <> [] /\ (forall n, n ∈ ns -> n ∈ nativeSubs) /\
                  text c = Js.join newline (map text ns))).
  assert (HI : I st).
  { refine (fuseLoop_invariant lemmatizer targetSubs nativeSubs knownWords
              language None I _ targetSubs 0%nat initialState st _ _ E);
      [|done|].
    - intros cur st0 st1 Hcur Hnp (I1 & I2 & I3 & I4 & I5) Ho. unfold I.
      destruct Ho as [|w t [? Hs]|[? Hs]|first more [? Hs] En
                      |first more ft mt En Eo Hin]; try done; simpl.
      + repeat split; auto. intros c Hc.
        apply elem_of_app in Hc as [Hc|Hc]; [auto|].
        apply list_elem_of_singleton in Hc. subst c. left. eauto.
      + repeat split; auto; try lia. intros c Hc.
        apply elem_of_app in Hc as [Hc|Hc]; [auto|].
        apply list_elem_of_singleton in Hc. subst c. right.
        exists (first :: more). split; [done|]. split; [|done].
        intros n Hn. rewrite <- En in Hn.
        by apply elem_of_List_filter in Hn as [Hn _].
    - unfold I. simpl. repeat split; auto.
      intros c Hc. by apply elem_of_nil in Hc. }
  destruct HI as (I1 & I2 & I3 & I4 & I5). repeat split; auto.
  intros h Hh. apply reIndex_elem in Hh as (c & Hc & _ & _ & ->). auto.
Qed.

Lemma fuse_without_service_witness :
  let t1 := cue "1" "00:00:01,200" "00:00:02,000" "zorglub schtroumpf" in
  let t2 := cue "2" "00:00:02,100" "00:00:03,800" "the" in
  let n := cue "1" "00:00:01,000" "00:00:04,000" "Bonjour" in
  (false = false \/ (None : option DeepLAPI) = None) /\
  exists r,
    fuseSubtitles echoLemmatizer [t1; t2] [n] {["the"]} "fr" false None
      = Some r /\
    resInlineTranslationCount r = 0%nat /\
    resErrorCount r = 0%nat /\
    resReplacedWithOneUnknown r = 0%nat /\
    resTranslatedWords r = ∅ /\
    forall h, h ∈ hybrid r ->
      (exists t, t ∈ [t1; t2] /\ text h = text t) \/
      (exists ns, ns <> [] /\ (forall k, k ∈ ns -> k ∈ [n]) /\
                  text h = Js.join newline (map text ns)).
Proof.
  intros t1 t2 n.
  assert (Hno : false = false \/ (None : option DeepLAPI) = None)
    by (left; reflexivity).
  split; [exact Hno|]. eexists.
  assert (H : fuseSubtitles echoLemmatizer [t1; t2] [n] {["the"]} "fr"
                false None = Some _) by (vm_compute; reflexivity).
  split; [exact H|].
  exact (fuse_without_service _ _ _ _ _ _ _ _ Hno H).
Defined.

(** X17. A target cue that lasts 500 ms or less is never replaced: no native
    cue intersects it, no re-scan of the target track selects it, and
    the iteration on it emits a cue with its index string, its times and,
    without the translation service, its text, and counts no
    replacement. *)
Theorem short_cue_is_never_replaced lemmatizer targetSubs nativeSubs
    knownWords language service i cur st st' :
  srtTimeToMs (end_ cur) - srtTimeToMs (start cur) <= 500 ->
  cur ∈ targetSubs ->
  index cur ∉ processedTargetIndices st ->
  fuseStep lemmatizer targetSubs nativeSubs knownWords language service
           i cur st = Some st' ->
  intersectingNativeSubs nativeSubs cur = [] /\
  (forall processedIndices combinedStart combinedEnd,
      cur ∉ overlappingTargetSubs targetSubs processedIndices
              combinedStart combinedEnd) /\
  replacedCount st' = replacedCount st /\
  exists c, finalSubtitles st' = finalSubtitles st ++ [c] /\
            index c = index cur /\ start c = start cur /\
            end_ c = end_ cur /\
            (service = None -> c = cur).
Proof.
  intros Hshort Hcur Hnp Hstep.
  assert (Hn : intersectingNativeSubs nativeSubs cur = []).
  { destruct (intersectingNativeSubs nativeSubs cur) as [|n ns] eqn:E;
      [done|].
    assert (Hin : n ∈ intersectingNativeSubs nativeSubs cur)
      by (rewrite E; apply elem_of_cons; by left).
    apply elem_of_List_filter in Hin as [_ Hin].
    apply hasIntersection_true in Hin. lia. }
  split; [exact Hn|]. split.
  { intros p cs ce Hin. apply elem_of_List_filter in Hin as [_ Hin].
    apply andb_true_iff in Hin as [_ Hin].
    apply hasIntersection_true in Hin. lia. }
  pose proof (fuseStep_outcome _ _ _ _ _ _ _ _ _ _ Hcur Hnp Hstep) as Ho.
  destruct Ho as [|w t [? Hs]|[? Hs]|first more [? Hs] En
                  |first more ft mt En Eo Hin]; try congruence; simpl.
  - split; [done|]. exists cur. repeat split; auto.
  - split; [done|]. eexists. split; [reflexivity|]. simpl.
    repeat split; auto; congruence.
  - split; [done|]. exists cur. repeat split; auto; congruence.
Qed.

Lemma short_cue_is_never_replaced_witness :
  let t := cue "1" "00:00:01,200" "00:00:01,700" "zorglub schtroumpf" in
  let n := cue "1" "00:00:01,000" "00:00:04,000" "Bonjour" in
  srtTimeToMs (end_ t) - srtTimeToMs (start t) <= 500 /\
  t ∈ [t] /\
  index t ∉ processedTargetIndices initialState /\
  fuseStep echoLemmatizer [t] [n] ∅ "fr" None 0 t initialState
    = Some (keep t initialState) /\
  intersectingNativeSubs [n] t = [] /\
  (forall processedIndices combinedStart combinedEnd,
      t ∉ overlappingTargetSubs [t] processedIndices
            combinedStart combinedEnd) /\
  replacedCount (keep t initialState) = replacedCount initialState /\
  exists c, finalSubtitles (keep t initialState)
              = finalSubtitles initialState ++ [c] /\
            index c = index t /\ start c = start t /\ end_ c = end_ t /\
            ((None : option DeepLAPI) = None -> c = t).
Proof.
  intros t n.
  assert (H1 : srtTimeToMs (end_ t) - srtTimeToMs (start t) <= 500)
    by (vm_compute; discriminate).
  assert (H2 : t ∈ [t]) by (apply elem_of_cons; by left).
  assert (H3 : index t ∉ processedTargetIndices initialState)
    by (apply has_false; vm_compute; reflexivity).
  assert (H4 : fuseStep echoLemmatizer [t] [n] ∅ "fr" None 0 t initialState
               = Some (keep t initialState)) by (vm_compute; reflexivity).
  split; [exact H1|]. split; [exact H2|]. split; [exact H3|].
  split; [exact H4|].
  exact (short_cue_is_never_replaced _ _ _ _ _ _ _ _ _ _ H1 H2 H3 H4).
Defined.

(** ** The fusion engine: vocabulary *)

Lemma unknownWordsFrom_sound knownWords language sentence originalWords
    lemmas :
  forall j unknown,
    unknownWordsFrom knownWords language sentence originalWords j lemmas
      = Some unknown ->
    forall w, w ∈ unknown ->
              w ∈ lemmas /\ Js.toLowerCase w ∉ knownWords /\
              isNumber w = false.
Proof.
  induction lemmas as [|x r IH]; intros j unknown H w Hw; simpl in H.
  - inversion H; subst. by apply elem_of_nil in Hw.
  - destruct (isWordKnown x knownWords language) as [known|] eqn:Ek; [|done].
    destruct (unknownWordsFrom _ _ _ _ (S j) r) as [u|] eqn:Eu; [|done].
    assert (Hrest : w ∈ u -> w ∈ x :: r /\ Js.toLowerCase w ∉ knownWords /\
                               isNumber w = false).
    { intros Hu. destruct (IH (S j) u Eu w Hu) as (H1 & H2 & H3).
      split; [apply elem_of_cons; by right|done]. }
    destruct (negb known && negb (isProperNoun _ sentence knownWords)
              && negb (isNumber x)) eqn:Ec;
      inversion H; subst; [|auto].
    apply elem_of_cons in Hw as [->|Hw]; [|auto].
    apply andb_true_iff in Ec as [Ec Hn].
    apply andb_true_iff in Ec as [Hk _].
    apply negb_true_iff in Hk, Hn. subst known.
    split; [apply elem_of_cons; by left|]. split; [|done].
    intros Hin. rewrite isWordKnown_direct in Ek; [done|].
    by apply has_true.
Qed.

(** X18. Every word counted as unknown is a lemma of the cue that is not in
    the known set and is not a number. *)
Theorem unknown_words_are_unknown lemmatizer knownWords language cur
    unknown w :
  unknownWordsOf lemmatizer knownWords language cur = Some unknown ->
  w ∈ unknown ->
  w ∈ lemmatizeSingleLine lemmatizer
        (Js.join " " (normalizeWords (stripHtml (text cur)))) language /\
  Js.toLowerCase w ∉ knownWords /\
  isNumber w = false.
Proof.
  unfold unknownWordsOf. intros H Hw.
  by apply (unknownWordsFrom_sound _ _ _ _ _ _ _ H).
Qed.

Lemma unknown_words_are_unknown_witness :
  let t := cue "1" "00:00:01,200" "00:00:02,000" "The 2 zorglub" in
  unknownWordsOf echoLemmatizer {["the"]} "fr" t = Some ["zorglub"] /\
  "zorglub" ∈ ["zorglub"] /\
  "zorglub" ∈ lemmatizeSingleLine echoLemmatizer
                (Js.join " " (normalizeWords (stripHtml (text t)))) "fr" /\
  Js.toLowerCase "zorglub" ∉ ({["the"]} : gset string) /\
  isNumber "zorglub" = false.
Proof.
  intros t.
  assert (H : unknownWordsOf echoLemmatizer {["the"]} "fr" t
              = Some ["zorglub"]) by (vm_compute; reflexivity).
  assert (Hw : "zorglub" ∈ ["zorglub"]) by (apply elem_of_cons; by left).
  split; [exact H|]. split; [exact Hw|].
  exact (unknown_words_are_unknown _ _ _ _ _ _ H Hw).
Defined.

Lemma unknownWordsFrom_all_known knownWords language sentence originalWords
    lemmas :
  (forall w, w ∈ lemmas -> Js.toLowerCase w ∈ knownWords) ->
  forall j, unknownWordsFrom knownWords language sentence originalWords
                             j lemmas = Some [].
Proof.
  induction lemmas as [|x r IH]; intros Hk j; simpl; [done|].
  rewrite isWordKnown_direct
    by (apply has_true, Hk, elem_of_cons; by left).
  rewrite IH by (intros w Hw; apply Hk, elem_of_cons; by right). done.
Qed.

(** X19. When every lemma of every target cue is in the known set (as when
    the lemmatizer fails and returns no lemma) and the index strings of
    the target track are pairwise distinct, the hybrid track is the
    target track, numbered from 1, and every counter is 0; this holds in
    every language. *)
Theorem fuse_all_known lemmatizer targetSubs nativeSubs knownWords language
    enableInlineTranslation deeplAPI :
  (forall c w,
      c ∈ targetSubs ->
      w ∈ lemmatizeSingleLine lemmatizer
            (Js.join " " (normalizeWords (stripHtml (text c)))) language ->
      Js.toLowerCase w ∈ knownWords) ->
  NoDup (map index targetSubs) ->
  fuseSubtitles lemmatizer targetSubs nativeSubs knownWords language
                enableInlineTranslation deeplAPI
  = Some {| hybrid := reIndex targetSubs;
            resReplacedCount := 0; resReplacedWithOneUnknown := 0;
            resInlineTranslationCount := 0; resErrorCount := 0;
            resTranslatedWords := ∅ |}.
Proof.
  intros Hk Hnd. unfold fuseSubtitles.
  set (service := if enableInlineTranslation then deeplAPI else None).
  assert (Hloop : forall rest done p,
            targetSubs = done ++ rest ->
            p = list_to_set (map index done) ->
            exists p',
              fuseLoop lemmatizer targetSubs nativeSubs knownWords language
                       service (length done) rest
                       (mkFuseState done p 0 0 0 0 ∅)
              = Some (mkFuseState targetSubs p' 0 0 0 0 ∅)).
  { induction rest as [|cur rest IH]; intros done p Hall Hp; simpl.
    - rewrite app_nil_r in Hall. subst. eauto.
    - assert (Hcur : cur ∈ targetSubs).
      { rewrite Hall. apply elem_of_app; right. apply elem_of_cons; by left. }
      assert (Hnp : index cur ∉ p).
      { subst p. rewrite Hall, map_app in Hnd.
        apply NoDup_app in Hnd as (_ & Hdis & _).
        intros Hin. apply elem_of_list_to_set in Hin.
        apply (Hdis _ Hin). simpl. apply elem_of_cons; by left. }
      unfold fuseStep. cbn [processedTargetIndices].
      rewrite (proj2 (has_false _ _) Hnp).
      unfold unknownWordsOf.
      rewrite unknownWordsFrom_all_known by (intros w Hw; by apply (Hk cur)).
      unfold keep, markProcessed, push. simpl.
      destruct (IH (done ++ [cur]) ({[index cur]} ∪ p)) as [p' Hp'].
      + by rewrite <- app_assoc.
      + subst p. rewrite map_app, list_to_set_app_L. simpl. set_solver.
      + rewrite length_app in Hp'. simpl in Hp'.
        rewrite Nat.add_1_r in Hp'. eauto. }
  destruct (Hloop targetSubs [] ∅ eq_refl eq_refl) as [p' Hp'].
  simpl in Hp'. unfold initialState. rewrite Hp'. done.
Qed.

Lemma fuse_all_known_witness :
  let t1 := cue "7" "00:00:01,200" "00:00:02,000" "the the" in
  let t2 := cue "9" "00:00:02,100" "00:00:03,800" "The" in
  let n := cue "1" "00:00:01,000" "00:00:04,000" "Bonjour" in
  (forall c w,
      c ∈ [t1; t2] ->
      w ∈ lemmatizeSingleLine echoLemmatizer
            (Js.join " " (normalizeWords (stripHtml (text c)))) "en" ->
      Js.toLowerCase w ∈ ({["the"]} : gset string)) /\
  NoDup (map index [t1; t2]) /\
  fuseSubtitles echoLemmatizer [t1; t2] [n] {["the"]} "en" false None
  = Some {| hybrid := reIndex [t1; t2];
            resReplacedCount := 0; resReplacedWithOneUnknown := 0;
            resInlineTranslationCount := 0; resErrorCount := 0;
            resTranslatedWords := ∅ |}.
Proof.
  intros t1 t2 n.
  assert (H1 : forall c w,
             c ∈ [t1; t2] ->
             w ∈ lemmatizeSingleLine echoLemmatizer
                   (Js.join " " (normalizeWords (stripHtml (text c)))) "en" ->
             Js.toLowerCase w ∈ ({["the"]} : gset string)).
  { intros c w Hc Hw.
    assert (Hw' : w ∈ ["the"; "the"]).
    { apply elem_of_cons in Hc as [->|Hc].
      - exact Hw.
      - apply list_elem_of_singleton in Hc. subst c.
        apply elem_of_cons; right. exact Hw. }
    apply elem_of_cons in Hw' as [->|Hw'].
    - apply has_true. reflexivity.
    - apply list_elem_of_singleton in Hw'. subst w.
      apply has_true. reflexivity. }
  assert (H2 : NoDup (map index [t1; t2])).
  { simpl. apply NoDup_cons_2; [|apply NoDup_singleton].
    intros H. apply list_elem_of_singleton in H. discriminate H. }
  split; [exact H1|]. split; [exact H2|].
  exact (fuse_all_known echoLemmatizer [t1; t2] [n] {["the"]} "en" false None
           H1 H2).
Defined.

(** ** Words *)

Lemma splitSpaces_pieces (p : ascii -> bool) s :
  Js.allChars p s = true ->
  forall w, w ∈ Js.splitSpaces s ->
            Js.allChars (fun c => p c && negb (Js.isSpace c)) w = true.
Proof.
  induction s as [|c r IH]; simpl; intros Hp w Hw.
  - apply list_elem_of_singleton in Hw. by subst.
  - apply andb_true_iff in Hp as [Hc Hr].
    destruct (Js.isSpace c) eqn:Es.
    + destruct (Js.startsWith Js.isSpace r); [by apply IH|].
      apply elem_of_cons in Hw as [->|Hw]; [done|by apply IH].
    + destruct (Js.splitSpaces r) as [|x xs] eqn:Ex.
      * apply list_elem_of_singleton in Hw. subst. simpl.
        by rewrite Hc, Es.
      * apply elem_of_cons in Hw as [->|Hw].
        -- simpl. rewrite Hc, Es. simpl. apply (IH Hr).
           apply elem_of_cons; by left.
        -- apply (IH Hr). apply elem_of_cons; by right.
Qed.

Lemma filterTruthy_elem xs w :
  w ∈ Js.filterTruthy xs <-> w ∈ xs /\ w <> EmptyString.
Proof.
  unfold Js.filterTruthy. rewrite elem_of_List_filter.
  split; intros [H1 H2]; (split; [done|]); by destruct w.
Qed.

Lemma allChars_impl (p q : ascii -> bool) s :
  (forall c, p c = true -> q c = true) ->
  Js.allChars p s = true -> Js.allChars q s = true.
Proof.
  intros H. induction s as [|c r IH]; simpl; [done|].
  intros Hp. apply andb_true_iff in Hp as [Hc Hr].
  by rewrite (H c Hc), IH.
Qed.

Lemma allChars_true s : Js.allChars (fun _ => true) s = true.
Proof. induction s; simpl; auto. Qed.

Lemma lowerChar_normal c :
  isAscii c = true ->
  (isNormalChar
     (Js.lowerChar (if isWordOrSpace c then c else " "%char))
   || Js.isSpace (Js.lowerChar (if isWordOrSpace c then c else " "%char)))
  = true.
Proof.
  destruct c as [[] [] [] [] [] [] [] []]; vm_compute; intros H;
    try discriminate H; reflexivity.
Qed.

Lemma normal_char c :
  (isNormalChar c || Js.isSpace c) && negb (Js.isSpace c) = true ->
  isNormalChar c = true.
Proof.
  destruct (isNormalChar c), (Js.isSpace c); simpl; congruence.
Qed.

(** X20. Every word that [normalizeWords] makes of an ASCII text is not
    empty and is made of lower-case letters, digits and apostrophes. *)
Theorem normalizeWords_words (txt w : string) :
  Js.allChars isAscii txt = true ->
  w ∈ normalizeWords txt ->
  w <> EmptyString /\ Js.allChars isNormalChar w = true.
Proof.
  unfold normalizeWords. intros Ha Hw.
  apply filterTruthy_elem in Hw as [Hw Hne]. split; [done|].
  assert (Hall : forall t,
            Js.allChars isAscii t = true ->
            Js.allChars (fun c => isNormalChar c || Js.isSpace c)
              (Js.toLowerCase
                 (mapChars (fun c => if isWordOrSpace c then c else " "%char)
                           t)) = true).
  { induction t as [|c r IH]; simpl; [done|]. intros H.
    apply andb_true_iff in H as [Hc Hr].
    rewrite (IH Hr), andb_true_r. by apply lowerChar_normal. }
  pose proof (splitSpaces_pieces _ _ (Hall txt Ha) w Hw) as Hpieces.
  revert Hpieces. apply allChars_impl. apply normal_char.
Qed.

Lemma normalizeWords_words_witness :
  Js.allChars isAscii "Well, <i>IT'S</i> 42!" = true /\
  "it's" ∈ normalizeWords "Well, <i>IT'S</i> 42!" /\
  "it's" <> EmptyString /\ Js.allChars isNormalChar "it's" = true.
Proof.
  assert (Ha : Js.allChars isAscii "Well, <i>IT'S</i> 42!" = true)
    by reflexivity.
  assert (H : "it's" ∈ normalizeWords "Well, <i>IT'S</i> 42!").
  { apply list_elem_of_In. vm_compute. tauto. }
  split; [exact Ha|]. split; [exact H|].
  exact (normalizeWords_words _ _ Ha H).
Defined.

(** X21. The lemmas of [lemmatizeSingleLine] are not empty and hold no white
    space; when the lemmatizer process fails there is no lemma. *)
Theorem lemmatizeSingleLine_lemmas (lemmatizer : Lemmatizer)
    (line lang : string) :
  (forall w, w ∈ lemmatizeSingleLine lemmatizer line lang ->
             w <> EmptyString /\
             Js.allChars (fun c => negb (Js.isSpace c)) w = true) /\
  (lemmatizer lang line = None ->
   lemmatizeSingleLine lemmatizer line lang = []).
Proof.
  unfold lemmatizeSingleLine. split.
  - intros w Hw. destruct (lemmatizer lang line) as [stdout|];
      [|by apply elem_of_nil in Hw].
    apply filterTruthy_elem in Hw as [Hw Hne]. split; [done|].
    apply (splitSpaces_pieces (fun _ => true)) in Hw; [|apply allChars_true].
    exact Hw.
  - by intros ->.
Qed.

Lemma lemmatizeSingleLine_lemmas_witness :
  let failing : Lemmatizer := fun _ _ => None in
  failing "en" "the cat" = None /\
  lemmatizeSingleLine failing "the cat" "en" = [].
Proof.
  intros failing.
  assert (H : failing "en" "the cat" = None) by reflexivity.
  split; [exact H|].
  exact (proj2 (lemmatizeSingleLine_lemmas failing "the cat" "en") H).
Defined.

(** ** Tags *)

Lemma stripTags_no_lt a b :
  Js.allChars (fun c => negb (isLt c)) a = true ->
  stripTags EmptyString false (a +:+ b) = a +:+ stripTags EmptyString false b.
Proof.
  induction a as [|c r IH]; simpl; [done|].
  intros H. apply andb_true_iff in H as [Hc Hr].
  unfold isLt in Hc. apply negb_true_iff in Hc. rewrite Hc. by rewrite IH.
Qed.

Lemma append_cons x (a b : string) : String x a +:+ b = String x (a +:+ b).
Proof. reflexivity. Qed.

Lemma append_assoc (a b c : string) : (a +:+ b) +:+ c = a +:+ (b +:+ c).
Proof.
  induction a as [|x a IH]; [reflexivity|]. rewrite !append_cons. by rewrite IH.
Qed.

Lemma append_empty_r (a : string) : a +:+ EmptyString = a.
Proof.
  induction a as [|x a IH]; [reflexivity|]. rewrite append_cons. by rewrite IH.
Qed.

Lemma stripTags_no_gt s :
  Js.allChars (fun c => negb (isGt c)) s = true ->
  forall pending, stripTags pending true s = pending +:+ s.
Proof.
  induction s as [|c r IH]; simpl; intros H pending.
  - by rewrite append_empty_r.
  - apply andb_true_iff in H as [Hc Hr].
    unfold isGt in Hc. apply negb_true_iff in Hc. rewrite Hc.
    rewrite (IH Hr). by rewrite append_assoc.
Qed.

Lemma allChars_app (p : ascii -> bool) (a b : string) :
  Js.allChars p (a +:+ b) = Js.allChars p a && Js.allChars p b.
Proof.
  induction a as [|c r IH]; [reflexivity|].
  rewrite append_cons. simpl. by rewrite IH, andb_assoc.
Qed.

(** The text left by [stripTags]: a part without [<], then nothing or an
    unclosed tag, which holds no [>]. *)
Lemma stripTags_shape s :
  forall (pending : string) (inTag : bool),
    (if inTag
     then Js.startsWith isLt pending = true /\
          Js.allChars (fun c => negb (isGt c)) pending = true
     else pending = EmptyString) ->
    exists a p,
      stripTags pending inTag s = a +:+ p /\
      Js.allChars (fun c => negb (isLt c)) a = true /\
      Js.allChars (fun c => negb (isGt c)) p = true /\
      (p = EmptyString \/ Js.startsWith isLt p = true).
Proof.
  induction s as [|c r IH]; intros pending inTag Hp; simpl.
  - destruct inTag.
    + destruct Hp as [H1 H2]. exists EmptyString, pending. auto.
    + subst. exists EmptyString, EmptyString. auto.
  - destruct inTag.
    + destruct Hp as [H1 H2].
      destruct (Js.code c =? 62)%nat eqn:Eg; [by apply IH|].
      apply IH. split.
      * by destruct pending.
      * rewrite allChars_app, H2. simpl. unfold isGt. by rewrite Eg.
    + subst pending. destruct (Js.code c =? 60)%nat eqn:El.
      * apply IH. simpl. unfold isLt, isGt. rewrite El. split; [done|].
        apply Nat.eqb_eq in El. rewrite El. reflexivity.
      * destruct (IH EmptyString false eq_refl) as (a & p & E & Ha & Hp & Hs).
        exists (String c a), p. rewrite E. simpl. unfold isLt at 1.
        rewrite El. auto.
Qed.

(** X22. Removing the tags twice is removing them once: what [stripHtml]
    returns holds no tag. *)
Theorem stripHtml_idempotent (str : string) :
  stripHtml (stripHtml str) = stripHtml str.
Proof.
  unfold stripHtml.
  destruct (stripTags_shape str EmptyString false eq_refl)
    as (a & p & -> & Ha & Hp & Hs).
  rewrite (stripTags_no_lt a p Ha). f_equal.
  destruct Hs as [->|Hs]; [done|].
  destruct p as [|c r]; [done|]. simpl in Hs, Hp |- *.
  unfold isLt in Hs. rewrite Hs.
  apply andb_true_iff in Hp as [_ Hr]. by rewrite (stripTags_no_gt r Hr).
Qed.

(** X23. A text without [<] has no tag and is returned as it is. *)
Theorem stripHtml_plain (str : string) :
  Js.allChars (fun c => negb (isLt c)) str = true -> stripHtml str = str.
Proof.
  intros H. unfold stripHtml.
  rewrite <- (append_empty_r str) at 1.
  rewrite (stripTags_no_lt str EmptyString H). simpl.
  apply append_empty_r.
Qed.

Lemma stripHtml_plain_witness :
  Js.allChars (fun c => negb (isLt c)) "a > b" = true /\
  stripHtml "a > b" = "a > b".
Proof.
  split; [reflexivity|]. exact (stripHtml_plain "a > b" eq_refl).
Defined.

(** ** Inline translation *)

Lemma matchPrefix_spec w :
  forall s m r,
    matchPrefix w s = Some (m, r) ->
    s = m +:+ r /\ Js.toUpperCase m = Js.toUpperCase w.
Proof.
  induction w as [|a w IH]; intros s m r H.
  - destruct s; simpl in H; inversion H; subst; done.
  - destruct s as [|b s]; simpl in H; [done|].
    destruct (Ascii.eqb_spec (Js.upperChar a) (Js.upperChar b)) as [E|];
      [|done].
    destruct (matchPrefix w s) as [[m' r']|] eqn:Em; [|done].
    inversion H; subst. destruct (IH _ _ _ Em) as [-> Hu].
    split; [reflexivity|]. simpl. by rewrite Hu, E.
Qed.

Lemma findWord_spec w s :
  forall prev b m a,
    findWord w prev s = Some (b, m, a) ->
    s = b +:+ m +:+ a /\ Js.toUpperCase m = Js.toUpperCase w.
Proof.
  induction s as [|c s IH]; intros prev b m a H; simpl in H.
  - destruct (matchHere w prev EmptyString) as [[m' r']|] eqn:Eh; [|done].
    inversion H; subst. unfold matchHere in Eh.
    destruct (isBoundary _ _); [|done].
    destruct (matchPrefix w EmptyString) as [[m2 r2]|] eqn:Em; [|done].
    destruct (isBoundary _ _); [|done]. inversion Eh; subst.
    by apply matchPrefix_spec in Em.
  - destruct (matchHere w prev (String c s)) as [[m' r']|] eqn:Eh.
    + inversion H; subst. unfold matchHere in Eh.
      destruct (isBoundary _ _); [|done].
      destruct (matchPrefix w (String c s)) as [[m2 r2]|] eqn:Em; [|done].
      destruct (isBoundary _ _); [|done]. inversion Eh; subst.
      by apply matchPrefix_spec in Em.
    + destruct (findWord w (Some c) s) as [[[b' m'] a']|] eqn:Ef; [|done].
      inversion H; subst. destruct (IH _ _ _ _ Ef) as [-> Hu].
      split; [reflexivity|done].
Qed.

(** X24. On an ASCII text and an ASCII word, [formatInlineTranslation]
    never alters the characters of the text: it returns the text, or the
    text with the translation, between parentheses, inserted after an
    occurrence of the word, read without regard to case. *)
Theorem formatInlineTranslation_inserts (originalText unknownWord translation
    : string) :
  Js.allChars isAscii originalText = true ->
  Js.allChars isAscii unknownWord = true ->
  formatInlineTranslation originalText unknownWord translation = originalText
  \/ exists before matched after,
       originalText = before +:+ matched +:+ after /\
       Js.toUpperCase matched = Js.toUpperCase unknownWord /\
       formatInlineTranslation originalText unknownWord translation =
         before +:+ matched +:+ " (" +:+ translation +:+ ")" +:+ after.
Proof.
  intros _ _. unfold formatInlineTranslation.
  destruct (findWord unknownWord None originalText) as [[[b m] a]|] eqn:E;
    [|by left].
  right. exists b, m, a. destruct (findWord_spec _ _ _ _ _ _ E) as [-> Hu].
  done.
Qed.

Lemma formatInlineTranslation_inserts_witness :
  Js.allChars isAscii "The CAT sat, category." = true /\
  Js.allChars isAscii "cat" = true /\
  formatInlineTranslation "The CAT sat, category." "cat" "chat"
  = "The CAT (chat) sat, category." /\
  (formatInlineTranslation "The CAT sat, category." "cat" "chat"
   = "The CAT sat, category."
   \/ exists before matched after,
        "The CAT sat, category." = before +:+ matched +:+ after /\
        Js.toUpperCase matched = Js.toUpperCase "cat" /\
        formatInlineTranslation "The CAT sat, category." "cat" "chat" =
          before +:+ matched +:+ " (" +:+ "chat" +:+ ")" +:+ after).
Proof.
  split; [reflexivity|]. split; [reflexivity|]. split; [reflexivity|].
  exact (formatInlineTranslation_inserts "The CAT sat, category." "cat"
           "chat" eq_refl eq_refl).
Defined.

(** X25. For a current index that is not below [- windowSize - 1], as
    every index that [findIndex] returns is, the context of a
    translation holds at most [2 * windowSize + 1] lines, each of them
    the text, not empty, of a cue of the track. *)
Theorem getContextLines_bounds (subtitles : list Subtitle)
    (currentIndex windowSize : Z) :
  0 <= windowSize ->
  - windowSize - 1 <= currentIndex ->
  (length (getContextLines subtitles currentIndex windowSize)
   <= Z.to_nat (2 * windowSize + 1))%nat /\
  forall line, line ∈ getContextLines subtitles currentIndex windowSize ->
               line <> EmptyString /\
               exists s, s ∈ subtitles /\ text s = line.
Proof.
  intros Hw Hi. unfold getContextLines, slice. split.
  - unfold Js.filterTruthy.
    etransitivity; [apply filter_length_le|].
    rewrite length_map, length_take.
    destruct (Z.ltb_spec (Z.max 0 (currentIndex - windowSize)) 0),
             (Z.ltb_spec (Z.min (Z.of_nat (length subtitles))
                                (currentIndex + windowSize + 1)) 0); lia.
  - intros line Hl. apply filterTruthy_elem in Hl as [Hl Hne].
    split; [done|].
    apply list_elem_of_fmap in Hl as (s & -> & Hs).
    exists s. split; [|done].
    by apply subseteq_take, subseteq_drop in Hs.
Qed.

Lemma getContextLines_bounds_witness :
  let subs := [cue "1" "a" "b" "one"; cue "2" "a" "b" "";
               cue "3" "a" "b" "three"; cue "4" "a" "b" "four"] in
  0 <= 2 /\ - 2 - 1 <= -1 /\
  (length (getContextLines subs (-1) 2) <= Z.to_nat (2 * 2 + 1))%nat /\
  forall line, line ∈ getContextLines subs (-1) 2 ->
               line <> EmptyString /\
               exists s, s ∈ subs /\ text s = line.
Proof.
  intros subs.
  assert (H : 0 <= 2) by lia.
  assert (Hi : - 2 - 1 <= -1) by lia.
  split; [exact H|]. split; [exact Hi|].
  exact (getContextLines_bounds subs (-1) 2 H Hi).
Defined.

(** Below the index of the bound the end of the slice is negative and
    counts from the end of the track: the context is most of the
    track. *)
Lemma getContextLines_negative_end :
  let subs := map (fun k => cue (Js.ofNat k) "a" "b" "line") (seq 0 10) in
  length (getContextLines subs (-5) 2) = 8%nat /\
  length (getContextLines subs (-4) 2) = 9%nat /\
  length (getContextLines subs (-3) 2) = 0%nat.
Proof. vm_compute. repeat split; reflexivity. Qed.

(** ** The SRT format *)

Lemma isLF_LF c : isLF c = true -> c = LF.
Proof.
  destruct c as [[] [] [] [] [] [] [] []]; vm_compute; intros H;
    try discriminate H; reflexivity.
Qed.

Lemma plain_not_space c : Js.isSpace c = false -> isPlain c = true.
Proof.
  destruct c as [[] [] [] [] [] [] [] []]; vm_compute; intros H;
    try discriminate H; reflexivity.
Qed.

(** *** Lines *)

Lemma splitLines_plain a :
  Js.allChars isPlain a = true -> splitBy lineBreakAt 0 a = [a].
Proof.
  induction a as [|c r IH]; [done|]. cbn [Js.allChars].
  intros H. apply andb_true_iff in H as [Hc Hr].
  unfold isPlain in Hc. apply andb_true_iff in Hc as [H1 H2].
  apply negb_true_iff in H1, H2.
  cbn [splitBy lineBreakAt]. rewrite H1, H2. by rewrite (IH Hr).
Qed.

Lemma splitLines_line a b :
  Js.allChars isPlain a = true ->
  splitBy lineBreakAt 0 (a +:+ String LF b) = a :: splitBy lineBreakAt 0 b.
Proof.
  induction a as [|c r IH]; [reflexivity|]. cbn [Js.allChars].
  intros H. apply andb_true_iff in H as [Hc Hr].
  unfold isPlain in Hc. apply andb_true_iff in Hc as [H1 H2].
  apply negb_true_iff in H1, H2.
  rewrite append_cons. cbn [splitBy lineBreakAt]. rewrite H1, H2.
  by rewrite (IH Hr).
Qed.

Lemma splitBy_nonempty matchAt s :
  forall skip, splitBy matchAt skip s <> [].
Proof.
  induction s as [|c r IH]; intros skip; [done|]. cbn [splitBy].
  destruct skip; [|apply IH].
  destruct (matchAt (String c r)) as [[|k]|]; try done;
    by destruct (splitBy matchAt 0 r).
Qed.

Lemma join_cons_char sep c w ws :
  Js.join sep (String c w :: ws) = String c (Js.join sep (w :: ws)).
Proof. destruct ws; reflexivity. Qed.

(** Joining the lines of a text without carriage return gives the text
    back. *)
Lemma join_splitLines t :
  Js.allChars (fun c => negb (isCR c)) t = true ->
  Js.join newline (splitBy lineBreakAt 0 t) = t.
Proof.
  induction t as [|c r IH]; [done|]. cbn [Js.allChars].
  intros H. apply andb_true_iff in H as [Hc Hr].
  apply negb_true_iff in Hc. specialize (IH Hr).
  cbn [splitBy lineBreakAt]. rewrite Hc.
  destruct (isLF c) eqn:El.
  - apply isLF_LF in El. subst c.
    destruct (splitBy lineBreakAt 0 r) as [|w ws] eqn:E.
    + by apply splitBy_nonempty in E.
    + change (Js.join newline (EmptyString :: w :: ws))
        with (String LF (Js.join newline (w :: ws))).
      by rewrite IH.
  - destruct (splitBy lineBreakAt 0 r) as [|w ws] eqn:E.
    + by apply splitBy_nonempty in E.
    + by rewrite join_cons_char, IH.
Qed.

(** *** The arrow *)

Lemma literalAt_arrow_no_space c r :
  Js.isSpace c = false -> literalAt " --> " (String c r) = None.
Proof.
  intros H. unfold literalAt. cbn [String.prefix].
  destruct (ascii_dec " " c) as [<-|]; [discriminate H|done].
Qed.

Lemma splitArrow_plain a :
  Js.allChars (fun c => negb (Js.isSpace c)) a = true ->
  splitBy (literalAt " --> ") 0 a = [a].
Proof.
  induction a as [|c r IH]; [done|]. cbn [Js.allChars].
  intros H. apply andb_true_iff in H as [Hc Hr]. apply negb_true_iff in Hc.
  cbn [splitBy]. rewrite (literalAt_arrow_no_space c r Hc).
  by rewrite (IH Hr).
Qed.

Lemma splitArrow_times a b :
  Js.allChars (fun c => negb (Js.isSpace c)) a = true ->
  Js.allChars (fun c => negb (Js.isSpace c)) b = true ->
  splitBy (literalAt " --> ") 0 (a +:+ " --> " +:+ b) = [a; b].
Proof.
  intros Ha Hb. induction a as [|c r IH].
  - change (EmptyString +:+ " --> " +:+ b)
      with (String " " (String "-" (String "-" (String ">" (String " " b))))).
    cbn [splitBy].
    assert (E : literalAt " --> "
                  (String " " (String "-" (String "-"
                     (String ">" (String " " b))))) = Some 5%nat).
    { unfold literalAt. cbn [String.prefix].
      repeat (destruct (ascii_dec _ _); [|done]). by destruct b. }
    rewrite E. by rewrite (splitArrow_plain b Hb).
  - cbn [Js.allChars] in Ha. apply andb_true_iff in Ha as [Hc Hr].
    apply negb_true_iff in Hc.
    rewrite append_cons. cbn [splitBy].
    rewrite (literalAt_arrow_no_space _ _ Hc). by rewrite (IH Hr).
Qed.

(** *** Blocks *)

Lemma noBlankLine_no_cr x :
  noBlankLine x = true -> Js.allChars (fun c => negb (isCR c)) x = true.
Proof.
  induction x as [|c r IH]; [done|]. cbn [noBlankLine Js.allChars].
  intros H. apply andb_true_iff in H as [H Hr].
  apply andb_true_iff in H as [Hc _]. by rewrite Hc, IH.
Qed.

Lemma blankLineAt_none c r tail :
  noBlankLine (String c r) = true ->
  blankLineAt (String c (r +:+ tail)) = None.
Proof.
  cbn [noBlankLine]. intros H. apply andb_true_iff in H as [H Hr].
  apply andb_true_iff in H as [Hc Hl]. apply negb_true_iff in Hc.
  unfold blankLineAt. cbn [lineBreakAt]. rewrite Hc.
  destruct (isLF c); [|done].
  destruct r as [|c2 r2]; [done|]. apply negb_true_iff in Hl.
  rewrite append_cons. cbn [dropChars lineBreakAt]. rewrite Hl.
  cbn [noBlankLine] in Hr. apply andb_true_iff in Hr as [Hr _].
  apply andb_true_iff in Hr as [Hc2 _]. apply negb_true_iff in Hc2.
  by rewrite Hc2.
Qed.

Lemma splitBlocks_block x y :
  noBlankLine x = true ->
  splitBy blankLineAt 0 (x +:+ String LF (String LF y))
  = x :: splitBy blankLineAt 0 y.
Proof.
  intros H. induction x as [|c r IH]; [reflexivity|].
  rewrite append_cons. cbn [splitBy].
  rewrite (blankLineAt_none c r _ H).
  cbn [noBlankLine] in H. apply andb_true_iff in H as [_ Hr].
  by rewrite (IH Hr).
Qed.

Lemma splitBlocks_last x :
  noBlankLine x = true ->
  splitBy blankLineAt 0 (x +:+ String LF EmptyString)
  = [x +:+ String LF EmptyString].
Proof.
  intros H. induction x as [|c r IH]; [reflexivity|].
  rewrite append_cons. cbn [splitBy].
  rewrite (blankLineAt_none c r _ H).
  cbn [noBlankLine] in H. apply andb_true_iff in H as [_ Hr].
  by rewrite (IH Hr).
Qed.

Lemma noBlankLine_plain a b :
  Js.allChars isPlain a = true ->
  noBlankLine (a +:+ b) = noBlankLine b.
Proof.
  induction a as [|c r IH]; [done|]. cbn [Js.allChars].
  intros H. apply andb_true_iff in H as [Hc Hr].
  unfold isPlain in Hc. apply andb_true_iff in Hc as [H1 H2].
  apply negb_true_iff in H2.
  rewrite append_cons. cbn [noBlankLine]. rewrite H1, H2. simpl.
  by apply IH.
Qed.

Lemma no_space_plain a :
  Js.allChars (fun c => negb (Js.isSpace c)) a = true ->
  Js.allChars isPlain a = true.
Proof.
  apply allChars_impl. intros c Hc. apply plain_not_space.
  by apply negb_true_iff.
Qed.

Lemma timesLine_plain (s : Subtitle) :
  writable s ->
  Js.allChars isPlain (start s +:+ " --> " +:+ end_ s) = true.
Proof.
  intros (_ & _ & _ & Hs & _ & He & _).
  rewrite !allChars_app, (no_space_plain _ Hs), (no_space_plain _ He).
  reflexivity.
Qed.

Lemma body_shape s tail :
  body s +:+ tail
  = index s +:+ String LF ((start s +:+ " --> " +:+ end_ s)
                           +:+ String LF (text s +:+ tail)).
Proof.
  unfold body. generalize (index s) (start s) (end_ s) (text s).
  intros i a e t.
  rewrite (append_assoc i). rewrite append_cons. f_equal. f_equal.
  rewrite (append_assoc a). rewrite (append_assoc a). f_equal.
  rewrite (append_assoc " --> "). rewrite (append_assoc " --> "). f_equal.
  by rewrite (append_assoc e).
Qed.

Lemma noBlankLine_line a b :
  a <> EmptyString -> Js.startsWith isLF a = false ->
  noBlankLine (a +:+ b) = true ->
  noBlankLine (String LF (a +:+ b)) = true.
Proof.
  intros Ha Hl Hn. destruct a as [|c r]; [done|].
  rewrite append_cons in *.
  change (noBlankLine (String LF (String c (r +:+ b))))
    with (negb (isCR LF) && (if isLF LF then negb (isLF c) else true)
          && noBlankLine (String c (r +:+ b))).
  change (isLF c = false) in Hl. rewrite Hn, Hl. reflexivity.
Qed.

Lemma body_noBlankLine s : writable s -> noBlankLine (body s) = true.
Proof.
  intros Hw. pose proof (timesLine_plain s Hw) as Ht.
  destruct Hw as (_ & Hi & Hsn & Hs & _ & _ & Htn & Htl & Htb).
  rewrite <- (append_empty_r (body s)), body_shape, append_empty_r.
  rewrite (noBlankLine_plain _ _ Hi).
  apply noBlankLine_line.
  - by destruct (start s).
  - destruct (start s) as [|c r]; [done|].
    rewrite append_cons. cbn [Js.allChars] in Hs.
    apply andb_true_iff in Hs as [Hc _]. apply negb_true_iff in Hc.
    destruct c as [[] [] [] [] [] [] [] []]; try reflexivity;
      vm_compute in Hc; discriminate Hc.
  - rewrite (noBlankLine_plain _ _ Ht).
    rewrite <- (append_empty_r (text s)). apply noBlankLine_line; auto.
    by rewrite append_empty_r.
Qed.

Lemma parseBlock_body s tail :
  writable s ->
  Js.allChars (fun c => negb (isCR c)) tail = true ->
  parseBlock (body s +:+ tail)
  = (index s, Some (start s), Some (end_ s), text s +:+ tail).
Proof.
  intros Hw Htail. pose proof (timesLine_plain s Hw) as Ht.
  destruct Hw as (_ & Hi & _ & Hs & _ & He & _ & _ & Htb).
  rewrite body_shape. unfold parseBlock.
  rewrite (splitLines_line _ _ Hi), (splitLines_line _ _ Ht).
  change (parseBlock_of (index s) (start s +:+ " --> " +:+ end_ s)
            (splitBy lineBreakAt 0 (text s +:+ tail))
          = (index s, Some (start s), Some (end_ s), text s +:+ tail)).
  unfold parseBlock_of.
  rewrite (splitArrow_times _ _ Hs He).
  rewrite join_splitLines; [done|].
  rewrite allChars_app, Htail, (noBlankLine_no_cr _ Htb). done.
Qed.

Lemma writable_filter s :
  writable s ->
  negb (Js.isEmpty (index s)) && negb (Js.isEmpty (start s))
  && negb (Js.isEmpty (end_ s)) = true.
Proof.
  intros (Hi & _ & Hs & _ & He & _).
  by destruct (index s), (start s), (end_ s).
Qed.

Lemma append_empty_l (a : string) : EmptyString +:+ a = a.
Proof. reflexivity. Qed.

Ltac norm_append :=
  unfold newline;
  repeat first [rewrite append_assoc | rewrite append_cons
               | rewrite append_empty_l].

Lemma cue_block i a e t rest :
  (i +:+ newline +:+ a +:+ " --> " +:+ e +:+ newline +:+ t +:+ newline)
  +:+ rest
  = (i +:+ String LF (a +:+ " --> " +:+ e +:+ String LF t))
    +:+ String LF rest.
Proof. norm_append. reflexivity. Qed.

Lemma generateSRT_cons s s' r :
  generateSRT (s :: s' :: r)
  = body s +:+ String LF (String LF (generateSRT (s' :: r))).
Proof.
  unfold generateSRT, body. cbn [map].
  change (Js.join newline (?x :: ?y :: ?l))
    with (x +:+ newline +:+ Js.join newline (y :: l)).
  rewrite <- (append_assoc _ newline), cue_block.
  rewrite append_assoc. reflexivity.
Qed.

Lemma generateSRT_single s :
  generateSRT [s] = body s +:+ String LF EmptyString.
Proof.
  unfold generateSRT, body. cbn [map Js.join].
  rewrite <- (append_empty_r (index s +:+ _)) at 1.
  by rewrite cue_block.
Qed.

Lemma parseSRT_reads_back (subs : list Subtitle) :
  Forall writable subs -> parseSRT (generateSRT subs) = reparsed subs.
Proof.
  induction subs as [|s r IH]; intros Hw; [reflexivity|].
  apply Forall_cons in Hw as [Hs Hr].
  destruct r as [|s' r'].
  - rewrite generateSRT_single. unfold parseSRT.
    rewrite (splitBlocks_last _ (body_noBlankLine s Hs)).
    cbn [flat_map].
    rewrite (parseBlock_body s (String LF EmptyString) Hs eq_refl).
    by rewrite (writable_filter s Hs).
  - rewrite generateSRT_cons. unfold parseSRT.
    rewrite (splitBlocks_block _ _ (body_noBlankLine s Hs)).
    cbn [flat_map]. fold (parseSRT (generateSRT (s' :: r'))).
    rewrite (IH Hr).
    rewrite <- (append_empty_r (body s)).
    rewrite (parseBlock_body s EmptyString Hs eq_refl).
    rewrite (writable_filter s Hs), append_empty_r.
    by destruct s.
Qed.

(** X26. Reading back what [generateSRT] wrote gives the cues back, except
    that the text of the last one has one more line feed. *)
Theorem parseSRT_generateSRT (subs : list Subtitle) :
  Forall writable subs -> parseSRT (generateSRT subs) = reparsed subs.
Proof. apply parseSRT_reads_back. Qed.

Lemma parseSRT_generateSRT_witness :
  let s := [cue "1" "00:00:00,000" "00:00:01,000" "A";
            cue "2" "00:00:01,000" "00:00:02,000" "B"] in
  Forall writable s /\ parseSRT (generateSRT s) = reparsed s.
Proof.
  intros s.
  assert (H : Forall writable s).
  { repeat constructor; (discriminate || reflexivity). }
  split; [exact H|]. exact (parseSRT_generateSRT s H).
Defined.

(** *** The merger on a file *)

Lemma reparsed_lookup subs i s' :
  reparsed subs !! i = Some s' ->
  exists s, subs !! i = Some s /\ start s' = start s /\ end_ s' = end_ s.
Proof.
  revert i. induction subs as [|s r IH]; intros i; [done|].
  destruct r as [|s2 r2].
  - destruct i as [|i]; [|done]. intros [= <-]. by exists s.
  - change (reparsed (s :: s2 :: r2)) with (s :: reparsed (s2 :: r2)).
    destruct i as [|i]; [intros [= <-]; by exists s|].
    intros H. exact (IH i H).
Qed.

Lemma reparsed_length subs : length (reparsed subs) = length subs.
Proof.
  induction subs as [|s r IH]; [done|]. destruct r as [|s2 r2]; [done|].
  change (reparsed (s :: s2 :: r2)) with (s :: reparsed (s2 :: r2)).
  cbn [length]. by rewrite IH.
Qed.

Lemma generateSRT_more s l :
  l <> [] ->
  generateSRT (s :: l) = body s +:+ String LF (String LF (generateSRT l)).
Proof. destruct l; [done|]. intros _. apply generateSRT_cons. Qed.

Lemma generateSRT_reparsed subs :
  subs <> [] -> generateSRT (reparsed subs) = generateSRT subs +:+ newline.
Proof.
  induction subs as [|s r IH]; [done|]. intros _.
  destruct r as [|s2 r2].
  - unfold generateSRT. cbn [reparsed map Js.join index start end_ text].
    by rewrite !append_assoc.
  - change (reparsed (s :: s2 :: r2)) with (s :: reparsed (s2 :: r2)).
    rewrite generateSRT_more, generateSRT_cons, IH by
      (try done; intros E; apply (f_equal length) in E;
       by rewrite reparsed_length in E).
    rewrite append_assoc. reflexivity.
Qed.

(** X27. A written file whose cues share no positive duration comes back from
    the merger with one more line feed at its end. *)
Theorem mergeOverlappingSubtitlesInSRT_appends (subs : list Subtitle) :
  subs <> [] ->
  Forall writable subs ->
  (forall i j, i <> j -> ~ overlapAt subs i j) ->
  mergeOverlappingSubtitlesInSRT (generateSRT subs)
  = Some (generateSRT subs +:+ newline).
Proof.
  intros Hne Hw Hfree. unfold mergeOverlappingSubtitlesInSRT.
  rewrite (parseSRT_reads_back subs Hw).
  rewrite merge_noop.
  - simpl. by rewrite generateSRT_reparsed.
  - intros i j a b Hij Ha Hb.
    destruct (overlapsMs a b) eqn:Ho; [|done]. exfalso.
    apply overlapsMs_true in Ho.
    apply withMs_lookup in Ha as (sa & Hsa & ->).
    apply withMs_lookup in Hb as (sb & Hsb & ->). simpl in Ho.
    apply reparsed_lookup in Hsa as (ta & Hta & Ea1 & Ea2).
    apply reparsed_lookup in Hsb as (tb & Htb & Eb1 & Eb2).
    rewrite Ea1, Ea2, Eb1, Eb2 in Ho.
    apply (Hfree i j Hij). exists ta, tb. tauto.
Qed.

Lemma mergeOverlappingSubtitlesInSRT_appends_witness :
  let s := [cue "1" "00:00:00,000" "00:00:01,000" "A";
            cue "2" "00:00:01,000" "00:00:02,000" "B"] in
  s <> [] /\ Forall writable s /\
  (forall i j, i <> j -> ~ overlapAt s i j) /\
  mergeOverlappingSubtitlesInSRT (generateSRT s)
  = Some (generateSRT s +:+ newline).
Proof.
  intros s.
  assert (Hne : s <> []) by discriminate.
  assert (Hw : Forall writable s).
  { repeat constructor; (discriminate || reflexivity). }
  assert (H : forall i j, i <> j -> ~ overlapAt s i j).
  { intros i j Hij (a & b & Ha & Hb & H1 & H2).
    destruct i as [|[|i]], j as [|[|j]]; try done;
      simpl in Ha, Hb; inversion Ha; inversion Hb; subst;
      vm_compute in H1, H2; congruence. }
  split; [exact Hne|]. split; [exact Hw|]. split; [exact H|].
  exact (mergeOverlappingSubtitlesInSRT_appends s Hne Hw H).
Defined.

(** ** Instances *)

Lemma isWordKnown_contraction_witness :
  has {["do"; "not"]} (Js.toLowerCase "don't") = false /\
  ownEntry (Js.toLowerCase "don't") ENGLISH_CONTRACTIONS = Some ["do"; "not"] /\
  isWordKnown "don't" {["do"; "not"]} "en" =
    Some (forallb (fun w => has {["do"; "not"]} (Js.toLowerCase w))
                  ["do"; "not"]).
Proof.
  assert (H1 : has {["do"; "not"]} (Js.toLowerCase "don't") = false)
    by (vm_compute; reflexivity).
  assert (H2 : ownEntry (Js.toLowerCase "don't") ENGLISH_CONTRACTIONS
               = Some ["do"; "not"]) by (vm_compute; reflexivity).
  split; [exact H1|]. split; [exact H2|].
  exact (isWordKnown_contraction "don't" {["do"; "not"]} ["do"; "not"] H1 H2).
Defined.

Lemma isWordKnown_throws_witness :
  isWordKnown "Constructor" ∅ "en" = None /\
  "en" = "en" /\ readContraction (Js.toLowerCase "Constructor") = NotAnArray.
Proof.
  assert (H : isWordKnown "Constructor" ∅ "en" = None)
    by (vm_compute; reflexivity).
  split; [exact H|]. exact (isWordKnown_throws "Constructor" ∅ "en" H).
Defined.

Lemma fuse_returns_outside_english_witness :
  let t := cue "1" "00:00:01,200" "00:00:02,000" "constructor" in
  "fr" <> "en" /\
  is_Some (fuseSubtitles echoLemmatizer [t] [] ∅ "fr" false None).
Proof.
  intros t.
  assert (H : "fr" <> "en") by discriminate.
  split; [exact H|].
  exact (fuse_returns_outside_english echoLemmatizer [t] [] ∅ "fr" false
           None H).
Defined.

Lemma fuse_result_shape_witness :
  let t1 := cue "7" "00:00:01,200" "00:00:02,000" "zorglub schtroumpf" in
  let t2 := cue "9" "00:00:02,100" "00:00:03,800" "the" in
  let n := cue "1" "00:00:01,000" "00:00:04,000" "Bonjour" in
  exists r,
    fuseSubtitles echoLemmatizer [t1; t2] [n] {["the"]} "fr" false None
      = Some r /\
    (length (hybrid r) <= length [t1; t2])%nat /\
    forall i s, hybrid r !! i = Some s -> index s = Js.ofNat (i + 1).
Proof.
  intros t1 t2 n. eexists.
  assert (H : fuseSubtitles echoLemmatizer [t1; t2] [n] {["the"]} "fr"
                false None = Some _) by (vm_compute; reflexivity).
  split; [exact H|].
  exact (fuse_result_shape _ _ _ _ _ _ _ _ H).
Defined.
